(** * Constructions-as-HPCs: the two analysis scripts, embedded and verified

    [python/03_model_y.py] (phoneme normalisation, inventory selection,
    cross-validated AUC, bootstrap bands) and [python/11_extract_let_alone.py]
    (synthetic fallback of the corpus loader, collostruction scores).

    Conventions of the embedding:
    - a Python [str] is the list of its code points ([pystr]);
    - a pandas DataFrame is the list of its rows, in index order;
    - Python exceptions are the [Raise] results of the [result] monad;
    - floats produced by rational arithmetic are exact rationals ([Q]);
      floats that pass through [np.log] are real numbers ([R]). *)

From Stdlib Require Import List ZArith NArith Bool Arith Lia Ascii.
From Stdlib Require String DecimalString.
Import String.StringSyntax.
From Stdlib Require Import QArith Qround.
From Stdlib Require Import Reals Psatz.
From Stdlib Require Import Sorting.Sorted.
From Stdlib Require Sorting.Permutation.
Import ListNotations.

Set Implicit Arguments.

(** ** Python strings *)

Definition pystr := list N.

(** The code points of an ASCII literal. *)
Definition str_lit (s : String.string) : pystr :=
  map N_of_ascii (String.list_ascii_of_string s).
Arguments str_lit s%_string_scope.

(** Python's ordering of [str] values: lexicographic on code points. *)
Fixpoint str_compare (s t : pystr) : comparison :=
  match s, t with
  | [], [] => Eq
  | [], _ :: _ => Lt
  | _ :: _, [] => Gt
  | a :: s', b :: t' =>
      match N.compare a b with
      | Eq => str_compare s' t'
      | c => c
      end
  end.

Definition str_eqb (s t : pystr) : bool :=
  match str_compare s t with Eq => true | _ => false end.

(** ** Exceptions *)

Inductive exn := ValueError | IndexError.

Inductive result (A : Type) : Type :=
| Ok (a : A)
| Raise (e : exn).
Arguments Ok {A} a.
Arguments Raise {A} e.

Definition bind {A B} (m : result A) (k : A -> result B) : result B :=
  match m with
  | Ok a => k a
  | Raise e => Raise e
  end.

Notation "x <- m ;; k" := (bind m (fun x => k))
  (at level 61, m at next level, right associativity).

(** A Python float that is either a number or NaN. *)
Inductive pyfloat :=
| Finite (q : Q)
| NaN.

(** ** 03_model_y.py: phoneme normalisation *)

Module Normalize.

(** The character class of the [re.sub] call: length marks U+02D0, U+02D1,
    stress marks U+02C8, U+02CC, and the combining marks U+0300..U+0304,
    U+0306, U+0308. *)
Definition stripped_marks : list N :=
  [0x02D0; 0x02D1; 0x02C8; 0x02CC;
   0x0300; 0x0301; 0x0302; 0x0303; 0x0304; 0x0306; 0x0308]%N.

Definition is_stripped_mark (c : N) : bool :=
  existsb (N.eqb c) stripped_marks.

(** [re.sub(r'[...]', '', s)] *)
Definition re_sub_marks (s : pystr) : pystr :=
  filter (fun c => negb (is_stripped_mark c)) s.

(** The code points [str.strip()] removes: those of [str.isspace]. *)
Definition isspace (c : N) : bool :=
  ((0x09 <=? c) && (c <=? 0x0D) || (0x1C <=? c) && (c <=? 0x20)
   || (c =? 0x85) || (c =? 0xA0) || (c =? 0x1680)
   || (0x2000 <=? c) && (c <=? 0x200A)
   || (c =? 0x2028) || (c =? 0x2029) || (c =? 0x202F)
   || (c =? 0x205F) || (c =? 0x3000))%N.

Fixpoint lstrip (s : pystr) : pystr :=
  match s with
  | c :: s' => if isspace c then lstrip s' else s
  | [] => []
  end.

Definition rstrip (s : pystr) : pystr := rev (lstrip (rev s)).

Definition strip (s : pystr) : pystr := rstrip (lstrip s).

Section WithNFKC.

(** [unicodedata.normalize('NFKC', _)], a function of the Unicode character
    database. *)
Variable NFKC : pystr -> pystr.

(** The argument is [None] for a null cell ([pd.isnull]) and [Some s] for a
    string. *)
Definition normalize_phoneme_strip_marks (s : option pystr) : pystr :=
  match s with
  | None => []
  | Some s => strip (re_sub_marks (NFKC s))
  end.

End WithNFKC.

(** NFKC on the four code points a (U+0061), modifier letter triangular colon
    (U+02D0), combining ring above (U+030A) and a-with-ring (U+00E5).  Of
    these only U+030A has a non-zero combining class, U+00E5 is the only one
    with a decomposition (U+0061 U+030A), and <U+0061, U+030A> is the only
    composable pair, so on strings over these code points normalisation
    replaces every [a] directly followed by the ring with U+00E5 and changes
    nothing else. *)
Definition primary_composite (starter mark : N) : option N :=
  if ((starter =? 0x61) && (mark =? 0x030A))%N then Some 0xE5%N else None.

Fixpoint NFKC_a_ring (s : pystr) : pystr :=
  match s with
  | [] => []
  | a :: t =>
      match t with
      | [] => [a]
      | m :: s' =>
          match primary_composite a m with
          | Some c => c :: NFKC_a_ring s'
          | None => a :: NFKC_a_ring t
          end
      end
  end.

(** *** Worked instances *)

(** Long a: U+0061 U+02D0. *)
Definition long_a : pystr := [0x61; 0x02D0]%N.

(** U+0061 U+02D0 U+030A: the length mark stands between the letter and the
    ring and keeps them from composing; once it is stripped, the next NFKC
    pass composes them into U+00E5. *)
Definition a_long_ring : pystr := [0x61; 0x02D0; 0x030A]%N.

End Normalize.

(** ** 03_model_y.py: inventory selection *)

Module Inventory.

(** A row of the table returned by [compute_inventory_flags]. *)
Record size_row := {
  Glottocode : pystr;
  InventoryID : Z;
  total_inventory_size : Z;
  vowel_inventory_size : Z;
  y_present : Z;
  i_present : Z
}.

(** The sort key [by=['Glottocode', 'total_inventory_size',
    'vowel_inventory_size'], ascending=[True, False, False]]. *)
Definition sort_key_compare (r1 r2 : size_row) : comparison :=
  match str_compare (Glottocode r1) (Glottocode r2) with
  | Eq =>
      match Z.compare (total_inventory_size r2) (total_inventory_size r1) with
      | Eq => Z.compare (vowel_inventory_size r2) (vowel_inventory_size r1)
      | c => c
      end
  | c => c
  end.

Definition key_le (r1 r2 : size_row) : bool :=
  match sort_key_compare r1 r2 with Gt => false | _ => true end.

(** [sort_values] on several columns is a stable (lexsort) sort: rows with
    equal keys keep their input order. *)
Fixpoint insert_row (r : size_row) (l : list size_row) : list size_row :=
  match l with
  | [] => [r]
  | x :: l' => if key_le r x then r :: l else x :: insert_row r l'
  end.

Definition sort_values (l : list size_row) : list size_row :=
  fold_right insert_row [] l.

(** [groupby('Glottocode').head(1)]: the rows that are the first of their
    group, in table order.  [seen] holds the groups already met. *)
Fixpoint groupby_head1 (seen : list pystr) (l : list size_row)
  : list size_row :=
  match l with
  | [] => []
  | r :: l' =>
      if existsb (str_eqb (Glottocode r)) seen
      then groupby_head1 seen l'
      else r :: groupby_head1 (Glottocode r :: seen) l'
  end.

Definition select_largest_inventory (sizes : list size_row) : list size_row :=
  let sizes_sorted := sort_values sizes in
  groupby_head1 [] sizes_sorted.

(** The rows of a language, and the order on (total, vowel) counts. *)
Definition same_language (r r' : size_row) : Prop :=
  Glottocode r' = Glottocode r.

Definition strictly_larger (r r' : size_row) : Prop :=
  (total_inventory_size r' < total_inventory_size r
   \/ (total_inventory_size r' = total_inventory_size r
       /\ vowel_inventory_size r' < vowel_inventory_size r))%Z.

Definition at_least_as_large (r r' : size_row) : Prop :=
  (total_inventory_size r' < total_inventory_size r
   \/ (total_inventory_size r' = total_inventory_size r
       /\ vowel_inventory_size r' <= vowel_inventory_size r))%Z.

(** [r1] comes no later than [r2] in the sort order. *)
Definition key_le_prop (r1 r2 : size_row) : Prop := key_le r1 r2 = true.

(** The first row of language [g] in a table. *)
Definition first_of (g : pystr) (l : list size_row) : option size_row :=
  find (fun r => str_eqb (Glottocode r) g) l.

(** The first row of language [g], in table order, among those whose
    (total, vowel) counts are largest. *)
Fixpoint best (g : pystr) (l : list size_row) : option size_row :=
  match l with
  | [] => None
  | r :: l' =>
      if str_eqb (Glottocode r) g then
        match best g l' with
        | Some r' => if key_le r r' then Some r else Some r'
        | None => Some r
        end
      else best g l'
  end.

(** *** Worked instances *)

(** A three-row table: language L with inventories of 5 and 8 vowels,
    language M with one inventory. *)
Definition L_small : size_row :=
  {| Glottocode := str_lit "lang1234"; InventoryID := 1;
     total_inventory_size := 30; vowel_inventory_size := 5;
     y_present := 0; i_present := 1 |}.

Definition L_large : size_row :=
  {| Glottocode := str_lit "lang1234"; InventoryID := 2;
     total_inventory_size := 41; vowel_inventory_size := 8;
     y_present := 1; i_present := 1 |}.

Definition M_only : size_row :=
  {| Glottocode := str_lit "mmmm1234"; InventoryID := 3;
     total_inventory_size := 20; vowel_inventory_size := 3;
     y_present := 0; i_present := 1 |}.

Definition example_sizes : list size_row := [M_only; L_small; L_large].

End Inventory.

(** ** 03_model_y.py: design matrix, cross-validation, bootstrap band *)

Module Model.

(** The columns of [prepare_dataset]'s table that the model code reads. *)
Record data_row := {
  vowel_inventory_size : Z;
  y_present : bool;
  i_present : bool;
  family_name : pystr;
  vowel_inv_c : Q
}.

(** *** numpy helpers *)

Definition Qsum (l : list Q) : Q := fold_right Qplus 0 l.

(** [np.mean]: NaN (with a warning, no exception) on an empty array. *)
Definition np_mean (l : list Q) : pyfloat :=
  match l with
  | [] => NaN
  | _ => Finite (Qsum l / inject_Z (Z.of_nat (length l)))
  end.

(** [len(np.unique(y)) < 2] for a 0/1 array. *)
Definition single_class (y : list bool) : bool :=
  negb (existsb (fun b => b) y && existsb negb y).

(** Positional indexing [a[idx]] / [X.iloc[idx]]; an index out of range
    raises. *)
Fixpoint take {A} (a : list A) (idx : list nat) : result (list A) :=
  match idx with
  | [] => Ok []
  | i :: idx' =>
      match nth_error a i with
      | Some x => rest <- take a idx' ;; Ok (x :: rest)
      | None => Raise IndexError
      end
  end.

Fixpoint insert_Q (x : Q) (l : list Q) : list Q :=
  match l with
  | [] => [x]
  | y :: l' => if Qle_bool x y then x :: l else y :: insert_Q x l'
  end.

Definition sort_Q (l : list Q) : list Q := fold_right insert_Q [] l.

(** [np.percentile(col, q)] with the default linear interpolation: the
    virtual index is [(n-1) * q / 100]; the value is interpolated between the
    two neighbouring order statistics.  An empty array raises. *)
Definition percentile (q : Q) (col : list Q) : result Q :=
  match sort_Q col with
  | [] => Raise IndexError
  | (s0 :: _) as s =>
      let n := length s in
      let virtual_index := inject_Z (Z.of_nat (n - 1)) * q / 100 in
      let previous := Z.to_nat (Qfloor virtual_index) in
      let next := Nat.min (previous + 1) (n - 1) in
      let gamma := virtual_index - inject_Z (Z.of_nat previous) in
      let lo := nth previous s s0 in
      let hi := nth next s s0 in
      Ok (lo + (hi - lo) * gamma)
  end.

(** *** binary64 arithmetic

    A float is the rational it denotes.  An operation of numpy on floats is
    the exact operation followed by rounding to the nearest number with a
    53-bit significand, ties to even; the exponent range is not bounded
    (the numbers of the two scripts are far from overflow and from the
    subnormal range). *)

(** The integer nearest to [n / d], ties to even, for [d > 0]. *)
Definition rne (n d : Z) : Z :=
  let q := (n / d)%Z in
  let r := (n mod d)%Z in
  match (2 * r ?= d)%Z with
  | Lt => q
  | Gt => (q + 1)%Z
  | Eq => if Z.even q then q else (q + 1)%Z
  end.

(** [a / d] rounded, for [a > 0] and [d > 0]: with [e] such that
    [2^52 <= a / d / 2^e < 2^53], the nearest multiple of [2^e]. *)
Definition round53_pos (a d : Z) : Q :=
  let la := Z.log2 a in
  let ld := Z.log2 d in
  let e := if (d * 2 ^ la <=? a * 2 ^ ld)%Z then (la - ld - 52)%Z
           else (la - ld - 53)%Z in
  if (e <=? 0)%Z
  then Qred (rne (a * 2 ^ (- e)) d # Z.to_pos (2 ^ (- e)))
  else inject_Z (rne a (d * 2 ^ e) * 2 ^ e).

Definition round53 (x : Q) : Q :=
  match Qnum x with
  | Z0 => 0
  | Zpos a => round53_pos (Zpos a) (Zpos (Qden x))
  | Zneg a => - round53_pos (Zpos a) (Zpos (Qden x))
  end.

(** The sum of a column of a two-dimensional array: along axis 0 of an array
    with more than one column, [add.reduce] adds the rows in order. *)
Definition float_sum (l : list Q) : Q :=
  fold_left (fun acc x => round53 (acc + x)) l 0.

(** [np.mean] of floats: the sum divided by the count, both in binary64;
    NaN (with a warning, no exception) on an empty array. *)
Definition float_mean (l : list Q) : pyfloat :=
  match l with
  | [] => NaN
  | _ => Finite (round53 (float_sum l / inject_Z (Z.of_nat (length l))))
  end.

(** [x - m] in binary64, where [m] may be NaN. *)
Definition float_sub (x : Q) (m : pyfloat) : pyfloat :=
  match m with
  | Finite q => Finite (round53 (x - q))
  | NaN => NaN
  end.

(** Column [i] of a two-dimensional array given as the list of its rows. *)
Definition column (i : nat) (arr : list (list Q)) : list Q :=
  map (fun row => nth i row 0) arr.

Fixpoint mapM {A B} (f : A -> result B) (l : list A) : result (list B) :=
  match l with
  | [] => Ok []
  | x :: l' => y <- f x ;; ys <- mapM f l' ;; Ok (y :: ys)
  end.

(** [arr.mean(axis=0)] and [np.percentile(arr, q, axis=0)] over [width]
    columns. *)
Definition mean_axis0 (width : nat) (arr : list (list Q)) : list pyfloat :=
  map (fun i => float_mean (column i arr)) (seq 0 width).

Definition percentile_axis0 (q : Q) (width : nat) (arr : list (list Q))
  : result (list Q) :=
  match arr with
  | [] => Raise IndexError
  | _ => mapM (fun i => percentile q (column i arr)) (seq 0 width)
  end.

(** *** design_matrix *)

Fixpoint insert_str (x : pystr) (l : list pystr) : list pystr :=
  match l with
  | [] => [x]
  | y :: l' =>
      match str_compare x y with
      | Lt => x :: l
      | Eq => l
      | Gt => y :: insert_str x l'
      end
  end.

(** The sorted distinct values of a column. *)
Definition categories (l : list pystr) : list pystr :=
  fold_right insert_str [] l.

(** [pd.get_dummies(_, drop_first=True)]: one indicator column per category
    but the first. *)
Definition dummy_columns (data : list data_row) : list pystr :=
  tl (categories (map family_name data)).

Definition design_row (cols : list pystr) (r : data_row) : list Q :=
  vowel_inv_c r
  :: map (fun f => if str_eqb (family_name r) f then 1 else 0) cols.

Definition design_matrix (data : list data_row) : list (list Q) :=
  map (design_row (dummy_columns data)) data.

(** *** roc_auc_score *)

(** Area under the ROC curve of scores against 0/1 labels: the share of
    (positive, negative) pairs ranked in the right order, ties counting one
    half.  scikit-learn refuses labels of a single class. *)
Definition pair_score (p n : Q) : Q :=
  if Qle_bool p n then (if Qle_bool n p then 1 # 2 else 0) else 1.

Definition scores_of (label : bool) (y : list bool) (probs : list Q)
  : list Q :=
  map snd (filter (fun yp => Bool.eqb (fst yp) label) (combine y probs)).

Definition roc_auc_score (y_true : list bool) (probs : list Q) : result Q :=
  if single_class y_true then Raise ValueError
  else
    let pos := scores_of true y_true probs in
    let neg := scores_of false y_true probs in
    Ok (Qsum (flat_map (fun p => map (pair_score p) neg) pos)
        / inject_Z (Z.of_nat (length pos * length neg))).

(** Membership of the closed interval [0,1]. *)
Definition in_unit (q : Q) : Prop := 0 <= q /\ q <= 1.


Section WithSklearn.

(** The parts of scikit-learn and numpy that are numerical procedures or
    seeded generators: the fitted model, its predicted probability of class
    1, the fold number [StratifiedKFold] gives each sample, and the bootstrap
    index draws. *)
Variable lr_model : Type.
Variable lbfgs_fit : list (list Q) -> list bool -> lr_model.
Variable predict1 : lr_model -> list Q -> Q.
Variable test_folds : nat -> Z -> list bool -> list nat.
Variable rng_state : Type.
Variable default_rng : Z -> rng_state.
Variable rng_integers : rng_state -> nat -> nat -> list nat * rng_state.

(** [LogisticRegression(max_iter=1000).fit(X, y)]: the solver needs samples
    of both classes. *)
Definition LogisticRegression_fit (X : list (list Q)) (y : list bool)
  : result lr_model :=
  if single_class y then Raise ValueError else Ok (lbfgs_fit X y).

(** [lr.predict_proba(X)[:, 1]]: input validation refuses an empty [X]. *)
Definition predict_proba1 (lr : lr_model) (X : list (list Q))
  : result (list Q) :=
  match X with
  | [] => Raise ValueError
  | _ => Ok (map (predict1 lr) X)
  end.

Definition count_class (b : bool) (y : list bool) : nat :=
  length (filter (Bool.eqb b) y).

Definition indices_where (f : nat -> bool) (folds : list nat) : list nat :=
  map fst (filter (fun ik => f (snd ik)) (combine (seq 0 (length folds)) folds)).

(** [StratifiedKFold(n_splits, shuffle=True, random_state=seed).split(X, y)]:
    refuses fewer samples than splits, and refuses a [y] none of whose classes
    has [n_splits] members; otherwise fold [k] tests the samples numbered [k]
    and trains on the others. *)
Definition StratifiedKFold_split (n_splits : nat) (seed : Z) (y : list bool)
  : result (list (list nat * list nat)) :=
  if length y <? n_splits then Raise ValueError
  else if (count_class true y <? n_splits) && (count_class false y <? n_splits)
  then Raise ValueError
  else
    let folds := test_folds n_splits seed y in
    Ok (map (fun k =>
               (indices_where (fun j => negb (j =? k)) folds,
                indices_where (fun j => j =? k) folds))
            (seq 0 n_splits)).

(** *** cross_validated_auc *)

Fixpoint cv_folds (X : list (list Q)) (y : list bool)
  (splits : list (list nat * list nat)) (aucs : list Q) : result (list Q) :=
  match splits with
  | [] => Ok aucs
  | (train_idx, test_idx) :: rest =>
      X_train <- take X train_idx ;;
      X_test <- take X test_idx ;;
      y_train <- take y train_idx ;;
      y_test <- take y test_idx ;;
      lr <- LogisticRegression_fit X_train y_train ;;
      probs <- predict_proba1 lr X_test ;;
      if single_class y_test then cv_folds X y rest aucs
      else
        auc <- roc_auc_score y_test probs ;;
        cv_folds X y rest (aucs ++ [auc])
  end.

Definition cross_validated_auc (data : list data_row) : result pyfloat :=
  let X := design_matrix data in
  let y := map y_present data in
  splits <- StratifiedKFold_split 10 20250101 y ;;
  aucs <- cv_folds X y splits [] ;;
  Ok (match aucs with [] => NaN | _ => np_mean aucs end).

(** *** bootstrap_prediction_intervals *)

(** [data['vowel_inventory_size'].mean()]: the sum of the integer column is
    exact, the division is rounded; NaN for an empty table. *)
Definition mean_vowel (data : list data_row) : pyfloat :=
  match data with
  | [] => NaN
  | _ =>
      Finite (round53
                (inject_Z (fold_right Z.add 0%Z
                             (map vowel_inventory_size data))
                 / inject_Z (Z.of_nat (length data))))
  end.

(** The row of [X_new] for the grid value [v]: the frame is created with 0
    in every column of [X_base], and the assignment to
    [X_new['vowel_inv_c']] then fills every column of that name, which is
    the first column and any indicator column of a family that is itself
    named 'vowel_inv_c'. *)
Definition new_row (data : list data_row) (v : Q) : list pyfloat :=
  let c := float_sub v (mean_vowel data) in
  c :: map (fun f => if str_eqb f (str_lit "vowel_inv_c") then c
                     else Finite 0)
         (dummy_columns data).

Definition new_design (data : list data_row) (vowel_range : list Q)
  : list (list pyfloat) :=
  map (new_row data) vowel_range.

(** The rows of a frame as numbers, when none of its entries is NaN. *)
Definition finite_row (row : list pyfloat) : option (list Q) :=
  fold_right (fun x acc =>
                match x, acc with
                | Finite q, Some l => Some (q :: l)
                | _, _ => None
                end) (Some []) row.

Definition finite_rows (X : list (list pyfloat)) : option (list (list Q)) :=
  fold_right (fun row acc =>
                match finite_row row, acc with
                | Some r, Some l => Some (r :: l)
                | _, _ => None
                end) (Some []) X.

(** [lr.predict_proba(X_new)[:, 1]]: input validation refuses a frame that
    holds a NaN, and an empty frame. *)
Definition predict_proba_new (lr : lr_model) (X_new : list (list pyfloat))
  : result (list Q) :=
  match finite_rows X_new with
  | Some X => predict_proba1 lr X
  | None => Raise ValueError
  end.

Fixpoint bootstrap_loop (n_boot : nat) (rng : rng_state)
  (X_full : list (list Q)) (y_full : list bool)
  (X_new : list (list pyfloat))
  (preds_list : list (list Q)) : result (list (list Q)) :=
  match n_boot with
  | O => Ok preds_list
  | S n =>
      let (idx, rng') := rng_integers rng (length y_full) (length y_full) in
      X_boot <- take X_full idx ;;
      y_boot <- take y_full idx ;;
      if single_class y_boot
      then bootstrap_loop n rng' X_full y_full X_new preds_list
      else
        lr <- LogisticRegression_fit X_boot y_boot ;;
        preds <- predict_proba_new lr X_new ;;
        bootstrap_loop n rng' X_full y_full X_new (preds_list ++ [preds])
  end.

(** Lines 180-184: the band of the collected curves. *)
Definition percentile_band (width : nat) (preds_arr : list (list Q))
  : result (list pyfloat * list Q * list Q) :=
  let mean_pred := mean_axis0 width preds_arr in
  lower <- percentile_axis0 (5 # 2) width preds_arr ;;
  upper <- percentile_axis0 (195 # 2) width preds_arr ;;
  Ok (mean_pred, lower, upper).

Definition bootstrap_prediction_intervals (data : list data_row)
  (vowel_range : list Q) (ref_family : pystr) (n_boot : nat)
  : result (list pyfloat * list Q * list Q) :=
  let rng := default_rng 20250101 in
  let X_full := design_matrix data in
  let y_full := map y_present data in
  let X_new := new_design data vowel_range in
  preds_list <- bootstrap_loop n_boot rng X_full y_full X_new [] ;;
  percentile_band (length vowel_range) preds_list.

(** *** Vocabulary for the folds *)

(** A fold runs when its indices are in range, its training labels hold both
    classes and its test set is not empty. *)
Definition fold_runs (y : list bool) (split : list nat * list nat) : Prop :=
  exists y_train y_test,
    take y (fst split) = Ok y_train
    /\ take y (snd split) = Ok y_test
    /\ single_class y_train = false
    /\ y_test <> [].

(** Whether the test labels of a fold hold both classes. *)
Definition test_has_both_classes (y : list bool) (split : list nat * list nat)
  : bool :=
  match take y (snd split) with
  | Ok y_test => negb (single_class y_test)
  | Raise _ => false
  end.

(** What a fold adds to [aucs]: its AUC when its test labels hold both
    classes, nothing otherwise. *)
Definition fold_aucs (X : list (list Q)) (y : list bool)
  (split : list nat * list nat) : list Q :=
  match take X (fst split), take X (snd split),
        take y (fst split), take y (snd split) with
  | Ok X_train, Ok X_test, Ok y_train, Ok y_test =>
      if single_class y_test then []
      else
        match roc_auc_score y_test
                (map (predict1 (lbfgs_fit X_train y_train)) X_test) with
        | Ok a => [a]
        | Raise _ => []
        end
  | _, _, _, _ => []
  end.

End WithSklearn.

(** *** Worked instances

    A learner that predicts one half everywhere, folds dealt out in turn,
    and resamples that draw every row once. *)

Definition half_fit (X : list (list Q)) (y : list bool) : unit := tt.

Definition half_predict (lr : unit) (x : list Q) : Q := 1 # 2.

Definition folds_in_turn (n_splits : nat) (seed : Z) (y : list bool)
  : list nat :=
  map (fun i => Nat.modulo i n_splits) (seq 0 (length y)).

Definition draw_each_row (rng : unit) (high size : nat) : list nat * unit :=
  (seq 0 size, tt).

Definition unit_rng (seed : Z) : unit := tt.

(** A table of [n] rows in which row [i] has /y/ when [has_y i]. *)
Definition table_row (has_y : nat -> bool) (i : nat) : data_row :=
  {| vowel_inventory_size := Z.of_nat i;
     y_present := has_y i;
     i_present := true;
     family_name := str_lit "fam";
     vowel_inv_c := inject_Z (Z.of_nat i) |}.

Definition table_by (has_y : nat -> bool) (n : nat) : list data_row :=
  map (table_row has_y) (seq 0 n).

(** [n] rows of which the first [k] have /y/. *)
Definition table (n k : nat) : list data_row :=
  table_by (fun i => (i <? k)%nat) n.

(** Twenty rows, ten with /y/: every fold tests one row of each class. *)
Definition splits_20 : list (list nat * list nat) :=
  map (fun k => (indices_where (fun j => negb (j =? k)%nat)
                   (folds_in_turn 10 20250101 (map y_present (table 20 10))),
                 indices_where (fun j => (j =? k)%nat)
                   (folds_in_turn 10 20250101 (map y_present (table 20 10)))))
      (seq 0 10).





(** *** Vocabulary for the design matrix *)

(** Strictly ascending order of strings. *)
Definition str_lt (s t : pystr) : Prop := str_compare s t = Lt.

(** The entry of a row of family [family] in the indicator column [f]. *)
Definition indicator (family f : pystr) : Q :=
  if str_eqb family f then 1%Q else 0%Q.

(** The family whose indicator column [get_dummies(drop_first=True)] drops:
    the first category in sorted order. *)
Definition reference_family (data : list data_row) : option pystr :=
  hd_error (categories (map family_name data)).

(** The numbers in the row of [X_new] whose first entry is [c]. *)
Definition filled_row (data : list data_row) (c : Q) : list Q :=
  c :: map (fun f => if str_eqb f (str_lit "vowel_inv_c") then c else 0%Q)
         (dummy_columns data).

(** A 0/1 column that has the same value in every row. *)
Definition constant_column (col : data_row -> bool) (data : list data_row)
  : Prop :=
  forall r r', In r data -> In r' data -> col r = col r'.

(** Three languages of two families. *)
Definition family_rows : list data_row :=
  [ {| vowel_inventory_size := 5; y_present := false; i_present := true;
       family_name := str_lit "Uralic"; vowel_inv_c := -1 |};
    {| vowel_inventory_size := 5; y_present := false; i_present := true;
       family_name := str_lit "Austronesian"; vowel_inv_c := -1 |};
    {| vowel_inventory_size := 8; y_present := true; i_present := true;
       family_name := str_lit "Uralic"; vowel_inv_c := 2 |} ].

(** Two languages, one of a family that is named like the first column of
    the design matrix. *)
Definition clash_rows : list data_row :=
  [ {| vowel_inventory_size := 5; y_present := false; i_present := true;
       family_name := str_lit "Uralic"; vowel_inv_c := -1 |};
    {| vowel_inventory_size := 7; y_present := true; i_present := true;
       family_name := str_lit "vowel_inv_c"; vowel_inv_c := 1 |} ].

(** Three languages of three families. *)
Definition uralic_5 : data_row :=
  {| vowel_inventory_size := 5; y_present := false; i_present := true;
     family_name := str_lit "Uralic"; vowel_inv_c := -1 |}.

Definition austronesian_5 : data_row :=
  {| vowel_inventory_size := 5; y_present := false; i_present := true;
     family_name := str_lit "Austronesian"; vowel_inv_c := -1 |}.

Definition indo_european_8 : data_row :=
  {| vowel_inventory_size := 8; y_present := true; i_present := false;
     family_name := str_lit "Indo-European"; vowel_inv_c := 2 |}.

Definition three_families : list data_row :=
  [uralic_5; austronesian_5; indo_european_8].

(** A model that reports the first entry of the row it is given. *)
Definition first_entry (lr : unit) (x : list Q) : Q := hd 0%Q x.

End Model.

(** ** 11_extract_let_alone.py *)

Module LetAlone.

(** *** Strings and paths *)

Fixpoint str_startswith (s prefix : pystr) : bool :=
  match prefix, s with
  | [], _ => true
  | _ :: _, [] => false
  | p :: prefix', c :: s' => (c =? p)%N && str_startswith s' prefix'
  end.

Definition str_endswith (s suffix : pystr) : bool :=
  str_startswith (rev s) (rev suffix).

(** [str(i)] for a non-negative integer. *)
Definition str_of_nat (i : nat) : pystr :=
  map N_of_ascii
    (String.list_ascii_of_string
       (DecimalString.NilEmpty.string_of_uint (Nat.to_uint i))).

(** [os.path.join] on a POSIX system, for two components. *)
Definition path_join (a b : pystr) : pystr :=
  if str_startswith b (str_lit "/") then b
  else if str_eqb a [] || str_endswith a (str_lit "/") then a ++ b
  else a ++ str_lit "/" ++ b.

(** What the script reads of the file system. *)
Record filesystem := {
  os_path_isdir : pystr -> bool;
  os_listdir : pystr -> list pystr
}.

(** *** Feature rows *)

(** [y_form] is [None] for a missing value. *)
Record feature_row := {
  sentence_id : pystr;
  x_form : pystr;
  y_form : option pystr;
  upos_x : pystr;
  upos_y : pystr;
  parallelism : Z;
  licensing : Z;
  dist_x_anchor : Z;
  dist_anchor_y : Z;
  corpus : pystr
}.

Definition set_corpus (row : feature_row) (c : pystr) : feature_row :=
  {| sentence_id := sentence_id row; x_form := x_form row;
     y_form := y_form row; upos_x := upos_x row; upos_y := upos_y row;
     parallelism := parallelism row; licensing := licensing row;
     dist_x_anchor := dist_x_anchor row; dist_anchor_y := dist_anchor_y row;
     corpus := c |}.

Definition LICENSOR_WORDS : list pystr :=
  [str_lit "not"; str_lit "n't"; str_lit "no"; str_lit "never";
   str_lit "hardly"; str_lit "without"; str_lit "even"].

Definition upos_choices : list pystr :=
  [str_lit "NOUN"; str_lit "VERB"; str_lit "ADJ"; str_lit "OTHER"].

Definition int_of_bool (b : bool) : Z := if b then 1%Z else 0%Z.

Definition gum : pystr := str_lit "gum".
Definition ewt : pystr := str_lit "ewt".

(** [os.path.join("data", "ud", corpus)] *)
Definition corpus_dir (c : pystr) : pystr :=
  path_join (path_join (str_lit "data") (str_lit "ud")) c.

(** The directory is missing, or none of its entries ends in [.conllu]. *)
Definition corpus_files_missing (fs : filesystem) (c : pystr) : Prop :=
  os_path_isdir fs (corpus_dir c) = false
  \/ (forall f, In f (os_listdir fs (corpus_dir c)) ->
               str_endswith f (str_lit ".conllu") = false).

Section WithNumpyRandom.

(** numpy's global generator: its state, [np.random.seed], and the draws
    [np.random.choice], [np.random.rand] and [np.random.randint]. *)
Variable np_state : Type.
Variable np_seed : Z -> np_state.
Variable np_choice : np_state -> list pystr -> pystr * np_state.
Variable np_rand : np_state -> Q * np_state.
Variable np_randint : np_state -> Z -> Z -> Z * np_state.

(** [utils_ud], which is outside these two scripts. *)
Variable sentence : Type.
Variable load_conllu : filesystem -> pystr -> list sentence.
Variable extract_let_alone_features :
  sentence -> list pystr -> list feature_row.

(** One pass of the synthetic loop body, for index [i]. *)
Definition synthetic_row (c : pystr) (i : nat) (st : np_state)
  : feature_row * np_state :=
  let (x_upos, st1) := np_choice st upos_choices in
  let (y_upos, st2) := np_choice st1 upos_choices in
  let parallel :=
    int_of_bool
      ((str_eqb x_upos (str_lit "NOUN") && str_eqb y_upos (str_lit "NOUN"))
       || (str_eqb x_upos y_upos
           && (str_eqb x_upos (str_lit "VERB")
               || str_eqb x_upos (str_lit "ADJ")))) in
  let (u, st3) := np_rand st2 in
  let threshold := if str_eqb c (str_lit "gum") then 6 # 10 else 55 # 100 in
  let licensing := int_of_bool (negb (Qle_bool threshold u)) in
  let (dx, st4) := np_randint st3 1 4 in
  let (dy, st5) := np_randint st4 1 4 in
  ({| sentence_id := str_lit "syn-" ++ c ++ str_lit "-" ++ str_of_nat i;
      x_form := str_lit "X" ++ str_of_nat i;
      y_form := Some (str_lit "Y" ++ str_of_nat i);
      upos_x := x_upos;
      upos_y := y_upos;
      parallelism := parallel;
      licensing := licensing;
      dist_x_anchor := dx;
      dist_anchor_y := dy;
      corpus := c |}, st5).

Fixpoint synthetic_loop (c : pystr) (indices : list nat) (st : np_state)
  (rows : list feature_row) : list feature_row * np_state :=
  match indices with
  | [] => (rows, st)
  | i :: rest =>
      let (row, st') := synthetic_row c i st in
      synthetic_loop c rest st' (rows ++ [row])
  end.

(** The corpus directory is missing or holds no [.conllu] file. *)
Definition no_conllu (fs : filesystem) (base_dir : pystr) : bool :=
  negb (os_path_isdir fs base_dir)
  || negb (existsb (fun f => str_endswith f (str_lit ".conllu"))
             (os_listdir fs base_dir)).

(** [load_corpus_features]: the table returned and the state in which the
    global generator is left. *)
Definition load_corpus_features (fs : filesystem) (st : np_state)
  (c : pystr) : list feature_row * np_state :=
  let base_dir := path_join (path_join (str_lit "data") (str_lit "ud")) c in
  if no_conllu fs base_dir then
    let st0 := np_seed (if str_eqb c (str_lit "gum") then 0 else 1)%Z in
    let n := if str_eqb c (str_lit "gum") then 12%nat else 15%nat in
    synthetic_loop c (seq 0 n) st0 []
  else
    let files :=
      filter (fun fn => str_endswith fn (str_lit ".conllu"))
        (os_listdir fs base_dir) in
    let rows :=
      flat_map
        (fun filename =>
           let path := path_join base_dir filename in
           flat_map
             (fun sent =>
                map (fun row => set_corpus row c)
                  (extract_let_alone_features sent LICENSOR_WORDS))
             (load_conllu fs path))
        files in
    (rows, st).

(** The synthetic table of a corpus: a function of the corpus name alone. *)
Definition synthetic_table (c : pystr) : list feature_row :=
  fst (synthetic_loop c
         (seq 0 (if str_eqb c gum then 12 else 15))
         (np_seed (if str_eqb c gum then 0 else 1)) []).

End WithNumpyRandom.

(** *** Worked instances *)

(** A counter as random state: each draw uses the counter and advances it. *)
Definition counter_seed (k : Z) : nat := Z.to_nat k.

Definition counter_choice (st : nat) (l : list pystr) : pystr * nat :=
  (nth (Nat.modulo st (length l)) l [], S st).

Definition counter_rand (st : nat) : Q * nat :=
  (Z.of_nat (Nat.modulo st 10) # 10, S st).

Definition counter_randint (st : nat) (low high : Z) : Z * nat :=
  ((low + Z.of_nat st mod (high - low))%Z, S st).

Definition no_sentences (fs : filesystem) (path : pystr) : list unit := [].

Definition no_features (sent : unit) (licensors : list pystr)
  : list feature_row := [].

(** A file system without the [data] directory. *)
Definition fs_without_data : filesystem :=
  {| os_path_isdir := fun _ => false; os_listdir := fun _ => [] |}.

(** A file system whose corpus directories hold only a README. *)
Definition fs_readme_only : filesystem :=
  {| os_path_isdir := fun _ => true;
     os_listdir := fun _ => [str_lit "README.md"] |}.

(** *** compute_collostruction *)

Local Open Scope R_scope.

Definition Rgtb (x y : R) : bool := if Rgt_dec x y then true else false.

Definition Reqb (x y : R) : bool := if Req_dec_T x y then true else false.

(** A [dict] in insertion order: assigning to a present key keeps its
    place. *)
Fixpoint dict_set {K V} (eqb : K -> K -> bool) (d : list (K * V))
  (k : K) (v : V) : list (K * V) :=
  match d with
  | [] => [(k, v)]
  | (k', v') :: d' =>
      if eqb k' k then (k, v) :: d' else (k', v') :: dict_set eqb d' k v
  end.

Definition key_eqb (k1 k2 : pystr * pystr) : bool :=
  str_eqb (fst k1) (fst k2) && str_eqb (snd k1) (snd k2).

(** [Series.unique()]: the distinct values in order of first appearance. *)
Fixpoint unique (l : list pystr) : list pystr :=
  match l with
  | [] => []
  | x :: l' => x :: filter (fun y => negb (str_eqb y x)) (unique l')
  end.

(** [counts.get(form, 0)] for the value counts of a column. *)
Definition counts_get (forms : list pystr) (form : pystr) : nat :=
  length (filter (str_eqb form) forms).

Definition epsilon : R := 1 / 10 ^ 12.

Fixpoint insert_scored (x : pystr * R) (l : list (pystr * R))
  : list (pystr * R) :=
  match l with
  | [] => [x]
  | y :: l' =>
      if Rle_dec (- snd x) (- snd y) then x :: l else y :: insert_scored x l'
  end.

(** [scored.sort(key=lambda x: -x[1])], a stable sort. *)
Definition sort_scored (l : list (pystr * R)) : list (pystr * R) :=
  fold_right insert_scored [] l.

Section WithLog.

(** [np.log], [str.lower], and the order in which a Python [set] with the
    given distinct elements is iterated. *)
Variable np_log : R -> R.
Variable str_lower : pystr -> pystr.
Variable set_order : list pystr -> list pystr.

Definition y_form_norm (row : feature_row) : pystr :=
  match y_form row with
  | Some s => str_lower s
  | None => []
  end.

(** The column [y_form_norm] of the rows of one corpus. *)
Definition forms_of (df : list feature_row) (c : pystr) : list pystr :=
  map y_form_norm (filter (fun row => str_eqb (corpus row) c) df).

(** Lines 160-183: the statistic of one form from its four cell counts. *)
Definition G_squared (a b c d : R) : R :=
  let row1 := a + c in
  let row2 := b + d in
  let col1 := a + b in
  let col2 := c + d in
  let total := row1 + row2 in
  let E_a := if Rgtb total 0 then row1 * col1 / total else 0 in
  let E_b := if Rgtb total 0 then row1 * col2 / total else 0 in
  let E_c := if Rgtb total 0 then row2 * col1 / total else 0 in
  let E_d := if Rgtb total 0 then row2 * col2 / total else 0 in
  let terms :=
    (if Rgtb a 0 then [a * np_log ((a + epsilon) / (E_a + epsilon))] else [])
    ++ (if Rgtb b 0 then [b * np_log ((b + epsilon) / (E_b + epsilon))] else [])
    ++ (if Rgtb c 0 then [c * np_log ((c + epsilon) / (E_c + epsilon))] else [])
    ++ (if Rgtb d 0 then [d * np_log ((d + epsilon) / (E_d + epsilon))] else [])
  in
  2 * fold_left Rplus terms 0.

(** The body of the loop over [all_forms]. *)
Definition score_form (corpus_a corpus_b : pystr)
  (forms_a forms_b : list pystr)
  (llr_scores : list ((pystr * pystr) * R)) (form : pystr)
  : list ((pystr * pystr) * R) :=
  let total_a := length forms_a in
  let total_b := length forms_b in
  let a := INR (counts_get forms_a form) in
  let b := INR total_a - a in
  let c := INR (counts_get forms_b form) in
  let d := INR total_b - c in
  if Reqb (a + c) 0 then llr_scores
  else
    let G := G_squared a b c d in
    let freq_a := if (0 <? total_a)%nat then a / INR total_a else 0 in
    let freq_b := if (0 <? total_b)%nat then c / INR total_b else 0 in
    if Rgtb freq_a freq_b then dict_set key_eqb llr_scores (form, corpus_a) G
    else if Rgtb freq_b freq_a
         then dict_set key_eqb llr_scores (form, corpus_b) G
         else llr_scores.

Definition llr_scores_of (corpus_a corpus_b : pystr) (df : list feature_row)
  : list ((pystr * pystr) * R) :=
  let forms_a := forms_of df corpus_a in
  let forms_b := forms_of df corpus_b in
  let all_forms := set_order (unique (unique forms_a ++ unique forms_b)) in
  fold_left (score_form corpus_a corpus_b forms_a forms_b) all_forms [].

(** The five best-scored forms of a corpus, best first. *)
Definition top5 (llr_scores : list ((pystr * pystr) * R)) (c : pystr)
  : list (pystr * R) :=
  let scored :=
    map (fun e => (fst (fst e), snd e))
      (filter (fun e => str_eqb (snd (fst e)) c) llr_scores) in
  firstn 5 (sort_scored scored).

(** [compute_collostruction].  Each value of the returned dictionary is
    given as the list of the (form, score) pairs that the script prints, in
    order, as "form:score" joined by "; ". *)
Definition compute_collostruction (df : list feature_row)
  : list (pystr * list (pystr * R)) :=
  let results := [(str_lit "gum", []); (str_lit "ewt", [])] in
  match unique (map corpus df) with
  | [corpus_a; corpus_b] =>
      let llr_scores := llr_scores_of corpus_a corpus_b df in
      fold_left
        (fun results c => dict_set str_eqb results c (top5 llr_scores c))
        [corpus_a; corpus_b] results
  | _ => results
  end.

(** *** Vocabulary for the statistic and the attribution *)

(** What one cell adds to half the statistic. *)
Definition cell_term (observed expected : R) : R :=
  if Rgtb observed 0
  then observed * np_log ((observed + epsilon) / (expected + epsilon))
  else 0.

(** The expected count the script pairs with a cell, from a row and a column
    total. *)
Definition expected (total row col : R) : R :=
  if Rgtb total 0 then row * col / total else 0.

(** The relative frequency the script computes for a form in a corpus. *)
Definition relative_frequency (forms : list pystr) (form : pystr) : R :=
  if (0 <? length forms)%nat
  then INR (counts_get forms form) / INR (length forms)
  else 0.

(** A form gets a score only when its two relative frequencies differ. *)
Definition frequencies_differ (forms_a forms_b : list pystr) (form : pystr)
  : Prop :=
  relative_frequency forms_a form <> relative_frequency forms_b form.

End WithLog.

(** The log-likelihood (G2) statistic of the 2x2 table as the documentation
    words it: the cell [b] (other forms, first corpus) has expected count
    row2 * col1 / total and the cell [c] (this form, second corpus) has
    expected count row1 * col2 / total.  The script pairs [b] and [c] with
    each other's expected counts. *)
Definition textbook_G_squared (np_log : R -> R) (a b c d : R) : R :=
  let total := a + c + (b + d) in
  2 * (cell_term np_log a (expected total (a + c) (a + b))
       + cell_term np_log b (expected total (b + d) (a + b))
       + cell_term np_log c (expected total (a + c) (c + d))
       + cell_term np_log d (expected total (b + d) (c + d))).

(** *** Worked instances *)

Definition instance_of (c form : pystr) : feature_row :=
  {| sentence_id := []; x_form := []; y_form := Some form;
     upos_x := str_lit "VERB"; upos_y := str_lit "VERB";
     parallelism := 1; licensing := 1;
     dist_x_anchor := 1; dist_anchor_y := 1; corpus := c |}.

Definition keep_case (s : pystr) : pystr := s.

Definition in_list_order (l : list pystr) : list pystr := l.

Definition eat : pystr := str_lit "eat".
Definition run : pystr := str_lit "run".
Definition walk : pystr := str_lit "walk".

(** Two instances from GUM and one from EWT, GUM listed first. *)
Definition df_gum_first : list feature_row :=
  [instance_of gum eat; instance_of gum run; instance_of ewt walk].

(** The same instances with EWT listed first, so that EWT is [corpus_a]. *)
Definition df_ewt_first : list feature_row :=
  [instance_of ewt walk; instance_of gum eat; instance_of gum run].

(** A form with the same relative frequency, one half, in both corpora. *)
Definition df_shared_form : list feature_row :=
  [instance_of gum eat; instance_of gum run;
   instance_of ewt eat; instance_of ewt walk].

(** *** main *)

(** A row of [let_alone_stats.csv]; [top_y_heads] is given as the list of
    (form, score) pairs that is formatted into the string. *)
Record stats_row := {
  st_corpus : pystr;
  n_tokens : Z;
  parallelism_rate : Q;
  licensing_rate : Q;
  top_y_heads : list (pystr * R)
}.

(** What [main] leaves behind: the two tables it saves, or the KeyError that
    [compute_collostruction] raises on a table without columns, after the
    feature table has been saved. *)
Inductive main_outcome :=
| Saved (features : list feature_row) (stats : list stats_row)
| KeyError (features : list feature_row).

(** [d.get(k, default)] *)
Fixpoint dict_get {V} (d : list (pystr * V)) (k : pystr) (default : V) : V :=
  match d with
  | [] => default
  | (k', v) :: d' => if str_eqb k' k then v else dict_get d' k default
  end.

(** [Series.mean()] of a non-empty integer column. *)
Definition series_mean (l : list Z) : Q :=
  (inject_Z (fold_right Z.add 0%Z l) / inject_Z (Z.of_nat (length l)))%Q.

Definition stats_of (collos : list (pystr * list (pystr * R))) (c : pystr)
  (df : list feature_row) : stats_row :=
  let n := length df in
  {| st_corpus := c;
     n_tokens := Z.of_nat n;
     parallelism_rate :=
       if (0 <? n)%nat then series_mean (map parallelism df) else 0%Q;
     licensing_rate :=
       if (0 <? n)%nat then series_mean (map licensing df) else 0%Q;
     top_y_heads := dict_get collos c [] |}.

Section WithEnvironment.

Variable np_state : Type.
Variable np_seed : Z -> np_state.
Variable np_choice : np_state -> list pystr -> pystr * np_state.
Variable np_rand : np_state -> Q * np_state.
Variable np_randint : np_state -> Z -> Z -> Z * np_state.
Variable sentence : Type.
Variable load_conllu : filesystem -> pystr -> list sentence.
Variable extract_let_alone_features :
  sentence -> list pystr -> list feature_row.
Variable np_log : R -> R.
Variable str_lower : pystr -> pystr.
Variable set_order : list pystr -> list pystr.

(** [main], from the file system and the state of the global generator.  A
    [DataFrame] built from an empty list of rows has no columns, so the
    concatenation of two such tables has no column [y_form]. *)
Definition main (fs : filesystem) (st : np_state) : main_outcome :=
  let (df_gum, st1) :=
    load_corpus_features np_seed np_choice np_rand np_randint
      load_conllu extract_let_alone_features fs st gum in
  let (df_ewt, st2) :=
    load_corpus_features np_seed np_choice np_rand np_randint
      load_conllu extract_let_alone_features fs st1 ewt in
  let df_all := df_gum ++ df_ewt in
  match df_all with
  | [] => KeyError df_all
  | _ :: _ =>
      let collos := compute_collostruction np_log str_lower set_order df_all in
      Saved df_all
        [stats_of collos gum df_gum; stats_of collos ewt df_ewt]
  end.

End WithEnvironment.

(** *** Vocabulary for the scores *)

(** The statistic the script computes for a form from its counts in the two
    corpora. *)
Definition form_score (np_log : R -> R) (forms_a forms_b : list pystr)
  (form : pystr) : R :=
  let a := INR (counts_get forms_a form) in
  let c := INR (counts_get forms_b form) in
  G_squared np_log a (INR (length forms_a) - a) c (INR (length forms_b) - c).

(** What the loop maintains for every entry of [llr_scores]: its score is
    the statistic of its form, the form occurs, and the entry is keyed to the
    corpus in which the form is relatively more frequent. *)
Definition attributed (np_log : R -> R) (corpus_a corpus_b : pystr)
  (forms_a forms_b : list pystr) (e : (pystr * pystr) * R) : Prop :=
  snd e = form_score np_log forms_a forms_b (fst (fst e))
  /\ (In (fst (fst e)) forms_a \/ In (fst (fst e)) forms_b)
  /\ ((snd (fst e) = corpus_a
       /\ relative_frequency forms_a (fst (fst e))
          > relative_frequency forms_b (fst (fst e)))
      \/ (snd (fst e) = corpus_b
          /\ relative_frequency forms_b (fst (fst e))
             > relative_frequency forms_a (fst (fst e)))).

(** *** Vocabulary for the exchange of the two corpus labels *)




(** The synthetic parallelism heuristic, as a condition on the two tags. *)
Definition parallel_tags (x_upos y_upos : pystr) : Prop :=
  x_upos = y_upos
  /\ In x_upos [str_lit "NOUN"; str_lit "VERB"; str_lit "ADJ"].

(** A reader that finds one sentence in every file, and an extractor that
    finds one instance in every sentence. *)
Definition one_sentence (fs : filesystem) (path : pystr) : list unit := [tt].

Definition one_instance (sent : unit) (licensors : list pystr)
  : list feature_row :=
  [instance_of (str_lit "unlabelled") eat].

Definition sit : pystr := str_lit "sit".
Definition nap : pystr := str_lit "nap".
Definition hop : pystr := str_lit "hop".
Definition fly : pystr := str_lit "fly".

(** Seven instances from GUM with six forms, one of them twice, and one
    instance from EWT. *)
Definition df_six_forms : list feature_row :=
  [instance_of gum eat; instance_of gum eat; instance_of gum run;
   instance_of gum walk; instance_of gum sit; instance_of gum nap;
   instance_of gum hop; instance_of ewt fly].

(** A file system whose corpus directories each hold one treebank file. *)
Definition fs_with_treebanks : filesystem :=
  {| os_path_isdir := fun _ => true;
     os_listdir := fun _ => [str_lit "train.conllu"; str_lit "README.md"] |}.

End LetAlone.

(** ** 03_model_y.py: inventory flags, family mapping, dataset, predictions *)

Module Dataset.

(** The columns of [phoible.csv] that the script reads.  A missing Glottocode
    or Phoneme is [None]. *)
Record phoible_row := {
  ph_Glottocode : option pystr;
  ph_InventoryID : Z;
  Phoneme : option pystr;
  SegmentClass : pystr;
  LanguageName : pystr
}.

(** The columns of [languoid.csv] that the script reads. *)
Record languoid_row := {
  lg_id : pystr;
  lg_family_id : option pystr;
  lg_level : pystr;
  lg_name : option pystr
}.

(** *** compute_inventory_flags *)

(** The group keys (Glottocode, InventoryID) in the order [groupby] yields
    them: ascending, each once.  Rows without a Glottocode belong to no
    group. *)
Definition key_compare (k1 k2 : pystr * Z) : comparison :=
  match str_compare (fst k1) (fst k2) with
  | Eq => Z.compare (snd k1) (snd k2)
  | c => c
  end.

Fixpoint insert_key (k : pystr * Z) (l : list (pystr * Z))
  : list (pystr * Z) :=
  match l with
  | [] => [k]
  | y :: l' =>
      match key_compare k y with
      | Lt => k :: l
      | Eq => l
      | Gt => y :: insert_key k l'
      end
  end.

Definition row_key (r : phoible_row) : option (pystr * Z) :=
  match ph_Glottocode r with
  | Some g => Some (g, ph_InventoryID r)
  | None => None
  end.

Definition group_keys (df : list phoible_row) : list (pystr * Z) :=
  fold_right
    (fun r acc => match row_key r with
                  | Some k => insert_key k acc
                  | None => acc
                  end)
    [] df.

Definition in_group (k : pystr * Z) (r : phoible_row) : bool :=
  match row_key r with
  | Some k' => str_eqb (fst k') (fst k) && (snd k' =? snd k)%Z
  | None => false
  end.

(** [Series.nunique()] of a column of strings. *)
Definition nunique (l : list pystr) : nat := length (Model.categories l).

Definition is_vowel (r : phoible_row) : bool :=
  str_eqb (SegmentClass r) (str_lit "vowel").

Definition int_of_bool (b : bool) : Z := if b then 1%Z else 0%Z.

Section WithNFKC.

Variable NFKC : pystr -> pystr.

Definition Phoneme_norm (r : phoible_row) : pystr :=
  Normalize.normalize_phoneme_strip_marks NFKC (Phoneme r).

(** The inner function [agg], applied to the rows of one group. *)
Definition agg (k : pystr * Z) (group : list phoible_row)
  : Inventory.size_row :=
  let total := nunique (map Phoneme_norm group) in
  let vowels := nunique (map Phoneme_norm (filter is_vowel group)) in
  let y_present :=
    existsb (fun r => str_eqb (Phoneme_norm r) (str_lit "y")) group in
  let i_present :=
    existsb (fun r => str_eqb (Phoneme_norm r) (str_lit "i")) group in
  {| Inventory.Glottocode := fst k;
     Inventory.InventoryID := snd k;
     Inventory.total_inventory_size := Z.of_nat total;
     Inventory.vowel_inventory_size := Z.of_nat vowels;
     Inventory.y_present := int_of_bool y_present;
     Inventory.i_present := int_of_bool i_present |}.

(** [df.groupby(['Glottocode', 'InventoryID']).apply(agg).reset_index()].
    For a table in which no row has a Glottocode the list is empty. *)
Definition compute_inventory_flags (df : list phoible_row)
  : list Inventory.size_row :=
  map (fun k => agg k (filter (in_group k) df)) (group_keys df).

End WithNFKC.

(** *** compute_family_mapping *)

(** [left.merge(right, how='left')] on a key: every left row, in order, with
    each right row of the same key, or once with nothing when there is
    none. *)
Definition merge_left {L R} (same_key : L -> R -> bool)
  (left : list L) (right : list R) : list (L * option R) :=
  flat_map
    (fun l => match filter (same_key l) right with
              | [] => [(l, None)]
              | ms => map (fun m => (l, Some m)) ms
              end)
    left.

Definition Unknown : pystr := str_lit "(Unknown)".

(** The rows of level 'family', as (family_id, family_name). *)
Definition families (languoid : list languoid_row)
  : list (pystr * option pystr) :=
  map (fun r => (lg_id r, lg_name r))
    (filter (fun r => str_eqb (lg_level r) (str_lit "family")) languoid).

Definition same_family (l : languoid_row) (f : pystr * option pystr) : bool :=
  match lg_family_id l with
  | Some fid => str_eqb fid (fst f)
  | None => false
  end.

(** [fillna('(Unknown)')] on the merged name. *)
Definition fill_family_name (m : option (pystr * option pystr)) : pystr :=
  match m with
  | Some (_, Some n) => n
  | _ => Unknown
  end.

(** The rows (id, family_name). *)
Definition compute_family_mapping (languoid : list languoid_row)
  : list (pystr * pystr) :=
  map (fun lm => (lg_id (fst lm), fill_family_name (snd lm)))
    (merge_left same_family languoid (families languoid)).

(** *** prepare_dataset *)

(** A row of the table returned by [prepare_dataset]. *)
Record dataset_row := {
  d_Glottocode : pystr;
  d_InventoryID : Z;
  d_total_inventory_size : Z;
  d_vowel_inventory_size : Z;
  d_y_present : Z;
  d_i_present : Z;
  d_LanguageName : option pystr;
  d_id : option pystr;
  d_family_name : pystr;
  d_vowel_inv_c : Q
}.

(** [drop_duplicates()]: the first occurrence of every row, in order. *)
Fixpoint drop_duplicates {A} (eqb : A -> A -> bool) (l : list A) : list A :=
  match l with
  | [] => []
  | x :: l' => x :: filter (fun y => negb (eqb y x)) (drop_duplicates eqb l')
  end.

Definition option_str_eqb (a b : option pystr) : bool :=
  match a, b with
  | Some x, Some y => str_eqb x y
  | None, None => true
  | _, _ => false
  end.

Definition meta_eqb (a b : option pystr * pystr) : bool :=
  option_str_eqb (fst a) (fst b) && str_eqb (snd a) (snd b).

Definition language_meta (phoible : list phoible_row)
  : list (option pystr * pystr) :=
  drop_duplicates meta_eqb
    (map (fun r => (ph_Glottocode r, LanguageName r)) phoible).

Definition same_language_meta (l : Inventory.size_row)
  (m : option pystr * pystr) : bool :=
  option_str_eqb (fst m) (Some (Inventory.Glottocode l)).

Definition same_language_id
  (lm : Inventory.size_row * option (option pystr * pystr))
  (e : pystr * pystr) : bool :=
  str_eqb (Inventory.Glottocode (fst lm)) (fst e).

(** [Series.mean()] of a non-empty integer column: the sum is exact, the
    division is rounded to binary64. *)
Definition column_mean (l : list Z) : Q :=
  Model.round53
    (inject_Z (fold_right Z.add 0%Z l) / inject_Z (Z.of_nat (length l))).

(** An integer minus the mean, in binary64. *)
Definition centred (v : Z) (mean : Q) : Q :=
  Model.round53 (inject_Z v - mean).

Section WithNFKC_dataset.

Variable NFKC : pystr -> pystr.

(** Lines 89-90: the flags, and the largest inventory of each language.
    When no row of the phoneme table has a Glottocode, the frame that
    [compute_inventory_flags] returns has no groups and so none of the
    columns that [agg] makes, and [sort_values] raises KeyError
    ('total_inventory_size'); this is [None]. *)
Definition largest_of_flags (phoible : list phoible_row)
  : option (list Inventory.size_row) :=
  match compute_inventory_flags NFKC phoible with
  | [] => None
  | sizes => Some (Inventory.select_largest_inventory sizes)
  end.

(** Lines 91-95: the table built from the largest inventories and the two
    parsed files. *)
Definition prepare_rows (largest : list Inventory.size_row)
  (phoible : list phoible_row) (languoid : list languoid_row)
  : list dataset_row :=
  let data := merge_left same_language_meta largest (language_meta phoible) in
  let mapping := compute_family_mapping languoid in
  let data := merge_left same_language_id data mapping in
  let mean :=
    column_mean
      (map (fun x => Inventory.vowel_inventory_size (fst (fst x))) data) in
  map (fun x =>
         let l := fst (fst x) in
         {| d_Glottocode := Inventory.Glottocode l;
            d_InventoryID := Inventory.InventoryID l;
            d_total_inventory_size := Inventory.total_inventory_size l;
            d_vowel_inventory_size := Inventory.vowel_inventory_size l;
            d_y_present := Inventory.y_present l;
            d_i_present := Inventory.i_present l;
            d_LanguageName := option_map snd (snd (fst x));
            d_id := option_map fst (snd x);
            d_family_name :=
              match snd x with Some e => snd e | None => Unknown end;
            d_vowel_inv_c :=
              centred (Inventory.vowel_inventory_size l) mean |})
      data.

(** What [prepare_dataset] gives: the table, the exception raised when a raw
    file does not exist, or the KeyError of the selection. *)
Inductive prepared :=
| Prepared (data : list dataset_row)
| FileNotFoundError
| KeyError.

(** Each file is [None] when its path does not exist and otherwise the table
    [pd.read_csv] parses from it. *)
Definition prepare_dataset (phoible_file : option (list phoible_row))
  (languoid_file : option (list languoid_row)) : prepared :=
  match phoible_file, languoid_file with
  | Some phoible, Some languoid =>
      match largest_of_flags phoible with
      | Some largest => Prepared (prepare_rows largest phoible languoid)
      | None => KeyError
      end
  | _, _ => FileNotFoundError
  end.

End WithNFKC_dataset.

(** *** generate_predictions *)

Section WithModel.

Variable lr_model : Type.
Variable predict1 : lr_model -> list Q -> Q.

Definition generate_predictions (model : lr_model)
  (data : list Model.data_row) (vowel_range : list Q) (ref_family : pystr)
  : result (list Q) :=
  let X_new := Model.new_design data vowel_range in
  Model.predict_proba_new predict1 model X_new.

End WithModel.

(** *** fit_models *)

Section WithSolver.

Variable lr_model : Type.
Variable lbfgs_fit : list (list Q) -> list bool -> lr_model.

(** The model for /y/ is fitted first, then the model for /i/, on the same
    design matrix. *)
Definition fit_models (data : list Model.data_row)
  : result (lr_model * lr_model) :=
  let X := Model.design_matrix data in
  model_y <- Model.LogisticRegression_fit lbfgs_fit X
               (map Model.y_present data) ;;
  model_i <- Model.LogisticRegression_fit lbfgs_fit X
               (map Model.i_present data) ;;
  Ok (model_y, model_i).

End WithSolver.

(** *** Vocabulary for the tables *)

(** Strictly ascending order of the keys (Glottocode, InventoryID). *)
Definition key_lt (k1 k2 : pystr * Z) : Prop :=
  str_compare (fst k1) (fst k2) = Lt
  \/ (fst k1 = fst k2 /\ (snd k1 < snd k2)%Z).

Definition size_key (o : Inventory.size_row) : pystr * Z :=
  (Inventory.Glottocode o, Inventory.InventoryID o).

Definition is_family (r : languoid_row) : bool :=
  str_eqb (lg_level r) (str_lit "family").

(** *** Worked instances *)

(** NFKC on strings that are already in that normal form, as all the
    phonemes of the worked tables are. *)
Definition NFKC_of_normal_form (s : pystr) : pystr := s.

Definition segment (g : String.string) (inv : Z)
  (phoneme class name : String.string) : phoible_row :=
  {| ph_Glottocode := Some (str_lit g); ph_InventoryID := inv;
     Phoneme := Some (str_lit phoneme); SegmentClass := str_lit class;
     LanguageName := str_lit name |}.
Arguments segment g%_string_scope inv%_Z_scope phoneme%_string_scope
  class%_string_scope name%_string_scope.

Definition without_Glottocode (r : phoible_row) : phoible_row :=
  {| ph_Glottocode := None; ph_InventoryID := ph_InventoryID r;
     Phoneme := Phoneme r; SegmentClass := SegmentClass r;
     LanguageName := LanguageName r |}.

Definition without_Phoneme (r : phoible_row) : phoible_row :=
  {| ph_Glottocode := ph_Glottocode r; ph_InventoryID := ph_InventoryID r;
     Phoneme := None; SegmentClass := SegmentClass r;
     LanguageName := LanguageName r |}.

(** Finnish with two inventories (the second one smaller and without /y/),
    Hawaiian with one, a row without a Glottocode and a row without a
    phoneme. *)
Definition phoible_example : list phoible_row :=
  [ segment "finn1318" 1 "i" "vowel" "Finnish";
    segment "finn1318" 1 "y" "vowel" "Finnish";
    segment "finn1318" 1 "k" "consonant" "Finnish";
    segment "finn1318" 2 "i" "vowel" "Finnish";
    segment "finn1318" 2 "k" "consonant" "Finnish";
    without_Glottocode (segment "none" 7 "a" "vowel" "Unclassified");
    segment "hawa1245" 3 "i" "vowel" "Hawaiian";
    segment "hawa1245" 3 "a" "vowel" "Hawaiian";
    segment "hawa1245" 3 "i" "vowel" "Hawaiian";
    without_Phoneme (segment "hawa1245" 3 "k" "consonant" "Hawaiian") ].

(** The row of the first Finnish inventory in the flags of that table. *)
Definition finnish_sizes : Inventory.size_row :=
  {| Inventory.Glottocode := str_lit "finn1318";
     Inventory.InventoryID := 1;
     Inventory.total_inventory_size := 3;
     Inventory.vowel_inventory_size := 2;
     Inventory.y_present := 1;
     Inventory.i_present := 1 |}.

(** A table none of whose rows has a Glottocode. *)
Definition phoible_without_Glottocode : list phoible_row :=
  map without_Glottocode phoible_example.

(** The same table with a second spelling of the name of Hawaiian. *)
Definition phoible_two_names : list phoible_row :=
  phoible_example ++ [segment "hawa1245" 4 "a" "vowel" "Hawai'i"].

Definition languoid (id family_id level name : String.string)
  : languoid_row :=
  {| lg_id := str_lit id; lg_family_id := Some (str_lit family_id);
     lg_level := str_lit level; lg_name := Some (str_lit name) |}.
Arguments languoid id%_string_scope family_id%_string_scope
  level%_string_scope name%_string_scope.

Definition top_level (r : languoid_row) : languoid_row :=
  {| lg_id := lg_id r; lg_family_id := None; lg_level := lg_level r;
     lg_name := lg_name r |}.

(** Finnish in the family Uralic; Hawaiian in a family that has no row of its
    own. *)
Definition languoid_example : list languoid_row :=
  [ languoid "finn1318" "ural1272" "language" "Finnish";
    top_level (languoid "ural1272" "none" "family" "Uralic");
    languoid "hawa1245" "aust1307" "language" "Hawaiian" ].

End Dataset.

(** * Proofs *)

(** ** Python strings *)

Lemma str_compare_eq_iff s t : str_compare s t = Eq <-> s = t.
Proof.
  revert t; induction s as [|a s IH]; intros [|b t]; simpl;
    try (split; congruence).
  destruct (N.compare_spec a b) as [->|H|H].
  - rewrite IH. split; congruence.
  - split; [discriminate|]. intros [= -> _]. lia.
  - split; [discriminate|]. intros [= -> _]. lia.
Qed.

Lemma str_eqb_eq s t : str_eqb s t = true <-> s = t.
Proof.
  unfold str_eqb. rewrite <- str_compare_eq_iff.
  destruct (str_compare s t); split; congruence.
Qed.

Lemma str_eqb_refl s : str_eqb s s = true.
Proof. now apply str_eqb_eq. Qed.

Lemma str_eqb_neq s t : str_eqb s t = false <-> s <> t.
Proof.
  rewrite <- str_eqb_eq. destruct (str_eqb s t); split; congruence.
Qed.

Lemma str_compare_antisym s t : str_compare t s = CompOpp (str_compare s t).
Proof.
  revert t; induction s as [|a s IH]; intros [|b t]; simpl; auto.
  rewrite (N.compare_antisym a b).
  destruct (N.compare a b); simpl; auto.
Qed.

Lemma str_compare_lt_trans s t u :
  str_compare s t = Lt -> str_compare t u = Lt -> str_compare s u = Lt.
Proof.
  revert t u; induction s as [|a s IH]; intros [|b t] [|c u]; simpl;
    try congruence.
  destruct (N.compare_spec a b) as [->|Hab|Hab]; try discriminate.
  - destruct (N.compare_spec b c) as [->|Hbc|Hbc]; try discriminate; auto.
    apply IH.
  - intros _.
    destruct (N.compare_spec b c) as [->|Hbc|Hbc]; try discriminate; intros _.
    + destruct (N.compare_spec a c); auto; lia.
    + destruct (N.compare_spec a c); auto; lia.
Qed.

(** ** Inventory selection *)

Module InventoryProofs.
Import Inventory.

Local Open Scope Z_scope.

(** The sort key, spelled out. *)
Lemma key_le_spec r1 r2 :
  key_le r1 r2 = true <->
  str_compare (Glottocode r1) (Glottocode r2) = Lt
  \/ (Glottocode r1 = Glottocode r2
      /\ (total_inventory_size r2 < total_inventory_size r1
          \/ (total_inventory_size r2 = total_inventory_size r1
              /\ vowel_inventory_size r2 <= vowel_inventory_size r1))).
Proof.
  unfold key_le, sort_key_compare.
  destruct (str_compare (Glottocode r1) (Glottocode r2)) eqn:Hg.
  - apply str_compare_eq_iff in Hg.
    destruct (Z.compare_spec (total_inventory_size r2) (total_inventory_size r1))
      as [Ht|Ht|Ht].
    + destruct (Z.compare_spec (vowel_inventory_size r2)
                  (vowel_inventory_size r1)) as [Hv|Hv|Hv].
      * split; [intros _|reflexivity]. right. split; [exact Hg|right; lia].
      * split; [intros _|reflexivity]. right. split; [exact Hg|right; lia].
      * split; [discriminate|].
        intros [K|[_ [K|[_ K]]]]; [discriminate|lia|lia].
    + split; [intros _|reflexivity]. right. split; [exact Hg|left; exact Ht].
    + split; [discriminate|].
      intros [K|[_ [K|[K _]]]]; [discriminate|lia|lia].
  - split; [intros _; left|]; reflexivity.
  - split; [discriminate|].
    intros [K|[K _]]; [discriminate|].
    apply str_compare_eq_iff in K. congruence.
Qed.

Lemma key_le_same_language r r' :
  same_language r r' -> (key_le r r' = true <-> at_least_as_large r r').
Proof.
  unfold same_language, at_least_as_large. intros Hg.
  rewrite key_le_spec. split.
  - intros [H|[_ H]]; [|exact H].
    rewrite Hg in H.
    assert (E : str_compare (Glottocode r) (Glottocode r) = Eq)
      by now apply str_compare_eq_iff.
    congruence.
  - intros H. right. split; [congruence | exact H].
Qed.

Lemma key_le_false_same_language r r' :
  same_language r r' -> (key_le r' r = false <-> strictly_larger r r').
Proof.
  intros Hg. unfold strictly_larger.
  assert (Hg' : same_language r' r) by (unfold same_language in *; congruence).
  pose proof (key_le_same_language Hg') as K.
  unfold at_least_as_large in K.
  destruct (key_le r' r).
  - split; [discriminate|]. intros H.
    destruct K as [K _]. specialize (K eq_refl). lia.
  - split; auto. intros _.
    destruct (Z.lt_total (total_inventory_size r') (total_inventory_size r))
      as [H|[H|H]]; auto.
    + destruct (Z_lt_le_dec (vowel_inventory_size r') (vowel_inventory_size r));
        auto.
      destruct K as [_ K]. assert (false = true); [|discriminate].
      apply K. right. split; auto.
    + destruct K as [_ K]. assert (false = true); [|discriminate].
      apply K. left. exact H.
Qed.

Lemma key_le_total r1 r2 : key_le r1 r2 = false -> key_le r2 r1 = true.
Proof.
  unfold key_le, sort_key_compare.
  rewrite (str_compare_antisym (Glottocode r1) (Glottocode r2)).
  rewrite (Z.compare_antisym (total_inventory_size r2) (total_inventory_size r1)).
  rewrite (Z.compare_antisym (vowel_inventory_size r2) (vowel_inventory_size r1)).
  destruct (str_compare (Glottocode r1) (Glottocode r2)); simpl; auto;
    try discriminate.
  destruct (total_inventory_size r2 ?= total_inventory_size r1); simpl; auto;
    try discriminate.
  destruct (vowel_inventory_size r2 ?= vowel_inventory_size r1); simpl; auto;
    discriminate.
Qed.

Lemma key_le_trans r1 r2 r3 :
  key_le r1 r2 = true -> key_le r2 r3 = true -> key_le r1 r3 = true.
Proof.
  rewrite !key_le_spec.
  intros [H12|[E12 H12]] [H23|[E23 H23]].
  - left. eapply str_compare_lt_trans; eauto.
  - left. congruence.
  - left. congruence.
  - right. split; [congruence|lia].
Qed.

(** [sort_values] sorts and keeps the rows. *)
Lemma insert_row_In x r l : In x (insert_row r l) <-> x = r \/ In x l.
Proof.
  induction l as [|y l IH]; simpl.
  - intuition.
  - destruct (key_le r y); simpl; rewrite ?IH; intuition.
Qed.

Lemma sort_values_In x l : In x (sort_values l) <-> In x l.
Proof.
  induction l as [|y l IH]; simpl; [tauto|].
  rewrite insert_row_In, IH. intuition.
Qed.

Lemma insert_row_sorted r l :
  StronglySorted key_le_prop l -> StronglySorted key_le_prop (insert_row r l).
Proof.
  induction 1 as [|y l Hs IH Hy]; simpl.
  - constructor; constructor.
  - destruct (key_le r y) eqn:E.
    + constructor; [constructor; assumption|].
      constructor; [exact E|].
      rewrite Forall_forall in *. intros z Hz.
      eapply key_le_trans; [exact E | apply Hy, Hz].
    + constructor; [exact IH|].
      rewrite Forall_forall in *. intros z Hz.
      apply insert_row_In in Hz. destruct Hz as [->|Hz].
      * apply key_le_total, E.
      * apply Hy, Hz.
Qed.

Lemma sort_values_sorted l : StronglySorted key_le_prop (sort_values l).
Proof.
  induction l; simpl; [constructor | now apply insert_row_sorted].
Qed.

Lemma first_of_In g l r : first_of g l = Some r -> In r l /\ Glottocode r = g.
Proof.
  unfold first_of. intros H. apply find_some in H.
  destruct H as [H1 H2]. apply str_eqb_eq in H2. auto.
Qed.

Lemma first_of_insert g x s :
  StronglySorted key_le_prop s ->
  first_of g (insert_row x s) =
  if str_eqb (Glottocode x) g then
    match first_of g s with
    | Some r' => if key_le x r' then Some x else Some r'
    | None => Some x
    end
  else first_of g s.
Proof.
  induction 1 as [|y s Hs IH Hy]; simpl.
  - destruct (str_eqb (Glottocode x) g); reflexivity.
  - destruct (key_le x y) eqn:Exy.
    + simpl. destruct (str_eqb (Glottocode x) g) eqn:Ex; [|reflexivity].
      destruct (str_eqb (Glottocode y) g) eqn:Ey.
      * now rewrite Exy.
      * fold (first_of g s). destruct (first_of g s) as [r'|] eqn:Er; auto.
        apply first_of_In in Er. destruct Er as [Er _].
        rewrite Forall_forall in Hy.
        rewrite (key_le_trans _ _ _ Exy (Hy _ Er)). reflexivity.
    + simpl. destruct (str_eqb (Glottocode y) g) eqn:Ey.
      * destruct (str_eqb (Glottocode x) g); [now rewrite Exy | reflexivity].
      * apply IH.
Qed.

Lemma first_of_sort_values g l : first_of g (sort_values l) = best g l.
Proof.
  induction l as [|x l IH]; simpl; [reflexivity|].
  rewrite first_of_insert by apply sort_values_sorted.
  rewrite IH. reflexivity.
Qed.

(** [best] returns a row that beats every earlier row of its language and
    is not beaten by a later one. *)
Lemma best_split g l r :
  best g l = Some r ->
  Glottocode r = g /\
  exists l1 l2,
    l = l1 ++ r :: l2
    /\ (forall r', In r' l1 -> same_language r r' -> strictly_larger r r')
    /\ (forall r', In r' l2 -> same_language r r' -> at_least_as_large r r').
Proof.
  revert r; induction l as [|x l IH]; simpl; intros r; [discriminate|].
  destruct (str_eqb (Glottocode x) g) eqn:Ex.
  - apply str_eqb_eq in Ex.
    destruct (best g l) as [r0|] eqn:Eb.
    + destruct (IH _ eq_refl) as [Hg0 (l1 & l2 & -> & H1 & H2)].
      destruct (key_le x r0) eqn:Exr; intros [= <-].
      * split; [exact Ex|]. exists [], (l1 ++ r0 :: l2).
        split; [reflexivity|]. split; [intros ? []|].
        assert (Hx0 : at_least_as_large x r0).
        { apply key_le_same_language; [|exact Exr].
          unfold same_language; congruence. }
        intros r' Hr' Hs. unfold same_language in Hs.
        assert (Hs0 : same_language r0 r') by (unfold same_language; congruence).
        apply in_app_or in Hr'. destruct Hr' as [Hr'|[<-|Hr']].
        -- specialize (H1 _ Hr' Hs0).
           unfold strictly_larger, at_least_as_large in *. lia.
        -- exact Hx0.
        -- specialize (H2 _ Hr' Hs0). unfold at_least_as_large in *. lia.
      * split; [exact Hg0|]. exists (x :: l1), l2.
        split; [reflexivity|]. split; [|exact H2].
        intros r' [<-|Hr'] Hs; [|now apply H1].
        apply key_le_false_same_language; assumption.
    + intros [= <-]. split; [exact Ex|]. exists [], l.
      split; [reflexivity|]. split; [intros ? []|].
      intros r' Hr' Hs. exfalso.
      assert (Hn : forall l0, best g l0 = None ->
                   forall z, In z l0 -> Glottocode z <> g).
      { clear. induction l0 as [|y l0 IHl]; simpl; [intros _ ? []|].
        destruct (str_eqb (Glottocode y) g) eqn:Ey.
        - destruct (best g l0) as [r1|]; [destruct (key_le y r1)|]; discriminate.
        - intros Hb z [<-|Hz]; [now apply str_eqb_neq | now apply IHl]. }
      apply (Hn _ Eb _ Hr'). unfold same_language in Hs. congruence.
  - intros Hb. destruct (IH _ Hb) as [Hg0 (l1 & l2 & -> & H1 & H2)].
    split; [exact Hg0|]. exists (x :: l1), l2.
    split; [reflexivity|]. split; [|exact H2].
    intros r' [<-|Hr'] Hs; [|now apply H1].
    apply str_eqb_neq in Ex. unfold same_language in Hs. congruence.
Qed.

(** [groupby_head1] keeps exactly the first row of each group not seen. *)
Lemma existsb_seen g seen :
  existsb (str_eqb g) seen = true <-> In g seen.
Proof.
  rewrite existsb_exists. split.
  - intros (x & Hx & E). apply str_eqb_eq in E. now subst.
  - intros H. exists g. split; [exact H | apply str_eqb_refl].
Qed.

Lemma groupby_head1_first seen l r :
  In r (groupby_head1 seen l) ->
  first_of (Glottocode r) l = Some r /\ ~ In (Glottocode r) seen.
Proof.
  revert seen; induction l as [|x l IH]; simpl; intros seen; [intros []|].
  destruct (existsb (str_eqb (Glottocode x)) seen) eqn:Es.
  - intros Hr. destruct (IH _ Hr) as [Hf Hn]. split; [|exact Hn].
    apply existsb_seen in Es.
    destruct (str_eqb (Glottocode x) (Glottocode r)) eqn:E; [|exact Hf].
    apply str_eqb_eq in E. congruence.
  - assert (Hx : ~ In (Glottocode x) seen).
    { intros H. apply existsb_seen in H. congruence. }
    intros [<-|Hr].
    + rewrite str_eqb_refl. auto.
    + destruct (IH _ Hr) as [Hf Hn]. simpl in Hn.
      destruct (str_eqb (Glottocode x) (Glottocode r)) eqn:E.
      * apply str_eqb_eq in E. tauto.
      * tauto.
Qed.

Lemma groupby_head1_NoDup seen l :
  NoDup (map Glottocode (groupby_head1 seen l)).
Proof.
  revert seen; induction l as [|x l IH]; simpl; intros seen; [constructor|].
  destruct (existsb (str_eqb (Glottocode x)) seen); [apply IH|].
  simpl. constructor; [|apply IH].
  intros H. apply in_map_iff in H. destruct H as (r & Hg & Hr).
  apply groupby_head1_first in Hr. destruct Hr as [_ Hn].
  apply Hn. rewrite Hg. now left.
Qed.

Lemma groupby_head1_complete seen l r :
  In r l -> ~ In (Glottocode r) seen ->
  In (Glottocode r) (map Glottocode (groupby_head1 seen l)).
Proof.
  revert seen; induction l as [|x l IH]; simpl; intros seen; [intros []|].
  intros Hr Hn.
  destruct (existsb (str_eqb (Glottocode x)) seen) eqn:Es.
  - destruct Hr as [->|Hr]; [|now apply IH].
    apply existsb_seen in Es. tauto.
  - simpl. destruct Hr as [->|Hr]; [now left|].
    destruct (str_eqb (Glottocode x) (Glottocode r)) eqn:E.
    + apply str_eqb_eq in E. now left.
    + right. apply IH; [exact Hr|].
      apply str_eqb_neq in E. simpl. tauto.
Qed.

(** The selected row of a language is [best] of the input table. *)
Lemma selected_is_best sizes r :
  In r (select_largest_inventory sizes) -> best (Glottocode r) sizes = Some r.
Proof.
  unfold select_largest_inventory. intros H.
  apply groupby_head1_first in H. destruct H as [H _].
  now rewrite first_of_sort_values in H.
Qed.

(** C1. [select_largest_inventory] returns at most one row per Glottocode;
    every returned row is a row of the input (so a language without rows is
    absent) and every language of the input is represented; the returned
    row's [total_inventory_size] is at least that of every input row of the
    same language. *)
Theorem select_largest_inventory_one_largest_row_per_language
  (sizes : list size_row) :
  NoDup (map Glottocode (select_largest_inventory sizes))
  /\ (forall r, In r (select_largest_inventory sizes) -> In r sizes)
  /\ (forall r', In r' sizes ->
        In (Glottocode r') (map Glottocode (select_largest_inventory sizes)))
  /\ (forall r r',
        In r (select_largest_inventory sizes) ->
        In r' sizes ->
        Glottocode r' = Glottocode r ->
        total_inventory_size r' <= total_inventory_size r).
Proof.
  split; [apply groupby_head1_NoDup|].
  split; [|split].
  - intros r Hr. apply selected_is_best, best_split in Hr.
    destruct Hr as [_ (l1 & l2 & -> & _)]. apply in_elt.
  - intros r' Hr'. unfold select_largest_inventory.
    apply groupby_head1_complete; [|intros []].
    now apply sort_values_In.
  - intros r r' Hr Hr' Hg. apply selected_is_best, best_split in Hr.
    destruct Hr as [_ (l1 & l2 & -> & H1 & H2)].
    apply in_app_or in Hr'. destruct Hr' as [Hr'|[<-|Hr']].
    + specialize (H1 _ Hr' Hg). unfold strictly_larger in H1. lia.
    + lia.
    + specialize (H2 _ Hr' Hg). unfold at_least_as_large in H2. lia.
Qed.

(** C9. The row selected for a language is determined by the sort key and
    the input order: splitting the input at the selected row, every earlier
    row of the language has a smaller total count, or the same total and a
    smaller vowel count; every later row of the language has a smaller total
    count, or the same total and a vowel count that is not larger.  So a tie
    on the total goes to the larger vowel count and a tie on both goes to the
    first row encountered. *)
Theorem select_largest_inventory_tie_break
  (sizes : list size_row) (r : size_row) :
  In r (select_largest_inventory sizes) ->
  exists l1 l2,
    sizes = l1 ++ r :: l2
    /\ (forall r', In r' l1 -> same_language r r' -> strictly_larger r r')
    /\ (forall r', In r' l2 -> same_language r r' -> at_least_as_large r r').
Proof.
  intros Hr. apply selected_is_best, best_split in Hr.
  exact (proj2 Hr).
Qed.

Example select_largest_inventory_example :
  select_largest_inventory example_sizes = [L_large; M_only].
Proof. reflexivity. Qed.

(** Two inventories that tie on both counts: the first one met is kept. *)
Example select_largest_inventory_first_of_tied :
  let twin := {| Glottocode := str_lit "lang1234"; InventoryID := 7;
                 total_inventory_size := 41; vowel_inventory_size := 8;
                 y_present := 0; i_present := 0 |} in
  select_largest_inventory [L_small; twin; L_large] = [twin]
  /\ select_largest_inventory [L_large; L_small; twin] = [L_large].
Proof. split; reflexivity. Qed.

Lemma select_largest_inventory_one_largest_row_per_language_witness :
  NoDup (map Glottocode (select_largest_inventory example_sizes))
  /\ total_inventory_size L_small <= total_inventory_size L_large.
Proof.
  destruct (select_largest_inventory_one_largest_row_per_language
              example_sizes) as (H1 & _ & _ & H4).
  split; [exact H1|].
  apply H4.
  - left. reflexivity.
  - right. left. reflexivity.
  - reflexivity.
Defined.

Lemma select_largest_inventory_tie_break_witness :
  exists l1 l2,
    example_sizes = l1 ++ L_large :: l2
    /\ (forall r', In r' l1 -> same_language L_large r' ->
                   strictly_larger L_large r')
    /\ (forall r', In r' l2 -> same_language L_large r' ->
                   at_least_as_large L_large r').
Proof.
  apply (select_largest_inventory_tie_break example_sizes L_large).
  left. reflexivity.
Defined.

End InventoryProofs.

(** ** Phoneme normalisation *)

Module NormalizeProofs.
Import Normalize.

Lemma lstrip_head s c t : lstrip s = c :: t -> isspace c = false.
Proof.
  induction s as [|a s IH]; simpl; [discriminate|].
  destruct (isspace a) eqn:E; [exact IH|].
  intros [= <- _]. exact E.
Qed.

Lemma lstrip_nonspace c t : isspace c = false -> lstrip (c :: t) = c :: t.
Proof. intros E. simpl. now rewrite E. Qed.

Lemma lstrip_idempotent s : lstrip (lstrip s) = lstrip s.
Proof.
  destruct (lstrip s) as [|c t] eqn:E; [reflexivity|].
  apply lstrip_nonspace. eapply lstrip_head, E.
Qed.

Lemma lstrip_snoc s c : isspace c = false -> lstrip (s ++ [c]) = lstrip s ++ [c].
Proof.
  intros E. induction s as [|a s IH]; simpl.
  - now rewrite E.
  - destruct (isspace a); [exact IH | reflexivity].
Qed.

Lemma rstrip_idempotent s : rstrip (rstrip s) = rstrip s.
Proof.
  unfold rstrip. now rewrite rev_involutive, lstrip_idempotent.
Qed.

Lemma rstrip_cons_nonspace c t :
  isspace c = false -> rstrip (c :: t) = c :: rstrip t.
Proof.
  intros E. unfold rstrip. simpl.
  rewrite lstrip_snoc by exact E.
  now rewrite rev_app_distr.
Qed.

Lemma strip_idempotent s : strip (strip s) = strip s.
Proof.
  unfold strip. destruct (lstrip s) as [|c t] eqn:E; [reflexivity|].
  pose proof (lstrip_head _ E) as Hc.
  rewrite (rstrip_cons_nonspace c t Hc).
  rewrite (lstrip_nonspace c (rstrip t) Hc).
  rewrite <- (rstrip_cons_nonspace c t Hc).
  apply rstrip_idempotent.
Qed.

(** Stripping keeps only code points of its argument. *)
Lemma lstrip_Forall (P : N -> Prop) s : Forall P s -> Forall P (lstrip s).
Proof.
  induction 1 as [|a s Ha Hs IH]; simpl; [constructor|].
  destruct (isspace a); [exact IH | now constructor].
Qed.

Lemma strip_Forall (P : N -> Prop) s : Forall P s -> Forall P (strip s).
Proof.
  intros H. unfold strip, rstrip.
  apply Forall_rev, lstrip_Forall, Forall_rev, lstrip_Forall, H.
Qed.

Lemma re_sub_marks_Forall s :
  Forall (fun c => is_stripped_mark c = false) (re_sub_marks s).
Proof.
  unfold re_sub_marks. apply Forall_forall. intros c Hc.
  apply filter_In in Hc. destruct Hc as [_ Hc].
  now destruct (is_stripped_mark c).
Qed.

Lemma re_sub_marks_fixed s :
  Forall (fun c => is_stripped_mark c = false) s -> re_sub_marks s = s.
Proof.
  unfold re_sub_marks. induction 1 as [|a s Ha Hs IH]; simpl; [reflexivity|].
  rewrite Ha. simpl. now rewrite IH.
Qed.

(** The two stages after NFKC, taken together, are idempotent. *)
Lemma strip_marks_idempotent s :
  strip (re_sub_marks (strip (re_sub_marks s))) = strip (re_sub_marks s).
Proof.
  rewrite (re_sub_marks_fixed (s := strip (re_sub_marks s))).
  - apply strip_idempotent.
  - apply strip_Forall, re_sub_marks_Forall.
Qed.

(** C2, as amended.  Whenever the output of
    [normalize_phoneme_strip_marks] is itself unchanged by NFKC, applying the
    function to that output returns it unchanged. *)
Theorem normalize_idempotent_when_output_is_NFKC
  (NFKC : pystr -> pystr) (s : option pystr) :
  NFKC (normalize_phoneme_strip_marks NFKC s)
  = normalize_phoneme_strip_marks NFKC s ->
  normalize_phoneme_strip_marks NFKC
    (Some (normalize_phoneme_strip_marks NFKC s))
  = normalize_phoneme_strip_marks NFKC s.
Proof.
  intros H. simpl. rewrite H.
  destruct s as [s|].
  - apply strip_marks_idempotent.
  - reflexivity.
Qed.

Lemma normalize_idempotent_when_output_is_NFKC_witness :
  NFKC_a_ring (normalize_phoneme_strip_marks NFKC_a_ring (Some long_a))
  = normalize_phoneme_strip_marks NFKC_a_ring (Some long_a)
  /\ normalize_phoneme_strip_marks NFKC_a_ring
       (Some (normalize_phoneme_strip_marks NFKC_a_ring (Some long_a)))
     = normalize_phoneme_strip_marks NFKC_a_ring (Some long_a).
Proof.
  split; [reflexivity|].
  apply (normalize_idempotent_when_output_is_NFKC NFKC_a_ring (Some long_a)).
  reflexivity.
Defined.

Example normalize_a_long_ring :
  normalize_phoneme_strip_marks NFKC_a_ring (Some a_long_ring)
  = [0x61; 0x030A]%N
  /\ normalize_phoneme_strip_marks NFKC_a_ring (Some [0x61; 0x030A]%N)
     = [0xE5]%N.
Proof. split; reflexivity. Qed.

(** C2, as stated, fails: normalising the output once more changes it. *)
Lemma normalize_not_idempotent :
  normalize_phoneme_strip_marks NFKC_a_ring
    (Some (normalize_phoneme_strip_marks NFKC_a_ring (Some a_long_ring)))
  <> normalize_phoneme_strip_marks NFKC_a_ring (Some a_long_ring).
Proof. vm_compute. discriminate. Qed.

End NormalizeProofs.

(** ** Cross-validation and bootstrap *)

Unset Implicit Arguments.

Module ModelProofs.
Import Model.

Local Open Scope Q_scope.

(** *** Indexing *)

Lemma take_In {A} (a : list A) idx out x :
  take a idx = Ok out -> In x out -> In x a.
Proof.
  revert out; induction idx as [|i idx IH]; simpl; intros out.
  - intros [= <-] [].
  - destruct (nth_error a i) as [y|] eqn:E; [|discriminate].
    destruct (take a idx) as [rest|]; simpl; [|discriminate].
    intros [= <-] [<-|H].
    + eapply nth_error_In, E.
    + eapply IH; eauto.
Qed.

Lemma take_in_range {A} (a : list A) idx :
  Forall (fun i => (i < length a)%nat) idx -> exists out, take a idx = Ok out.
Proof.
  induction 1 as [|i idx Hi _ [rest IH]]; simpl.
  - now exists [].
  - destruct (nth_error a i) as [y|] eqn:E.
    + rewrite IH. simpl. now exists (y :: rest).
    + apply nth_error_None in E. lia.
Qed.

Lemma single_class_sub y y' :
  (forall b, In b y' -> In b y) ->
  single_class y = true -> single_class y' = true.
Proof.
  unfold single_class. intros Hsub H.
  apply negb_true_iff in H. apply negb_true_iff.
  apply andb_false_iff in H. apply andb_false_iff.
  destruct H as [H|H]; [left|right];
    (destruct (existsb _ y') eqn:E; [|reflexivity]);
    apply existsb_exists in E; destruct E as (b & Hb & Eb);
    rewrite <- H; symmetry; apply existsb_exists; exists b; auto.
Qed.

(** *** Sums and means of numbers in the unit interval *)

Lemma Qsum_unit_bounds l :
  Forall in_unit l -> 0 <= Qsum l /\ Qsum l <= inject_Z (Z.of_nat (length l)).
Proof.
  induction 1 as [|x l [Hx0 Hx1] _ [IH0 IH1]].
  - simpl. split; apply Qle_refl.
  - cbn [Qsum fold_right length]. fold (Qsum l).
    rewrite Nat2Z.inj_succ, <- Z.add_1_l, inject_Z_plus.
    change (inject_Z 1) with 1. split; lra.
Qed.

Lemma mean_unit l :
  Forall in_unit l -> in_unit (Qsum l / inject_Z (Z.of_nat (length l))).
Proof.
  intros H. destruct (Qsum_unit_bounds l H) as [H0 H1].
  destruct l as [|x l].
  - simpl. unfold in_unit. split; [apply Qle_refl | discriminate].
  - set (n := inject_Z (Z.of_nat (length (x :: l)))) in *.
    assert (Hn : 0 < n).
    { unfold n. change 0 with (inject_Z 0). rewrite <- Zlt_Qlt.
      simpl length. lia. }
    split.
    + apply Qle_shift_div_l; [exact Hn | lra].
    + apply Qle_shift_div_r; [exact Hn | lra].
Qed.

Lemma pair_score_unit p n : in_unit (pair_score p n).
Proof.
  unfold pair_score, in_unit.
  destruct (Qle_bool p n); [destruct (Qle_bool n p)|]; split; discriminate.
Qed.

Lemma roc_auc_score_unit y probs a :
  roc_auc_score y probs = Ok a -> in_unit a.
Proof.
  unfold roc_auc_score. destruct (single_class y); [discriminate|].
  intros [= <-].
  set (pos := scores_of true y probs). set (neg := scores_of false y probs).
  assert (L : length (flat_map (fun p => map (pair_score p) neg) pos)
              = (length pos * length neg)%nat).
  { induction pos as [|p pos IH]; simpl; [reflexivity|].
    now rewrite length_app, length_map, IH. }
  rewrite <- L. apply mean_unit.
  apply Forall_forall. intros x Hx. apply in_flat_map in Hx.
  destruct Hx as (p & _ & Hx). apply in_map_iff in Hx.
  destruct Hx as (n & <- & _). apply pair_score_unit.
Qed.

Lemma roc_auc_score_two_classes y probs :
  single_class y = false -> exists a, roc_auc_score y probs = Ok a.
Proof.
  unfold roc_auc_score. intros ->. eauto.
Qed.

Lemma take_length {A} (a : list A) idx out :
  take a idx = Ok out -> length out = length idx.
Proof.
  revert out; induction idx as [|i idx IH]; simpl; intros out.
  - now intros [= <-].
  - destruct (nth_error a i); [|discriminate].
    destruct (take a idx) as [rest|]; simpl; [|discriminate].
    intros [= <-]. simpl. f_equal. now apply IH.
Qed.

Lemma take_same_length {A B} (a : list A) (b : list B) idx out :
  length a = length b -> take a idx = Ok out ->
  exists out', take b idx = Ok out'.
Proof.
  intros L. revert out; induction idx as [|i idx IH]; simpl; intros out.
  - eauto.
  - destruct (nth_error a i) as [x|] eqn:E; [|discriminate].
    destruct (take a idx) as [rest|]; simpl; [|discriminate].
    intros _. destruct (IH _ eq_refl) as [rest' ->].
    destruct (nth_error b i) as [y|] eqn:E'.
    + simpl. eauto.
    + apply nth_error_None in E'.
      assert (nth_error a i <> None) by congruence.
      apply nth_error_Some in H. lia.
Qed.

(** *** Order statistics and percentiles *)















(** The mean of a non-empty column lies between any bounds of its values. *)
Lemma Qsum_bounds a b l :
  (forall x, In x l -> a <= x /\ x <= b) ->
  a * inject_Z (Z.of_nat (length l)) <= Qsum l
  /\ Qsum l <= b * inject_Z (Z.of_nat (length l)).
Proof.
  induction l as [|x l IH]; intros H.
  - cbn [length Qsum fold_right]. change (inject_Z (Z.of_nat 0)) with 0.
    split; lra.
  - cbn [Qsum fold_right length]. fold (Qsum l).
    rewrite Nat2Z.inj_succ, <- Z.add_1_l, inject_Z_plus.
    change (inject_Z 1) with 1.
    destruct (H x (or_introl eq_refl)) as [Ha Hb].
    destruct IH as [I1 I2]; [intros y Hy; apply H; now right|].
    split; lra.
Qed.

Lemma np_mean_bounds a b l :
  l <> [] -> (forall x, In x l -> a <= x /\ x <= b) ->
  exists m, np_mean l = Finite m /\ a <= m /\ m <= b.
Proof.
  intros Hne H. destruct (Qsum_bounds a b l H) as [H1 H2].
  destruct l as [|x l]; [congruence|].
  unfold np_mean. eexists. split; [reflexivity|].
  set (n := inject_Z (Z.of_nat (length (x :: l)))) in *.
  assert (Hn : 0 < n).
  { unfold n. change 0 with (inject_Z 0). rewrite <- Zlt_Qlt.
    simpl length. lia. }
  split.
  - apply Qle_shift_div_l; [exact Hn | lra].
  - apply Qle_shift_div_r; [exact Hn | lra].
Qed.



Section WithSklearn.

Variable lr_model : Type.
Variable lbfgs_fit : list (list Q) -> list bool -> lr_model.
Variable predict1 : lr_model -> list Q -> Q.
Variable test_folds : nat -> Z -> list bool -> list nat.
Variable rng_state : Type.
Variable default_rng : Z -> rng_state.
Variable rng_integers : rng_state -> nat -> nat -> list nat * rng_state.

(** *** cross_validated_auc *)

Lemma fold_aucs_unit X y split : Forall in_unit (fold_aucs lbfgs_fit predict1 X y split).
Proof.
  unfold fold_aucs.
  destruct (take X (fst split)); [|constructor].
  destruct (take X (snd split)); [|constructor].
  destruct (take y (fst split)); [|constructor].
  destruct (take y (snd split)) as [y_test|]; [|constructor].
  destruct (single_class y_test); [constructor|].
  destruct (roc_auc_score _ _) as [auc|] eqn:E; constructor; [|constructor].
  eapply roc_auc_score_unit, E.
Qed.

Lemma fold_aucs_single_class X y split :
  test_has_both_classes y split = false -> fold_aucs lbfgs_fit predict1 X y split = [].
Proof.
  unfold test_has_both_classes, fold_aucs.
  destruct (take X (fst split)); [|reflexivity].
  destruct (take X (snd split)); [|reflexivity].
  destruct (take y (fst split)); [|reflexivity].
  destruct (take y (snd split)) as [y_test|]; [|reflexivity].
  destruct (single_class y_test); [reflexivity | discriminate].
Qed.

Lemma fold_aucs_both_classes X y split :
  length X = length y -> fold_runs y split ->
  test_has_both_classes y split = true ->
  exists a, fold_aucs lbfgs_fit predict1 X y split = [a].
Proof.
  intros L (y_train & y_test & Htr & Hte & _ & _).
  unfold test_has_both_classes, fold_aucs. rewrite Htr, Hte.
  destruct (take_same_length y X _ _ (eq_sym L) Htr) as [X_train ->].
  destruct (take_same_length y X _ _ (eq_sym L) Hte) as [X_test ->].
  destruct (single_class y_test) eqn:Es; [discriminate|]. intros _.
  unfold roc_auc_score. rewrite Es. eauto.
Qed.

Lemma cv_folds_runs X y splits aucs :
  length X = length y ->
  Forall (fold_runs y) splits ->
  cv_folds lbfgs_fit predict1 X y splits aucs
  = Ok (aucs ++ flat_map (fold_aucs lbfgs_fit predict1 X y) splits).
Proof.
  intros L H. revert aucs.
  induction H as [|[train_idx test_idx] splits Hr _ IH]; intros aucs; simpl.
  - now rewrite app_nil_r.
  - destruct Hr as (y_train & y_test & Htr & Hte & Hc & Hne).
    simpl in Htr, Hte. unfold fold_aucs at 1. simpl fst. simpl snd.
    destruct (take_same_length y X _ _ (eq_sym L) Htr) as [X_train EXtr].
    destruct (take_same_length y X _ _ (eq_sym L) Hte) as [X_test EXte].
    rewrite EXtr, EXte, Htr, Hte. simpl.
    unfold LogisticRegression_fit. rewrite Hc. simpl.
    assert (HX : X_test <> []).
    { intros ->. apply take_length in EXte. apply take_length in Hte.
      destruct y_test; [congruence|]. simpl in *. congruence. }
    unfold predict_proba1. destruct X_test as [|x0 X_test]; [congruence|].
    simpl bind.
    destruct (single_class y_test) eqn:Es.
    + apply IH.
    + unfold roc_auc_score at 1 2. rewrite Es. simpl bind.
      rewrite IH, <- app_assoc. reflexivity.
Qed.

Lemma length_design_matrix data :
  length (design_matrix data) = length (map y_present data).
Proof. unfold design_matrix. now rewrite !length_map. Qed.

(** C3, as amended.  When the stratified split is produced and every fold
    runs, [cross_validated_auc] returns; each fold adds its AUC, a number in
    [0,1], exactly when its test labels hold both classes and adds nothing
    otherwise; the value returned is NaN exactly when no fold has both
    classes in its test set and is otherwise the mean of the added AUCs, a
    number in [0,1]. *)
Theorem cross_validated_auc_range (data : list data_row)
  (splits : list (list nat * list nat)) :
  let X := design_matrix data in
  let y := map y_present data in
  StratifiedKFold_split test_folds 10 20250101 y = Ok splits ->
  Forall (fold_runs y) splits ->
  exists v,
    cross_validated_auc lbfgs_fit predict1 test_folds data = Ok v
    /\ v = np_mean (flat_map (fold_aucs lbfgs_fit predict1 X y) splits)
    /\ (forall split, In split splits ->
          if test_has_both_classes y split
          then exists a, fold_aucs lbfgs_fit predict1 X y split = [a] /\ in_unit a
          else fold_aucs lbfgs_fit predict1 X y split = [])
    /\ (v = NaN <->
        forall split, In split splits -> test_has_both_classes y split = false)
    /\ (forall q, v = Finite q -> in_unit q).
Proof.
  intros X y Hs Hr.
  pose proof (length_design_matrix data) as L. fold X y in L.
  assert (Hfold : forall split, In split splits ->
            if test_has_both_classes y split
            then exists a, fold_aucs lbfgs_fit predict1 X y split = [a] /\ in_unit a
            else fold_aucs lbfgs_fit predict1 X y split = []).
  { intros split Hin.
    destruct (test_has_both_classes y split) eqn:E.
    - rewrite Forall_forall in Hr.
      destruct (fold_aucs_both_classes X y split L (Hr _ Hin) E) as [a Ha].
      exists a. split; [exact Ha|].
      pose proof (fold_aucs_unit X y split) as U. rewrite Ha in U.
      now inversion U.
    - now apply fold_aucs_single_class. }
  exists (np_mean (flat_map (fold_aucs lbfgs_fit predict1 X y) splits)).
  split; [|split; [reflexivity|split; [exact Hfold|split]]].
  - unfold cross_validated_auc. fold X y. rewrite Hs. simpl bind.
    rewrite (cv_folds_runs X y splits [] L Hr). simpl.
    destruct (flat_map (fold_aucs lbfgs_fit predict1 X y) splits); reflexivity.
  - split.
    + intros Hn split Hin. specialize (Hfold _ Hin).
      destruct (test_has_both_classes y split); [|reflexivity].
      destruct Hfold as (a & Ha & _).
      assert (Hin' : In a (flat_map (fold_aucs lbfgs_fit predict1 X y) splits)).
      { apply in_flat_map. exists split. rewrite Ha. simpl. auto. }
      destruct (flat_map (fold_aucs lbfgs_fit predict1 X y) splits); [destruct Hin'|discriminate].
    + intros Hall.
      assert (E : flat_map (fold_aucs lbfgs_fit predict1 X y) splits = []).
      { clear - Hall. induction splits as [|s l IH]; simpl; [reflexivity|].
        rewrite (fold_aucs_single_class X y s) by (apply Hall; now left).
        apply IH. intros s' Hs'. apply Hall. now right. }
      now rewrite E.
  - intros q Hq.
    assert (U : Forall in_unit (flat_map (fold_aucs lbfgs_fit predict1 X y) splits)).
    { apply Forall_forall. intros a Ha. apply in_flat_map in Ha.
      destruct Ha as (split & _ & Ha).
      pose proof (fold_aucs_unit X y split) as U.
      rewrite Forall_forall in U. now apply U. }
    destruct (flat_map (fold_aucs lbfgs_fit predict1 X y) splits) as [|a l] eqn:E;
      [discriminate|].
    unfold np_mean in Hq. injection Hq as <-. exact (mean_unit (a :: l) U).
Qed.

(** With fewer rows than folds the split is refused, whatever the solver and
    the fold assignment are. *)
Lemma cross_validated_auc_too_few_rows (data : list data_row) :
  (length data < 10)%nat ->
  cross_validated_auc lbfgs_fit predict1 test_folds data = Raise ValueError.
Proof.
  intros H. unfold cross_validated_auc, StratifiedKFold_split.
  rewrite length_map.
  apply Nat.ltb_lt in H. rewrite H. reflexivity.
Qed.

(** *** bootstrap_prediction_intervals *)


(** Every resample of a single-class table is skipped. *)
Lemma bootstrap_loop_constant_y n_boot rng X_full y_full X_new preds_list :
  (forall s n, Forall (fun i => (i < n)%nat) (fst (rng_integers s n n))) ->
  length X_full = length y_full ->
  single_class y_full = true ->
  bootstrap_loop lbfgs_fit predict1 rng_integers n_boot rng
    X_full y_full X_new preds_list = Ok preds_list.
Proof.
  intros Hrng L Hc. revert rng.
  induction n_boot as [|n IH]; intros rng; simpl; [reflexivity|].
  specialize (Hrng rng (length y_full)).
  destruct (rng_integers rng (length y_full) (length y_full)) as [idx rng'].
  simpl in Hrng.
  destruct (take_in_range y_full idx Hrng) as [y_boot Ey].
  destruct (take_same_length y_full X_full _ _ (eq_sym L) Ey) as [X_boot EX].
  rewrite EX, Ey. simpl.
  rewrite (single_class_sub y_full y_boot); [apply IH| |exact Hc].
  intros b Hb. eapply take_In; eauto.
Qed.

(** C10.  When [y_present] is constant (and the index draws are in range, as
    [rng.integers(0, n, n)] guarantees), every bootstrap resample is skipped,
    no curve is collected, and [bootstrap_prediction_intervals] raises when
    it takes the percentiles of the empty collection. *)
Theorem bootstrap_constant_y_raises (data : list data_row)
  (vowel_range : list Q) (ref_family : pystr) (n_boot : nat) :
  (forall s n, Forall (fun i => (i < n)%nat) (fst (rng_integers s n n))) ->
  single_class (map y_present data) = true ->
  bootstrap_loop lbfgs_fit predict1 rng_integers n_boot
    (default_rng 20250101) (design_matrix data) (map y_present data)
    (new_design data vowel_range) [] = Ok []
  /\ percentile_axis0 (5 # 2) (length vowel_range) [] = Raise IndexError
  /\ bootstrap_prediction_intervals lbfgs_fit predict1 default_rng
       rng_integers data vowel_range ref_family n_boot = Raise IndexError.
Proof.
  intros Hrng Hc.
  pose proof (bootstrap_loop_constant_y n_boot (default_rng 20250101)
                (design_matrix data) (map y_present data)
                (new_design data vowel_range) [] Hrng
                (length_design_matrix data) Hc) as E.
  split; [exact E|]. split; [reflexivity|].
  unfold bootstrap_prediction_intervals. rewrite E. reflexivity.
Qed.

End WithSklearn.

Lemma draw_each_row_in_range (s : unit) (n : nat) :
  Forall (fun i => (i < n)%nat) (fst (draw_each_row s n n)).
Proof.
  apply Forall_forall. intros i Hi. simpl in Hi. apply in_seq in Hi. lia.
Qed.

Lemma cross_validated_auc_range_witness :
  exists v,
    cross_validated_auc half_fit half_predict folds_in_turn (table 20 10)
    = Ok v
    /\ (forall q, v = Finite q -> in_unit q).
Proof.
  pose proof (cross_validated_auc_range unit half_fit half_predict
                folds_in_turn (table 20 10) splits_20) as T.
  cbv zeta in T.
  destruct T as (v & Hv & _ & _ & _ & Hq).
  - reflexivity.
  - unfold splits_20.
    repeat (constructor;
            [eexists; eexists; repeat split; try reflexivity; discriminate|]).
    constructor.
  - exists v. split; assumption.
Defined.

(** Twenty rows dealt so that each fold tests two rows of the same class: no
    fold adds an AUC and the result is NaN. *)
Example cross_validated_auc_nan :
  cross_validated_auc half_fit half_predict folds_in_turn
    (table_by (fun i => (Nat.modulo i 10 <? 5)%nat) 20)
  = Ok NaN.
Proof. reflexivity. Qed.

(** C3, as stated, fails: a table of three rows, one of them with /y/, is
    refused by the stratified split and no value is returned. *)
Lemma cross_validated_auc_raises_on_three_rows :
  cross_validated_auc half_fit half_predict folds_in_turn (table 3 1)
  = Raise ValueError
  /\ ~ (exists v,
          cross_validated_auc half_fit half_predict folds_in_turn (table 3 1)
          = Ok v).
Proof.
  assert (E : cross_validated_auc half_fit half_predict folds_in_turn
                (table 3 1) = Raise ValueError).
  { apply cross_validated_auc_too_few_rows. simpl. lia. }
  split; [exact E|]. intros [v Hv]. congruence.
Qed.

(** Eleven rows, only the first with /y/: the fold that tests the first row
    trains on rows that all lack /y/, and the fit raises before the test
    labels are looked at. *)
Example cross_validated_auc_single_positive :
  cross_validated_auc half_fit half_predict folds_in_turn (table 11 1)
  = Raise ValueError.
Proof. reflexivity. Qed.



(** The mean of equal numbers need not be that number: three curves that
    all take the binary64 value 0.1 have a mean above it. *)
Example float_mean_of_equal_values :
  exists m,
    float_mean (repeat (round53 (1 # 10)) 3) = Finite m
    /\ round53 (1 # 10) < m.
Proof. eexists. split; [vm_compute; reflexivity | reflexivity]. Qed.

Lemma bootstrap_constant_y_raises_witness :
  single_class (map y_present (table 12 0)) = true
  /\ bootstrap_prediction_intervals half_fit half_predict unit_rng
       draw_each_row (table 12 0) [1; 2] (str_lit "fam") 200
     = Raise IndexError.
Proof.
  split; [reflexivity|].
  apply (bootstrap_constant_y_raises unit half_fit half_predict unit
           unit_rng draw_each_row (table 12 0) [1; 2] (str_lit "fam") 200).
  - exact draw_each_row_in_range.
  - reflexivity.
Defined.

End ModelProofs.

(** ** The let-alone scripts *)

Module LetAloneProofs.
Import LetAlone.

(** *** load_corpus_features *)

Example corpus_dir_gum : corpus_dir gum = str_lit "data/ud/gum".
Proof. reflexivity. Qed.

Lemma corpus_files_missing_no_conllu fs c :
  corpus_files_missing fs c -> no_conllu fs (corpus_dir c) = true.
Proof.
  unfold no_conllu. intros [H|H].
  - now rewrite H.
  - apply orb_true_iff. right. apply negb_true_iff.
    destruct (existsb _ _) eqn:E; [|reflexivity].
    apply existsb_exists in E. destruct E as (f & Hf & E).
    rewrite (H f Hf) in E. discriminate.
Qed.

Section WithNumpyRandom.

Variable np_state : Type.
Variable np_seed : Z -> np_state.
Variable np_choice : np_state -> list pystr -> pystr * np_state.
Variable np_rand : np_state -> Q * np_state.
Variable np_randint : np_state -> Z -> Z -> Z * np_state.
Variable sentence : Type.
Variable load_conllu : filesystem -> pystr -> list sentence.
Variable extract_let_alone_features :
  sentence -> list pystr -> list feature_row.

Lemma synthetic_loop_length c indices st rows :
  length (fst (synthetic_loop np_choice np_rand np_randint c indices st rows))
  = (length rows + length indices)%nat.
Proof.
  revert st rows; induction indices as [|i rest IH]; intros st rows; simpl.
  - lia.
  - destruct (synthetic_row np_choice np_rand np_randint c i st) as [row st'].
    rewrite IH, length_app. simpl. lia.
Qed.

(** C8.  When the corpus directory is missing or holds no [.conllu] file,
    [load_corpus_features] returns the synthetic table of the corpus: it has
    12 rows for 'gum' and 15 rows for 'ewt', is not empty, and is the same
    whatever else the file system holds and whatever state the global random
    generator was in. *)
Theorem load_corpus_features_synthetic_fallback
  (fs : filesystem) (st : np_state) (c : pystr) :
  c = gum \/ c = ewt ->
  corpus_files_missing fs c ->
  let df := fst (load_corpus_features np_seed np_choice np_rand np_randint
                   load_conllu extract_let_alone_features fs st c) in
  df = synthetic_table np_seed np_choice np_rand np_randint c
  /\ length df = (if str_eqb c gum then 12 else 15)%nat
  /\ df <> []
  /\ (forall fs' st',
        corpus_files_missing fs' c ->
        fst (load_corpus_features np_seed np_choice np_rand np_randint
               load_conllu extract_let_alone_features fs' st' c) = df).
Proof.
  intros Hc Hmiss df.
  assert (E : forall fs0 st0, corpus_files_missing fs0 c ->
            fst (load_corpus_features np_seed np_choice np_rand np_randint
                   load_conllu extract_let_alone_features fs0 st0 c)
            = synthetic_table np_seed np_choice np_rand np_randint c).
  { intros fs0 st0 H0. unfold load_corpus_features.
    fold (corpus_dir c).
    rewrite (corpus_files_missing_no_conllu fs0 c H0). reflexivity. }
  assert (L : length (synthetic_table np_seed np_choice np_rand np_randint c)
              = (if str_eqb c gum then 12 else 15)%nat).
  { unfold synthetic_table. rewrite synthetic_loop_length, length_seq.
    reflexivity. }
  unfold df. rewrite (E fs st Hmiss).
  split; [reflexivity|]. split; [exact L|]. split.
  - intros H. rewrite H in L. simpl in L.
    destruct (str_eqb c gum); discriminate.
  - intros fs' st' H'. apply E, H'.
Qed.

End WithNumpyRandom.

Lemma load_corpus_features_synthetic_fallback_witness :
  length (fst (load_corpus_features counter_seed counter_choice counter_rand
                 counter_randint no_sentences no_features
                 fs_without_data 7%nat gum)) = 12%nat
  /\ length (fst (load_corpus_features counter_seed counter_choice
                    counter_rand counter_randint no_sentences no_features
                    fs_readme_only 0%nat ewt)) = 15%nat
  /\ fst (load_corpus_features counter_seed counter_choice counter_rand
            counter_randint no_sentences no_features fs_readme_only 3%nat gum)
     = fst (load_corpus_features counter_seed counter_choice counter_rand
              counter_randint no_sentences no_features
              fs_without_data 7%nat gum).
Proof.
  pose proof (load_corpus_features_synthetic_fallback nat counter_seed
                counter_choice counter_rand counter_randint unit
                no_sentences no_features fs_without_data 7%nat gum) as Tg.
  pose proof (load_corpus_features_synthetic_fallback nat counter_seed
                counter_choice counter_rand counter_randint unit
                no_sentences no_features fs_readme_only 0%nat ewt) as Te.
  cbv zeta in Tg, Te.
  destruct Tg as (_ & Lg & _ & Dg).
  { left. reflexivity. }
  { left. reflexivity. }
  destruct Te as (_ & Le & _ & _).
  { right. reflexivity. }
  { right. intros f [<-|[]]. reflexivity. }
  split; [exact Lg|]. split; [exact Le|].
  apply Dg. right. intros f [<-|[]]. reflexivity.
Defined.

(** *** compute_collostruction *)

Local Open Scope R_scope.

Lemma Rgtb_true x y : x > y -> Rgtb x y = true.
Proof. intros H. unfold Rgtb. destruct (Rgt_dec x y); [reflexivity|tauto]. Qed.

Lemma Rgtb_false x y : x <= y -> Rgtb x y = false.
Proof.
  intros H. unfold Rgtb. destruct (Rgt_dec x y); [lra|reflexivity].
Qed.

Lemma Rgtb_spec x y : Rgtb x y = true <-> x > y.
Proof.
  unfold Rgtb. destruct (Rgt_dec x y); split; auto; discriminate.
Qed.

Lemma Reqb_false x y : x <> y -> Reqb x y = false.
Proof.
  intros H. unfold Reqb. destruct (Req_dec_T x y); [tauto|reflexivity].
Qed.

Lemma epsilon_pos : 0 < epsilon.
Proof.
  unfold epsilon. apply Rdiv_lt_0_compat; [lra|]. apply pow_lt. lra.
Qed.

Lemma dict_set_In {K V} (eqb : K -> K -> bool) (d : list (K * V)) k v e :
  In e (dict_set eqb d k v) -> e = (k, v) \/ In e d.
Proof.
  induction d as [|[k' v'] d IH]; simpl.
  - intros [<-|[]]. now left.
  - destruct (eqb k' k); simpl.
    + intros [<-|H]; auto.
    + intros [<-|H]; auto. destruct (IH H); auto.
Qed.

Lemma insert_scored_In x y l : In x (insert_scored y l) <-> x = y \/ In x l.
Proof.
  induction l as [|z l IH]; simpl.
  - intuition.
  - destruct (Rle_dec (- snd y) (- snd z)); simpl; rewrite ?IH; intuition.
Qed.

Lemma sort_scored_In x l : In x (sort_scored l) <-> In x l.
Proof.
  induction l as [|y l IH]; simpl; [tauto|].
  rewrite insert_scored_In, IH. intuition.
Qed.

Lemma firstn_incl {A} n (l : list A) x : In x (firstn n l) -> In x l.
Proof.
  revert l; induction n as [|n IH]; intros [|y l]; simpl; try tauto.
  intros [<-|H]; auto.
Qed.

Section WithLog.

Variable np_log : R -> R.
Variable str_lower : pystr -> pystr.
Variable set_order : list pystr -> list pystr.

(** **** The statistic *)

Lemma G_squared_as_cell_terms (a b c d : R) :
  G_squared np_log a b c d
  = 2 * (cell_term np_log a (expected (a + c + (b + d)) (a + c) (a + b))
         + cell_term np_log b (expected (a + c + (b + d)) (a + c) (c + d))
         + cell_term np_log c (expected (a + c + (b + d)) (b + d) (a + b))
         + cell_term np_log d (expected (a + c + (b + d)) (b + d) (c + d))).
Proof.
  unfold G_squared, cell_term, expected.
  destruct (Rgtb a 0), (Rgtb b 0), (Rgtb c 0), (Rgtb d 0);
    cbn [app fold_left]; ring.
Qed.

(** C7.  The statistic is twice the sum of the four cell terms; the term of
    a cell whose observed count is zero is 0, whatever its expected count;
    the term of a cell whose observed count is positive is the count times
    the logarithm of (count + epsilon) / (expected + epsilon), so epsilon
    occurs only inside logarithms of cells with a positive count. *)
Theorem G_squared_zero_cells_omitted (a b c d : R) :
  let total := a + c + (b + d) in
  G_squared np_log a b c d
  = 2 * (cell_term np_log a (expected total (a + c) (a + b))
         + cell_term np_log b (expected total (a + c) (c + d))
         + cell_term np_log c (expected total (b + d) (a + b))
         + cell_term np_log d (expected total (b + d) (c + d)))
  /\ (forall E, cell_term np_log 0 E = 0)
  /\ (forall x E, x > 0 ->
        cell_term np_log x E = x * np_log ((x + epsilon) / (E + epsilon))).
Proof.
  intros total. split; [|split].
  - apply G_squared_as_cell_terms.
  - intros E. unfold cell_term. rewrite Rgtb_false by lra. reflexivity.
  - intros x E Hx. unfold cell_term. now rewrite Rgtb_true.
Qed.

(** **** Attribution *)

Lemma counts_get_le forms form : (counts_get forms form <= length forms)%nat.
Proof. unfold counts_get. apply filter_length_le. Qed.

Lemma relative_frequency_quotient forms form :
  relative_frequency forms form
  = INR (counts_get forms form) / INR (length forms).
Proof.
  unfold relative_frequency.
  destruct (length forms) as [|n] eqn:E; [|reflexivity].
  pose proof (counts_get_le forms form) as H. rewrite E in H.
  replace (counts_get forms form) with 0%nat by lia.
  simpl. unfold Rdiv. ring.
Qed.

Lemma score_form_keys corpus_a corpus_b forms_a forms_b llr_scores form e :
  In e (score_form np_log corpus_a corpus_b forms_a forms_b llr_scores form) ->
  In e llr_scores
  \/ (fst (fst e) = form /\ frequencies_differ forms_a forms_b form).
Proof.
  unfold score_form, frequencies_differ.
  fold (relative_frequency forms_a form) (relative_frequency forms_b form).
  destruct (Reqb _ 0); [now left|].
  destruct (Rgtb (relative_frequency forms_a form)
              (relative_frequency forms_b form)) eqn:Ea.
  - intros H. apply dict_set_In in H. destruct H as [->|H]; [|now left].
    right. split; [reflexivity|]. apply Rgtb_spec in Ea. lra.
  - destruct (Rgtb (relative_frequency forms_b form)
                (relative_frequency forms_a form)) eqn:Eb; [|now left].
    intros H. apply dict_set_In in H. destruct H as [->|H]; [|now left].
    right. split; [reflexivity|]. apply Rgtb_spec in Eb. lra.
Qed.

Lemma llr_scores_keys corpus_a corpus_b df e :
  In e (llr_scores_of np_log str_lower set_order corpus_a corpus_b df) ->
  frequencies_differ (forms_of str_lower df corpus_a)
    (forms_of str_lower df corpus_b) (fst (fst e)).
Proof.
  unfold llr_scores_of.
  set (forms_a := forms_of str_lower df corpus_a).
  set (forms_b := forms_of str_lower df corpus_b).
  generalize (set_order (unique (unique forms_a ++ unique forms_b))).
  intros all_forms.
  assert (G : forall acc,
            (forall e', In e' acc ->
                        frequencies_differ forms_a forms_b (fst (fst e'))) ->
            In e (fold_left (score_form np_log corpus_a corpus_b
                               forms_a forms_b) all_forms acc) ->
            frequencies_differ forms_a forms_b (fst (fst e))).
  { induction all_forms as [|form rest IH]; intros acc Hacc; simpl.
    - apply Hacc.
    - apply IH. intros e' He'. apply score_form_keys in He'.
      destruct He' as [He'|[-> He']]; [now apply Hacc | exact He']. }
  apply G. intros e' [].
Qed.

Lemma top5_scored llr_scores c form :
  In form (map fst (top5 llr_scores c)) ->
  exists e, In e llr_scores /\ fst (fst e) = form.
Proof.
  unfold top5. intros H. apply in_map_iff in H.
  destruct H as ([f s] & <- & H). apply firstn_incl in H.
  rewrite sort_scored_In in H. apply in_map_iff in H.
  destruct H as (e & E & H). apply filter_In in H.
  exists e. split; [tauto|]. now inversion E.
Qed.

(** C6.  In a table with exactly two corpus labels, a form whose relative
    frequency (count over corpus total) is the same in both corpora is given
    no score for either corpus, and appears in none of the lists that
    [compute_collostruction] returns. *)
Theorem equal_frequency_form_in_no_top5
  (df : list feature_row) (corpus_a corpus_b form : pystr) :
  unique (map corpus df) = [corpus_a; corpus_b] ->
  INR (counts_get (forms_of str_lower df corpus_a) form)
    / INR (length (forms_of str_lower df corpus_a))
  = INR (counts_get (forms_of str_lower df corpus_b) form)
    / INR (length (forms_of str_lower df corpus_b)) ->
  Forall (fun e => fst (fst e) <> form)
    (llr_scores_of np_log str_lower set_order corpus_a corpus_b df)
  /\ Forall (fun entry => ~ In form (map fst (snd entry)))
       (compute_collostruction np_log str_lower set_order df).
Proof.
  intros Hu Hf.
  assert (Hkeys : forall e,
            In e (llr_scores_of np_log str_lower set_order
                    corpus_a corpus_b df) ->
            fst (fst e) <> form).
  { intros e He <-. apply llr_scores_keys in He. apply He.
    now rewrite !relative_frequency_quotient. }
  split; [apply Forall_forall; exact Hkeys|].
  apply Forall_forall. intros [c top] Hin Hform.
  cbn [snd] in Hform.
  unfold compute_collostruction in Hin. rewrite Hu in Hin.
  cbn [fold_left] in Hin.
  assert (Htop : exists c', top = top5 (llr_scores_of np_log str_lower
                                          set_order corpus_a corpus_b df) c').
  { apply dict_set_In in Hin. destruct Hin as [[= _ ->]|Hin]; [eauto|].
    apply dict_set_In in Hin. destruct Hin as [[= _ ->]|Hin]; [eauto|].
    simpl in Hin.
    destruct Hin as [[= _ <-]|[[= _ <-]|[]]]; destruct Hform. }
  destruct Htop as [c' ->].
  apply top5_scored in Hform. destruct Hform as (e & He & E).
  exact (Hkeys e He E).
Qed.

End WithLog.

(** **** The statistic under an exchange of the corpora *)

Lemma textbook_G_squared_symmetric np_log a b c d :
  textbook_G_squared np_log a b c d = textbook_G_squared np_log c d a b.
Proof.
  unfold textbook_G_squared.
  rewrite (Rplus_comm c a), (Rplus_comm d b). ring.
Qed.

Lemma insert_scored_first x y l :
  snd y <= snd x -> insert_scored x (y :: l) = x :: y :: l.
Proof.
  intros H. simpl. destruct (Rle_dec (- snd x) (- snd y)); [reflexivity|lra].
Qed.

(** The branch of [score_form] taken by a form that is relatively more
    frequent in [corpus_a], and by one more frequent in [corpus_b]. *)
Lemma score_form_a np_log corpus_a corpus_b forms_a forms_b llr form a b c d :
  INR (counts_get forms_a form) = a ->
  INR (length forms_a) - a = b ->
  INR (counts_get forms_b form) = c ->
  INR (length forms_b) - c = d ->
  a + c <> 0 ->
  relative_frequency forms_a form > relative_frequency forms_b form ->
  score_form np_log corpus_a corpus_b forms_a forms_b llr form
  = dict_set key_eqb llr (form, corpus_a) (G_squared np_log a b c d).
Proof.
  intros Ha Hb Hc Hd Hne Hf. unfold score_form.
  fold (relative_frequency forms_a form) (relative_frequency forms_b form).
  rewrite Ha, Hc, Hb, Hd.
  rewrite (Reqb_false _ _ Hne), (Rgtb_true _ _ Hf). reflexivity.
Qed.

Lemma score_form_b np_log corpus_a corpus_b forms_a forms_b llr form a b c d :
  INR (counts_get forms_a form) = a ->
  INR (length forms_a) - a = b ->
  INR (counts_get forms_b form) = c ->
  INR (length forms_b) - c = d ->
  a + c <> 0 ->
  relative_frequency forms_b form > relative_frequency forms_a form ->
  score_form np_log corpus_a corpus_b forms_a forms_b llr form
  = dict_set key_eqb llr (form, corpus_b) (G_squared np_log a b c d).
Proof.
  intros Ha Hb Hc Hd Hne Hf. unfold score_form.
  fold (relative_frequency forms_a form) (relative_frequency forms_b form).
  rewrite Ha, Hc, Hb, Hd.
  rewrite (Reqb_false _ _ Hne), (Rgtb_false _ _ (Rlt_le _ _ Hf)),
    (Rgtb_true _ _ Hf).
  reflexivity.
Qed.

Lemma score_form_tie np_log corpus_a corpus_b forms_a forms_b llr form :
  relative_frequency forms_a form = relative_frequency forms_b form ->
  score_form np_log corpus_a corpus_b forms_a forms_b llr form = llr.
Proof.
  intros Hf. unfold score_form.
  fold (relative_frequency forms_a form) (relative_frequency forms_b form).
  destruct (Reqb _ 0); [reflexivity|].
  rewrite !Rgtb_false by lra. reflexivity.
Qed.

Ltac cells := unfold relative_frequency; simpl; lra.

Lemma llr_scores_gum_first :
  llr_scores_of ln keep_case in_list_order gum ewt df_gum_first
  = [((eat, gum), G_squared ln 1 1 0 1); ((run, gum), G_squared ln 1 1 0 1);
     ((walk, ewt), G_squared ln 0 2 1 0)].
Proof.
  unfold llr_scores_of.
  change (forms_of keep_case df_gum_first gum) with [eat; run].
  change (forms_of keep_case df_gum_first ewt) with [walk].
  change (in_list_order (unique (unique [eat; run] ++ unique [walk])))
    with [eat; run; walk].
  cbn [fold_left].
  rewrite (score_form_a ln gum ewt [eat; run] [walk] [] eat 1 1 0 1)
    by cells.
  rewrite (score_form_a ln gum ewt [eat; run] [walk] _ run 1 1 0 1)
    by cells.
  rewrite (score_form_b ln gum ewt [eat; run] [walk] _ walk 0 2 1 0)
    by cells.
  reflexivity.
Qed.

Lemma llr_scores_ewt_first :
  llr_scores_of ln keep_case in_list_order ewt gum df_ewt_first
  = [((walk, ewt), G_squared ln 1 0 0 2); ((eat, gum), G_squared ln 0 1 1 1);
     ((run, gum), G_squared ln 0 1 1 1)].
Proof.
  unfold llr_scores_of.
  change (forms_of keep_case df_ewt_first ewt) with [walk].
  change (forms_of keep_case df_ewt_first gum) with [eat; run].
  change (in_list_order (unique (unique [walk] ++ unique [eat; run])))
    with [walk; eat; run].
  cbn [fold_left].
  rewrite (score_form_a ln ewt gum [walk] [eat; run] [] walk 1 0 0 2)
    by cells.
  rewrite (score_form_b ln ewt gum [walk] [eat; run] _ eat 0 1 1 1)
    by cells.
  rewrite (score_form_b ln ewt gum [walk] [eat; run] _ run 0 1 1 1)
    by cells.
  reflexivity.
Qed.

Ltac decide_cells :=
  repeat match goal with
    | |- context [Rgtb ?x ?y] =>
        first [rewrite (Rgtb_true x y) by lra
              | rewrite (Rgtb_false x y) by lra]
    end.

Lemma G_squared_1_1_0_1 :
  G_squared ln 1 1 0 1
  = 2 * (ln ((1 + epsilon) / (2 / 3 + epsilon))
         + ln ((1 + epsilon) / (1 / 3 + epsilon))
         + ln ((1 + epsilon) / (2 / 3 + epsilon))).
Proof.
  rewrite G_squared_as_cell_terms. unfold cell_term, expected.
  decide_cells.
  replace ((1 + 0) * (1 + 1) / (1 + 0 + (1 + 1))) with (2 / 3) by field.
  replace ((1 + 0) * (0 + 1) / (1 + 0 + (1 + 1))) with (1 / 3) by field.
  replace ((1 + 1) * (0 + 1) / (1 + 0 + (1 + 1))) with (2 / 3) by field.
  ring.
Qed.

Lemma G_squared_0_1_1_1 :
  G_squared ln 0 1 1 1
  = 2 * (ln ((1 + epsilon) / (2 / 3 + epsilon))
         + ln ((1 + epsilon) / (2 / 3 + epsilon))
         + ln ((1 + epsilon) / (4 / 3 + epsilon))).
Proof.
  rewrite G_squared_as_cell_terms. unfold cell_term, expected.
  decide_cells.
  replace ((0 + 1) * (1 + 1) / (0 + 1 + (1 + 1))) with (2 / 3) by field.
  replace ((1 + 1) * (0 + 1) / (0 + 1 + (1 + 1))) with (2 / 3) by field.
  replace ((1 + 1) * (1 + 1) / (0 + 1 + (1 + 1))) with (4 / 3) by field.
  ring.
Qed.

Lemma G_squared_differs : G_squared ln 0 1 1 1 < G_squared ln 1 1 0 1.
Proof.
  rewrite G_squared_1_1_0_1, G_squared_0_1_1_1.
  pose proof epsilon_pos as He.
  assert (H : ln ((1 + epsilon) / (4 / 3 + epsilon))
              < ln ((1 + epsilon) / (1 / 3 + epsilon))).
  { apply ln_increasing.
    - apply Rdiv_lt_0_compat; lra.
    - unfold Rdiv. apply Rmult_lt_compat_l; [lra|].
      apply Rinv_lt_contravar; [|lra].
      apply Rmult_lt_0_compat; lra. }
  lra.
Qed.

(** X24.  The score of a form depends on which corpus comes first in the
    table.  The same three instances, listed with GUM first and with EWT
    first: the two calls attribute every form to the same corpus, but the
    score of "eat" and of "run" is not the same in the two results, while
    the statistic with the expected counts of its cells [b] and [c] paired
    the other way is. *)
Theorem collostruction_score_depends_on_corpus_order :
  compute_collostruction ln keep_case in_list_order df_gum_first
  = [(gum, [(eat, G_squared ln 1 1 0 1); (run, G_squared ln 1 1 0 1)]);
     (ewt, [(walk, G_squared ln 0 2 1 0)])]
  /\ compute_collostruction ln keep_case in_list_order df_ewt_first
     = [(gum, [(eat, G_squared ln 0 1 1 1); (run, G_squared ln 0 1 1 1)]);
        (ewt, [(walk, G_squared ln 1 0 0 2)])]
  /\ G_squared ln 1 1 0 1 <> G_squared ln 0 1 1 1
  /\ textbook_G_squared ln 1 1 0 1 = textbook_G_squared ln 0 1 1 1.
Proof.
  split; [|split; [|split]].
  - unfold compute_collostruction.
    change (unique (map corpus df_gum_first)) with [gum; ewt].
    cbv beta iota zeta. rewrite llr_scores_gum_first. cbn [fold_left].
    assert (Tg : top5 [((eat, gum), G_squared ln 1 1 0 1);
                       ((run, gum), G_squared ln 1 1 0 1);
                       ((walk, ewt), G_squared ln 0 2 1 0)] gum
                 = [(eat, G_squared ln 1 1 0 1); (run, G_squared ln 1 1 0 1)]).
    { unfold top5.
      change (map _ (filter _ _))
        with [(eat, G_squared ln 1 1 0 1); (run, G_squared ln 1 1 0 1)].
      unfold sort_scored. cbn [fold_right].
      change (insert_scored ?x []) with [x].
      rewrite insert_scored_first by (simpl; lra). reflexivity. }
    assert (Te : top5 [((eat, gum), G_squared ln 1 1 0 1);
                       ((run, gum), G_squared ln 1 1 0 1);
                       ((walk, ewt), G_squared ln 0 2 1 0)] ewt
                 = [(walk, G_squared ln 0 2 1 0)]).
    { reflexivity. }
    rewrite Tg, Te. reflexivity.
  - unfold compute_collostruction.
    change (unique (map corpus df_ewt_first)) with [ewt; gum].
    cbv beta iota zeta. rewrite llr_scores_ewt_first. cbn [fold_left].
    assert (Tg : top5 [((walk, ewt), G_squared ln 1 0 0 2);
                       ((eat, gum), G_squared ln 0 1 1 1);
                       ((run, gum), G_squared ln 0 1 1 1)] gum
                 = [(eat, G_squared ln 0 1 1 1); (run, G_squared ln 0 1 1 1)]).
    { unfold top5.
      change (map _ (filter _ _))
        with [(eat, G_squared ln 0 1 1 1); (run, G_squared ln 0 1 1 1)].
      unfold sort_scored. cbn [fold_right].
      change (insert_scored ?x []) with [x].
      rewrite insert_scored_first by (simpl; lra). reflexivity. }
    assert (Te : top5 [((walk, ewt), G_squared ln 1 0 0 2);
                       ((eat, gum), G_squared ln 0 1 1 1);
                       ((run, gum), G_squared ln 0 1 1 1)] ewt
                 = [(walk, G_squared ln 1 0 0 2)]).
    { reflexivity. }
    rewrite Tg, Te. reflexivity.
  - pose proof G_squared_differs. lra.
  - apply textbook_G_squared_symmetric.
Qed.

Example compute_collostruction_shared_form :
  compute_collostruction ln keep_case in_list_order df_shared_form
  = [(gum, [(run, G_squared ln 1 1 0 2)]);
     (ewt, [(walk, G_squared ln 0 2 1 1)])].
Proof.
  unfold compute_collostruction.
  change (unique (map corpus df_shared_form)) with [gum; ewt].
  cbv beta iota zeta.
  assert (E : llr_scores_of ln keep_case in_list_order gum ewt df_shared_form
              = [((run, gum), G_squared ln 1 1 0 2);
                 ((walk, ewt), G_squared ln 0 2 1 1)]).
  { unfold llr_scores_of.
    change (forms_of keep_case df_shared_form gum) with [eat; run].
    change (forms_of keep_case df_shared_form ewt) with [eat; walk].
    change (in_list_order (unique (unique [eat; run] ++ unique [eat; walk])))
      with [eat; run; walk].
    cbn [fold_left].
    rewrite (score_form_tie ln gum ewt [eat; run] [eat; walk] [] eat)
      by reflexivity.
    rewrite (score_form_a ln gum ewt [eat; run] [eat; walk] _ run 1 1 0 2)
      by cells.
    rewrite (score_form_b ln gum ewt [eat; run] [eat; walk] _ walk 0 2 1 1)
      by cells.
    reflexivity. }
  rewrite E. reflexivity.
Qed.

Lemma equal_frequency_form_in_no_top5_witness :
  Forall (fun e => fst (fst e) <> eat)
    (llr_scores_of ln keep_case in_list_order gum ewt df_shared_form)
  /\ Forall (fun entry => ~ In eat (map fst (snd entry)))
       (compute_collostruction ln keep_case in_list_order df_shared_form).
Proof.
  apply (equal_frequency_form_in_no_top5 ln keep_case in_list_order
           df_shared_form gum ewt eat).
  - reflexivity.
  - reflexivity.
Defined.

Lemma G_squared_zero_cells_omitted_witness :
  G_squared ln 1 1 0 1
  = 2 * (cell_term ln 1 (expected (1 + 0 + (1 + 1)) (1 + 0) (1 + 1))
         + cell_term ln 1 (expected (1 + 0 + (1 + 1)) (1 + 0) (0 + 1))
         + cell_term ln 0 (expected (1 + 0 + (1 + 1)) (1 + 1) (1 + 1))
         + cell_term ln 1 (expected (1 + 0 + (1 + 1)) (1 + 1) (0 + 1)))
  /\ cell_term ln 0 (expected (1 + 0 + (1 + 1)) (1 + 1) (1 + 1)) = 0
  /\ cell_term ln 1 (2 / 3) = 1 * ln ((1 + epsilon) / (2 / 3 + epsilon)).
Proof.
  destruct (G_squared_zero_cells_omitted ln 1 1 0 1) as (H1 & H2 & H3).
  split; [exact H1|]. split; [apply H2|]. apply H3. lra.
Defined.

End LetAloneProofs.

(** ** Inventory selection: order of the output, repeated selection, and
    independence of the input order *)

Module InventoryMore.
Import Inventory InventoryProofs.

Local Open Scope Z_scope.

Lemma groupby_head1_incl seen l r : In r (groupby_head1 seen l) -> In r l.
Proof.
  revert seen; induction l as [|x l IH]; simpl; intros seen; [tauto|].
  destruct (existsb (str_eqb (Glottocode x)) seen).
  - intros H. right. eapply IH, H.
  - intros [<-|H]; [now left | right; eapply IH, H].
Qed.

Lemma groupby_head1_sorted (R : size_row -> size_row -> Prop) seen l :
  StronglySorted R l -> StronglySorted R (groupby_head1 seen l).
Proof.
  intros H. revert seen. induction H as [|x l Hs IH Hx]; intros seen; simpl.
  - constructor.
  - destruct (existsb (str_eqb (Glottocode x)) seen); [apply IH|].
    constructor; [apply IH|].
    rewrite Forall_forall in *. intros r Hr.
    apply Hx. eapply groupby_head1_incl, Hr.
Qed.

Lemma sorted_distinct_languages l :
  StronglySorted key_le_prop l ->
  NoDup (map Glottocode l) ->
  StronglySorted
    (fun r1 r2 => str_compare (Glottocode r1) (Glottocode r2) = Lt) l.
Proof.
  induction 1 as [|x l Hs IH Hx]; intros Hn; [constructor|].
  simpl in Hn. inversion Hn as [|? ? Hnx Hnl]; subst.
  constructor; [now apply IH|].
  rewrite Forall_forall in *. intros r Hr.
  specialize (Hx r Hr). unfold key_le_prop in Hx.
  apply key_le_spec in Hx. destruct Hx as [Hx|[Hx _]]; [exact Hx|].
  exfalso. apply Hnx. rewrite Hx. now apply in_map.
Qed.

Lemma selected_ascending (sizes : list size_row) :
  StronglySorted
    (fun r1 r2 => str_compare (Glottocode r1) (Glottocode r2) = Lt)
    (groupby_head1 [] (sort_values sizes)).
Proof.
  apply sorted_distinct_languages.
  - apply groupby_head1_sorted, sort_values_sorted.
  - apply groupby_head1_NoDup.
Qed.

(** X1.  The table returned by [select_largest_inventory] is in strictly
    ascending order of Glottocode. *)
Theorem select_largest_inventory_ascending (sizes : list size_row) :
  StronglySorted
    (fun r1 r2 => str_compare (Glottocode r1) (Glottocode r2) = Lt)
    (select_largest_inventory sizes).
Proof.
  unfold select_largest_inventory.
  apply selected_ascending.
Qed.

Lemma sort_values_of_sorted l :
  StronglySorted key_le_prop l -> sort_values l = l.
Proof.
  induction 1 as [|x l Hs IH Hx]; simpl; [reflexivity|].
  rewrite IH. destruct l as [|y l]; [reflexivity|].
  simpl. inversion Hx as [|? ? Hxy _]; subst.
  unfold key_le_prop in Hxy. now rewrite Hxy.
Qed.

Lemma groupby_head1_of_distinct seen l :
  NoDup (map Glottocode l) ->
  (forall r, In r l -> ~ In (Glottocode r) seen) ->
  groupby_head1 seen l = l.
Proof.
  revert seen; induction l as [|x l IH]; intros seen Hn Hs; simpl;
    [reflexivity|].
  simpl in Hn. inversion Hn as [|? ? Hnx Hnl]; subst.
  destruct (existsb (str_eqb (Glottocode x)) seen) eqn:E.
  - apply existsb_seen in E. exfalso. apply (Hs x); [now left | exact E].
  - f_equal. apply IH; [exact Hnl|].
    intros r Hr [Hg|Hin].
    + apply Hnx. rewrite Hg. now apply in_map.
    + apply (Hs r); [now right | exact Hin].
Qed.

Lemma ascending_is_sorted l :
  StronglySorted
    (fun r1 r2 => str_compare (Glottocode r1) (Glottocode r2) = Lt) l ->
  StronglySorted key_le_prop l.
Proof.
  induction 1 as [|x l Hs IH Hx]; constructor; [exact IH|].
  rewrite Forall_forall in *. intros r Hr.
  unfold key_le_prop. apply key_le_spec. left. now apply Hx.
Qed.

(** X2.  Selecting from an already selected table changes nothing. *)
Theorem select_largest_inventory_idempotent (sizes : list size_row) :
  select_largest_inventory (select_largest_inventory sizes)
  = select_largest_inventory sizes.
Proof.
  pose proof (selected_ascending sizes) as Ha.
  fold (select_largest_inventory sizes) in Ha.
  set (out := select_largest_inventory sizes) in *.
  unfold select_largest_inventory at 1.
  rewrite sort_values_of_sorted by now apply ascending_is_sorted.
  apply groupby_head1_of_distinct; [|intros r _ []].
  unfold out, select_largest_inventory. apply groupby_head1_NoDup.
Qed.

(** X3.  The counts selected for a language do not depend on the order of the
    input rows: two tables with the same rows select, for every language,
    rows with the same total and the same vowel count. *)
Theorem select_largest_inventory_counts_order_independent
  (sizes sizes' : list size_row) (r : size_row) :
  Permutation.Permutation sizes sizes' ->
  In r (select_largest_inventory sizes) ->
  exists r',
    In r' (select_largest_inventory sizes')
    /\ Glottocode r' = Glottocode r
    /\ total_inventory_size r' = total_inventory_size r
    /\ vowel_inventory_size r' = vowel_inventory_size r.
Proof.
  intros Hp Hr.
  assert (Hall : forall t x y,
            In x (select_largest_inventory t) -> In y t ->
            Glottocode y = Glottocode x -> at_least_as_large x y).
  { intros t x y Hx Hy Hg. apply selected_is_best, best_split in Hx.
    destruct Hx as [_ (l1 & l2 & -> & H1 & H2)].
    apply in_app_or in Hy. destruct Hy as [Hy|[<-|Hy]].
    - specialize (H1 _ Hy Hg).
      unfold strictly_larger in H1. unfold at_least_as_large. lia.
    - unfold at_least_as_large. lia.
    - exact (H2 _ Hy Hg). }
  assert (Hsel : forall t x, In x (select_largest_inventory t) -> In x t).
  { intros t x Hx. apply selected_is_best, best_split in Hx.
    destruct Hx as [_ (l1 & l2 & -> & _)]. apply in_elt. }
  assert (Hin : In r sizes') by (eapply Permutation.Permutation_in; eauto).
  assert (Hc : In (Glottocode r)
                 (map Glottocode (select_largest_inventory sizes'))).
  { unfold select_largest_inventory.
    apply groupby_head1_complete; [now apply sort_values_In | intros []]. }
  apply in_map_iff in Hc. destruct Hc as (r' & Hg & Hr').
  exists r'. split; [exact Hr'|]. split; [exact Hg|].
  pose proof (Hall sizes' r' r Hr' Hin (eq_sym Hg)) as A.
  assert (Hin' : In r' sizes).
  { eapply Permutation.Permutation_in;
      [apply Permutation.Permutation_sym, Hp | apply Hsel, Hr']. }
  pose proof (Hall sizes r r' Hr Hin' Hg) as B.
  unfold at_least_as_large in A, B. lia.
Qed.

Lemma select_largest_inventory_counts_order_independent_witness :
  exists r',
    In r' (select_largest_inventory [L_large; L_small; M_only])
    /\ Glottocode r' = Glottocode L_large
    /\ total_inventory_size r' = total_inventory_size L_large
    /\ vowel_inventory_size r' = vowel_inventory_size L_large.
Proof.
  apply (select_largest_inventory_counts_order_independent
           example_sizes [L_large; L_small; M_only] L_large).
  - exact (Permutation.Permutation_rev example_sizes).
  - left. reflexivity.
Defined.

End InventoryMore.

(** ** Phoneme normalisation: shape of the output *)

Module NormalizeMore.
Import Normalize NormalizeProofs.

Lemma rstrip_last s t c : rstrip s = t ++ [c] -> isspace c = false.
Proof.
  unfold rstrip. intros H.
  assert (E : lstrip (rev s) = c :: rev t).
  { rewrite <- (rev_involutive (lstrip (rev s))), H, rev_app_distr.
    reflexivity. }
  eapply lstrip_head, E.
Qed.

Lemma strip_first s c t : strip s = c :: t -> isspace c = false.
Proof.
  unfold strip. destruct (lstrip s) as [|c0 z] eqn:E.
  - discriminate.
  - pose proof (lstrip_head _ E) as Hc.
    rewrite (rstrip_cons_nonspace c0 z Hc). now intros [= <- _].
Qed.

(** X4.  Whatever NFKC does, the string returned by
    [normalize_phoneme_strip_marks] holds none of the eleven stripped marks
    and neither starts nor ends with white space; a null input gives the
    empty string. *)
Theorem normalize_output_shape (NFKC : pystr -> pystr) (s : option pystr) :
  let out := normalize_phoneme_strip_marks NFKC s in
  Forall (fun c => ~ In c stripped_marks) out
  /\ (forall c t, out = c :: t -> isspace c = false)
  /\ (forall t c, out = t ++ [c] -> isspace c = false)
  /\ normalize_phoneme_strip_marks NFKC None = [].
Proof.
  intros out. split; [|split; [|split]].
  - destruct s as [s|]; [|constructor].
    unfold out. simpl.
    assert (H : Forall (fun c => is_stripped_mark c = false)
                  (strip (re_sub_marks (NFKC s))))
      by apply strip_Forall, re_sub_marks_Forall.
    rewrite Forall_forall in *. intros c Hc Hin.
    specialize (H c Hc). unfold is_stripped_mark in H.
    assert (E : existsb (N.eqb c) stripped_marks = true).
    { apply existsb_exists. exists c. split; [exact Hin|apply N.eqb_refl]. }
    congruence.
  - intros c t H. destruct s as [s|]; [|discriminate].
    unfold out in H. simpl in H. eapply strip_first, H.
  - intros t c H. destruct s as [s|].
    + unfold out in H. simpl in H. unfold strip in H. eapply rstrip_last, H.
    + unfold out in H. simpl in H. destruct t; discriminate.
  - reflexivity.
Qed.

Lemma normalize_output_shape_witness :
  normalize_phoneme_strip_marks NFKC_a_ring
    (Some ([0x20; 0x61; 0x02D0; 0x0301; 0x09])%N) = [0x61%N]
  /\ Forall (fun c => ~ In c stripped_marks)
       (normalize_phoneme_strip_marks NFKC_a_ring
          (Some ([0x20; 0x61; 0x02D0; 0x0301; 0x09])%N)).
Proof.
  split; [reflexivity|].
  exact (proj1 (normalize_output_shape NFKC_a_ring
                  (Some ([0x20; 0x61; 0x02D0; 0x0301; 0x09])%N))).
Defined.

End NormalizeMore.

(** ** Design matrix, prediction grid, degenerate cross-validation *)

Module ModelMore.
Import Model ModelProofs.

Local Open Scope Q_scope.

(** *** Categories *)

Lemma insert_str_In x y l : In x (insert_str y l) <-> x = y \/ In x l.
Proof.
  induction l as [|z l IH]; simpl.
  - intuition.
  - destruct (str_compare y z) eqn:E; simpl.
    + apply str_compare_eq_iff in E. subst. intuition.
    + intuition.
    + rewrite IH. intuition.
Qed.

Lemma categories_In x l : In x (categories l) <-> In x l.
Proof.
  induction l as [|y l IH]; simpl; [tauto|].
  rewrite insert_str_In, IH. intuition.
Qed.

Lemma insert_str_sorted y l :
  StronglySorted str_lt l -> StronglySorted str_lt (insert_str y l).
Proof.
  induction 1 as [|z l Hs IH Hz]; simpl.
  - constructor; constructor.
  - destruct (str_compare y z) eqn:E.
    + constructor; assumption.
    + constructor; [constructor; assumption|].
      constructor; [exact E|].
      rewrite Forall_forall in *. intros w Hw.
      eapply str_compare_lt_trans; [exact E | apply Hz, Hw].
    + constructor; [exact IH|].
      rewrite Forall_forall in *. intros w Hw.
      apply insert_str_In in Hw. destruct Hw as [->|Hw]; [|apply Hz, Hw].
      unfold str_lt. rewrite str_compare_antisym, E. reflexivity.
Qed.

Lemma categories_sorted l : StronglySorted str_lt (categories l).
Proof.
  induction l; simpl; [constructor | now apply insert_str_sorted].
Qed.

Lemma str_lt_irrefl s : ~ str_lt s s.
Proof.
  unfold str_lt. intros H.
  assert (E : str_compare s s = Eq) by now apply str_compare_eq_iff.
  congruence.
Qed.

Lemma sorted_NoDup l : StronglySorted str_lt l -> NoDup l.
Proof.
  induction 1 as [|x l Hs IH Hx]; constructor; [|exact IH].
  intros Hin. rewrite Forall_forall in Hx.
  exact (str_lt_irrefl x (Hx x Hin)).
Qed.

Lemma categories_NoDup l : NoDup (categories l).
Proof. apply sorted_NoDup, categories_sorted. Qed.

Lemma categories_length_incl l1 l2 :
  incl l1 l2 -> (length (categories l1) <= length (categories l2))%nat.
Proof.
  intros H. apply NoDup_incl_length; [apply categories_NoDup|].
  intros x Hx. apply categories_In. apply H. now apply categories_In.
Qed.

Lemma categories_length_le l : (length (categories l) <= length l)%nat.
Proof.
  apply NoDup_incl_length; [apply categories_NoDup|].
  intros x Hx. now apply categories_In.
Qed.

(** *** One indicator per row *)

Lemma indicators_absent family cols :
  ~ In family cols ->
  map (indicator family) cols = repeat 0 (length cols).
Proof.
  induction cols as [|f cols IH]; simpl; intros H; [reflexivity|].
  unfold indicator at 1.
  destruct (str_eqb family f) eqn:E.
  - apply str_eqb_eq in E. subst. tauto.
  - f_equal. apply IH. tauto.
Qed.

Lemma indicators_present family cols :
  NoDup cols -> In family cols ->
  exists i,
    nth_error cols i = Some family
    /\ map (indicator family) cols
       = repeat 0 i ++ 1 :: repeat 0 (length cols - i - 1).
Proof.
  induction 1 as [|f cols Hf Hn IH]; intros Hin; [destruct Hin|].
  simpl. unfold indicator at 1.
  destruct (str_eqb family f) eqn:E.
  - apply str_eqb_eq in E. subst f. exists 0%nat. split; [reflexivity|].
    simpl. rewrite Nat.sub_0_r. f_equal. now apply indicators_absent.
  - apply str_eqb_neq in E.
    destruct Hin as [->|Hin]; [congruence|].
    destruct (IH Hin) as (i & Hi & Hm). exists (S i).
    split; [exact Hi|]. simpl. now rewrite Hm.
Qed.

Lemma dummy_columns_split data :
  categories (map family_name data)
  = match reference_family data with
    | Some f => f :: dummy_columns data
    | None => []
    end.
Proof.
  unfold reference_family, dummy_columns.
  destruct (categories (map family_name data)); reflexivity.
Qed.

(** X5.  Every row of the design matrix starts with the centred vowel size and
    continues with one indicator per dummy column: all zero for a row of the
    reference family, and otherwise zero but for a single one, in the column
    of the row's family. *)
Theorem design_matrix_one_indicator (data : list data_row) (r : data_row) :
  In r data ->
  exists indicators,
    design_row (dummy_columns data) r = vowel_inv_c r :: indicators
    /\ length indicators = length (dummy_columns data)
    /\ (reference_family data = Some (family_name r) ->
        indicators = repeat 0 (length (dummy_columns data)))
    /\ (reference_family data <> Some (family_name r) ->
        exists i,
          nth_error (dummy_columns data) i = Some (family_name r)
          /\ indicators
             = repeat 0 i
               ++ 1 :: repeat 0 (length (dummy_columns data) - i - 1)).
Proof.
  intros Hr. unfold design_row.
  change (fun f : pystr => if str_eqb (family_name r) f then 1 else 0)
    with (indicator (family_name r)).
  exists (map (indicator (family_name r)) (dummy_columns data)).
  split; [reflexivity|]. split; [apply length_map|].
  pose proof (categories_NoDup (map family_name data)) as Hn.
  assert (Hin : In (family_name r) (categories (map family_name data))).
  { apply categories_In, in_map, Hr. }
  rewrite dummy_columns_split in Hn, Hin.
  destruct (reference_family data) as [f|]; [|destruct Hin].
  inversion Hn as [|? ? Hf Hn']; subst.
  split.
  - intros [= ->]. now apply indicators_absent.
  - intros Hne. apply indicators_present; [exact Hn'|].
    destruct Hin as [->|Hin]; [congruence | exact Hin].
Qed.

Lemma design_matrix_one_indicator_witness :
  In uralic_5 three_families
  /\ reference_family three_families = Some (family_name austronesian_5)
  /\ design_row (dummy_columns three_families) austronesian_5 = [-1; 0; 0]
  /\ exists indicators i,
       design_row (dummy_columns three_families) uralic_5
       = vowel_inv_c uralic_5 :: indicators
       /\ length indicators = 2%nat
       /\ nth_error (dummy_columns three_families) i
          = Some (family_name uralic_5)
       /\ indicators = repeat 0 i ++ 1 :: repeat 0 (2 - i - 1).
Proof.
  assert (Hu : In uralic_5 three_families) by (left; reflexivity).
  assert (Ha : In austronesian_5 three_families)
    by (right; left; reflexivity).
  split; [exact Hu|]. split; [reflexivity|]. split.
  - destruct (design_matrix_one_indicator three_families austronesian_5 Ha)
      as (ind & H1 & _ & H3 & _).
    rewrite H1, (H3 eq_refl). reflexivity.
  - destruct (design_matrix_one_indicator three_families uralic_5 Hu)
      as (ind & H1 & H2 & _ & H4).
    destruct H4 as (i & Hi & Hind).
    { intros E. vm_compute in E. discriminate E. }
    exists ind, i. split; [exact H1|]. split; [exact H2|].
    split; [exact Hi | exact Hind].
Defined.

Example design_matrix_family_rows :
  dummy_columns family_rows = [str_lit "Uralic"]
  /\ design_matrix family_rows = [[-1; 1]; [-1; 0]; [2; 1]].
Proof. split; reflexivity. Qed.

(** *** generate_predictions *)

Section WithModel.

Variable lr_model : Type.
Variable lbfgs_fit : list (list Q) -> list bool -> lr_model.
Variable predict1 : lr_model -> list Q -> Q.
Variable test_folds : nat -> Z -> list bool -> list nat.
Variable rng_state : Type.
Variable default_rng : Z -> rng_state.
Variable rng_integers : rng_state -> nat -> nat -> list nat * rng_state.

Lemma finite_row_filled data mean v :
  mean_vowel data = Finite mean ->
  finite_row (new_row data v) = Some (filled_row data (round53 (v - mean))).
Proof.
  intros E. unfold new_row, filled_row. rewrite E. cbn [float_sub].
  set (c := round53 (v - mean)). cbn [finite_row fold_right].
  fold (finite_row
          (map (fun f => if str_eqb f (str_lit "vowel_inv_c")
                         then Finite c else Finite 0)
             (dummy_columns data))).
  assert (F : finite_row
                (map (fun f => if str_eqb f (str_lit "vowel_inv_c")
                               then Finite c else Finite 0)
                   (dummy_columns data))
              = Some (map (fun f => if str_eqb f (str_lit "vowel_inv_c")
                                    then c else 0)
                        (dummy_columns data))).
  { induction (dummy_columns data) as [|f cols IH]; [reflexivity|].
    cbn [map finite_row fold_right].
    fold (finite_row
            (map (fun f => if str_eqb f (str_lit "vowel_inv_c")
                           then Finite c else Finite 0) cols)).
    rewrite IH. now destruct (str_eqb f (str_lit "vowel_inv_c")). }
  now rewrite F.
Qed.

Lemma finite_rows_new_design data mean vowel_range :
  mean_vowel data = Finite mean ->
  finite_rows (new_design data vowel_range)
  = Some (map (fun v => filled_row data (round53 (v - mean))) vowel_range).
Proof.
  intros E. unfold new_design.
  induction vowel_range as [|v vr IH]; [reflexivity|].
  cbn [map finite_rows fold_right].
  fold (finite_rows (map (new_row data) vr)).
  now rewrite (finite_row_filled data mean v E), IH.
Qed.

Lemma mean_vowel_finite data :
  data <> [] -> exists mean, mean_vowel data = Finite mean.
Proof. destruct data; [congruence|]. intros _. simpl. eauto. Qed.

Lemma filled_row_reference data c r :
  ~ In (str_lit "vowel_inv_c") (map family_name data) ->
  reference_family data = Some (family_name r) ->
  vowel_inv_c r = c ->
  filled_row data c = design_row (dummy_columns data) r.
Proof.
  intros Hname Href Hv. unfold filled_row, design_row. rewrite Hv. f_equal.
  change (fun f : pystr => if str_eqb (family_name r) f then 1 else 0)
    with (indicator (family_name r)).
  rewrite indicators_absent.
  - assert (Hcols : forall f, In f (dummy_columns data) ->
                      In f (map family_name data)).
    { intros f Hf. apply categories_In. unfold dummy_columns in Hf.
      destruct (categories (map family_name data)); [destruct Hf|].
      now right. }
    induction (dummy_columns data) as [|f cols IH]; [reflexivity|].
    simpl. rewrite IH by (intros g Hg; apply Hcols; now right).
    destruct (str_eqb f (str_lit "vowel_inv_c")) eqn:E; [|reflexivity].
    apply str_eqb_eq in E. subst f. exfalso. apply Hname, Hcols. now left.
  - pose proof (categories_NoDup (map family_name data)) as Hn.
    rewrite dummy_columns_split, Href in Hn.
    now inversion Hn.
Qed.

(** X6.  For an empty table or an empty grid [generate_predictions] raises
    ValueError.  Otherwise it returns one probability per grid value: the
    one at [v] is the model's prediction for the row that holds [v] minus the
    mean, computed in binary64, in its first column and in every indicator
    column of a family that is itself named 'vowel_inv_c', and 0 elsewhere.
    When no family has that name, this is the design row of a language of
    the reference family (the first category in sorted order) with that
    centred vowel size.  The argument [ref_family] is not used.  The model
    is one that takes rows with the columns of the design matrix of [data],
    as a model fitted on that matrix does. *)
Theorem generate_predictions_reference_family
  (model : lr_model) (data : list data_row) (vowel_range : list Q)
  (ref_family : pystr) :
  (data = [] \/ vowel_range = [] ->
   Dataset.generate_predictions predict1 model data vowel_range ref_family
   = Raise ValueError)
  /\ (data <> [] -> vowel_range <> [] ->
      exists mean preds,
        mean_vowel data = Finite mean
        /\ Dataset.generate_predictions predict1 model data vowel_range
             ref_family = Ok preds
        /\ length preds = length vowel_range
        /\ forall i v,
             nth_error vowel_range i = Some v ->
             nth_error preds i
             = Some (predict1 model
                       (filled_row data (round53 (v - mean))))
             /\ forall r,
                  ~ In (str_lit "vowel_inv_c") (map family_name data) ->
                  reference_family data = Some (family_name r) ->
                  vowel_inv_c r = round53 (v - mean) ->
                  nth_error preds i
                  = Some (predict1 model
                            (design_row (dummy_columns data) r))).
Proof.
  unfold Dataset.generate_predictions, predict_proba_new. split.
  - intros [->| ->].
    + destruct vowel_range as [|v vr]; reflexivity.
    + reflexivity.
  - intros Hd Hv. destruct (mean_vowel_finite data Hd) as [mean Em].
    rewrite (finite_rows_new_design data mean vowel_range Em).
    exists mean,
      (map (predict1 model)
         (map (fun v => filled_row data (round53 (v - mean))) vowel_range)).
    split; [exact Em|]. split.
    { unfold predict_proba1. destruct vowel_range; [congruence|].
      reflexivity. }
    split; [now rewrite !length_map|].
    intros i v Hi.
    assert (E : nth_error
                  (map (predict1 model)
                     (map (fun v => filled_row data (round53 (v - mean)))
                        vowel_range)) i
                = Some (predict1 model
                          (filled_row data (round53 (v - mean))))).
    { rewrite !nth_error_map, Hi. reflexivity. }
    split; [exact E|].
    intros r Hname Href Hc. rewrite E.
    now rewrite (filled_row_reference data _ r Hname Href Hc).
Qed.

(** *** fit_models *)

Lemma single_class_constant (col : data_row -> bool) data :
  single_class (map col data) = true <-> constant_column col data.
Proof.
  unfold single_class, constant_column. split.
  - intros H r r' Hr Hr'.
    destruct (col r) eqn:E, (col r') eqn:E'; try reflexivity; exfalso.
    + assert (A : existsb (fun b => b) (map col data) = true).
      { apply existsb_exists. exists true. split; [|reflexivity].
        rewrite <- E. now apply in_map. }
      assert (B : existsb negb (map col data) = true).
      { apply existsb_exists. exists false. split; [|reflexivity].
        rewrite <- E'. now apply in_map. }
      rewrite A, B in H. discriminate.
    + assert (A : existsb (fun b => b) (map col data) = true).
      { apply existsb_exists. exists true. split; [|reflexivity].
        rewrite <- E'. now apply in_map. }
      assert (B : existsb negb (map col data) = true).
      { apply existsb_exists. exists false. split; [|reflexivity].
        rewrite <- E. now apply in_map. }
      rewrite A, B in H. discriminate.
  - intros H.
    destruct (existsb (fun b => b) (map col data)) eqn:A; [|reflexivity].
    destruct (existsb negb (map col data)) eqn:B; [|reflexivity].
    exfalso. apply existsb_exists in A, B.
    destruct A as (b1 & H1 & ->). destruct B as (b2 & H2 & E2).
    destruct b2; [discriminate|].
    apply in_map_iff in H1, H2.
    destruct H1 as (r & E & Hr). destruct H2 as (r' & E' & Hr').
    specialize (H r r' Hr Hr'). congruence.
Qed.

(** X7.  [fit_models] raises ValueError exactly when /y/ or /i/ has the same
    value in every row of the table, and then returns neither model; it
    raises nothing else, and what it returns are the two fits on the one
    design matrix. *)
Theorem fit_models_outcome (data : list data_row) :
  (Dataset.fit_models lbfgs_fit data = Raise ValueError
   <-> constant_column y_present data \/ constant_column i_present data)
  /\ (forall e, Dataset.fit_models lbfgs_fit data = Raise e ->
                e = ValueError)
  /\ (forall models, Dataset.fit_models lbfgs_fit data = Ok models ->
        models = (lbfgs_fit (design_matrix data) (map y_present data),
                  lbfgs_fit (design_matrix data) (map i_present data))).
Proof.
  unfold Dataset.fit_models, LogisticRegression_fit.
  rewrite <- !single_class_constant.
  destruct (single_class (map y_present data)),
    (single_class (map i_present data)); cbn [bind];
    (split; [split; [intros H | intros [H|H]] | split; intros ? H]);
    auto; try discriminate; congruence.
Qed.

(** *** cross_validated_auc on a single-class table *)

Lemma cv_folds_single_class X y splits aucs :
  single_class y = true -> splits <> [] ->
  exists e, cv_folds lbfgs_fit predict1 X y splits aucs = Raise e.
Proof.
  intros Hc Hne. destruct splits as [|[train_idx test_idx] rest];
    [congruence|].
  simpl.
  destruct (take X train_idx) as [X_train|e]; simpl; [|eauto].
  destruct (take X test_idx) as [X_test|e]; simpl; [|eauto].
  destruct (take y train_idx) as [y_train|e] eqn:Ey; simpl; [|eauto].
  destruct (take y test_idx) as [y_test|e]; simpl; [|eauto].
  unfold LogisticRegression_fit.
  rewrite (single_class_sub y y_train); [simpl; eauto| |exact Hc].
  intros b Hb. eapply take_In; eauto.
Qed.

(** X8.  When [y_present] is the same in every row, [cross_validated_auc] raises
    and returns no value, whatever the solver and the fold assignment are:
    either the split is refused, or the first fold raises. *)
Theorem cross_validated_auc_constant_y_raises (data : list data_row) :
  single_class (map y_present data) = true ->
  exists e,
    cross_validated_auc lbfgs_fit predict1 test_folds data = Raise e.
Proof.
  intros Hc. unfold cross_validated_auc.
  destruct (StratifiedKFold_split test_folds 10 20250101
              (map y_present data)) as [splits|e] eqn:Es; simpl; [|eauto].
  assert (Hne : splits <> []).
  { unfold StratifiedKFold_split in Es.
    destruct (length (map y_present data) <? 10)%nat; [discriminate|].
    destruct (_ && _); [discriminate|].
    injection Es as <-. simpl. discriminate. }
  destruct (cv_folds_single_class (design_matrix data) (map y_present data)
              splits [] Hc Hne) as [e ->].
  simpl. eauto.
Qed.

(** *** Shape of the bootstrap band *)

Lemma finite_rows_length X Y :
  finite_rows X = Some Y -> length Y = length X.
Proof.
  revert Y; induction X as [|row X IH]; intros Y; cbn [finite_rows fold_right].
  - now intros [= <-].
  - fold (finite_rows X). destruct (finite_row row); [|discriminate].
    destruct (finite_rows X) as [Y'|]; [|discriminate].
    intros [= <-]. simpl. f_equal. now apply IH.
Qed.

Lemma predict_proba_new_length lr X_new preds :
  predict_proba_new predict1 lr X_new = Ok preds ->
  length preds = length X_new.
Proof.
  unfold predict_proba_new, predict_proba1.
  destruct (finite_rows X_new) as [X|] eqn:E; [|discriminate].
  apply finite_rows_length in E.
  destruct X; [discriminate|]. intros [= <-].
  rewrite <- E. simpl. now rewrite length_map.
Qed.

Lemma bootstrap_loop_curves n_boot rng X_full y_full X_new acc out :
  bootstrap_loop lbfgs_fit predict1 rng_integers n_boot rng
    X_full y_full X_new acc = Ok out ->
  (length out <= length acc + n_boot)%nat
  /\ (Forall (fun c => length c = length X_new) acc ->
      Forall (fun c => length c = length X_new) out).
Proof.
  revert rng acc; induction n_boot as [|n IH]; intros rng acc; simpl.
  - intros [= <-]. split; [lia | auto].
  - destruct (rng_integers rng (length y_full) (length y_full))
      as [idx rng'].
    destruct (take X_full idx) as [X_boot|]; simpl; [|discriminate].
    destruct (take y_full idx) as [y_boot|]; simpl; [|discriminate].
    destruct (single_class y_boot).
    + intros H. destruct (IH _ _ H) as [H1 H2]. split; [lia | exact H2].
    + unfold LogisticRegression_fit.
      destruct (single_class y_boot); simpl; [discriminate|].
      destruct (predict_proba_new predict1 (lbfgs_fit X_boot y_boot) X_new)
        as [preds|] eqn:Ep; simpl; [|discriminate].
      apply predict_proba_new_length in Ep.
      intros H. destruct (IH _ _ H) as [H1 H2].
      rewrite length_app in H1. simpl in H1. split; [lia|].
      intros Hacc. apply H2. apply Forall_app. split; [exact Hacc|].
      constructor; [exact Ep | constructor].
Qed.

Lemma mapM_length {A B} (f : A -> result B) l out :
  mapM f l = Ok out -> length out = length l.
Proof.
  revert out; induction l as [|a l IH]; simpl; intros out.
  - now intros [= <-].
  - destruct (f a); simpl; [|discriminate].
    destruct (mapM f l) as [bs|]; simpl; [|discriminate].
    intros [= <-]. simpl. f_equal. now apply IH.
Qed.

(** X9.  Whenever [bootstrap_prediction_intervals] returns, the three arrays have
    one entry per value of the grid; between one and [n_boot] curves were
    collected, and each of them has one value per grid value. *)
Theorem bootstrap_band_shape (data : list data_row) (vowel_range : list Q)
  (ref_family : pystr) (n_boot : nat)
  (mean_pred : list pyfloat) (lower upper : list Q) :
  bootstrap_prediction_intervals lbfgs_fit predict1 default_rng rng_integers
    data vowel_range ref_family n_boot = Ok (mean_pred, lower, upper) ->
  length mean_pred = length vowel_range
  /\ length lower = length vowel_range
  /\ length upper = length vowel_range
  /\ exists preds_list,
       bootstrap_loop lbfgs_fit predict1 rng_integers n_boot
         (default_rng 20250101) (design_matrix data) (map y_present data)
         (new_design data vowel_range) [] = Ok preds_list
       /\ (1 <= length preds_list <= n_boot)%nat
       /\ Forall (fun c => length c = length vowel_range) preds_list.
Proof.
  unfold bootstrap_prediction_intervals.
  destruct (bootstrap_loop _ _ _ _ _ _ _ _ _) as [preds_list|] eqn:El;
    cbn [bind]; [|discriminate].
  unfold percentile_band, percentile_axis0.
  destruct preds_list as [|c0 preds] eqn:Ep; [discriminate|].
  rewrite <- Ep in *.
  assert (Hnil : preds_list <> []) by (rewrite Ep; discriminate).
  replace (match preds_list with [] => Raise IndexError | _ :: _ =>
             mapM (fun i => percentile (5 # 2) (column i preds_list))
               (seq 0 (length vowel_range)) end)
    with (mapM (fun i => percentile (5 # 2) (column i preds_list))
            (seq 0 (length vowel_range)))
    by (rewrite Ep; reflexivity).
  replace (match preds_list with [] => Raise IndexError | _ :: _ =>
             mapM (fun i => percentile (195 # 2) (column i preds_list))
               (seq 0 (length vowel_range)) end)
    with (mapM (fun i => percentile (195 # 2) (column i preds_list))
            (seq 0 (length vowel_range)))
    by (rewrite Ep; reflexivity).
  destruct (mapM (fun i => percentile (5 # 2) (column i preds_list)) _)
    as [lo|] eqn:Elo; cbn [bind]; [|discriminate].
  destruct (mapM (fun i => percentile (195 # 2) (column i preds_list)) _)
    as [up|] eqn:Eup; cbn [bind]; [|discriminate].
  intros [= <- <- <-].
  apply mapM_length in Elo, Eup. rewrite length_seq in Elo, Eup.
  split; [unfold mean_axis0; now rewrite length_map, length_seq|].
  split; [exact Elo|]. split; [exact Eup|].
  exists preds_list. split; [reflexivity|].
  destruct (bootstrap_loop_curves _ _ _ _ _ _ _ El) as [H1 H2].
  split.
  - simpl in H1. split; [|exact H1].
    destruct preds_list; [congruence | simpl; lia].
  - assert (L : length (new_design data vowel_range) = length vowel_range)
      by (unfold new_design; apply length_map).
    rewrite <- L. apply H2. constructor.
Qed.

End WithModel.

Lemma generate_predictions_reference_family_witness :
  three_families <> [] /\ [5; 8] <> []
  /\ exists preds,
       Dataset.generate_predictions first_entry tt three_families [5; 8]
         (str_lit "Uralic") = Ok preds
       /\ length preds = 2%nat
       /\ nth_error preds 0
          = Some (first_entry tt
                    (design_row (dummy_columns three_families)
                       austronesian_5)).
Proof.
  assert (Hd : three_families <> []) by discriminate.
  assert (Hv : [5; 8] <> []) by discriminate.
  split; [exact Hd|]. split; [exact Hv|].
  destruct (generate_predictions_reference_family unit first_entry tt
              three_families [5; 8] (str_lit "Uralic"))
    as (_ & H).
  destruct (H Hd Hv) as (mean & preds & Em & E & L & Hgrid).
  assert (M : mean = 6) by (vm_compute in Em; congruence).
  subst mean. exists preds. split; [exact E|]. split; [exact L|].
  destruct (Hgrid 0%nat 5 eq_refl) as [_ Href].
  apply Href.
  - intros Hin. vm_compute in Hin. intuition discriminate.
  - reflexivity.
  - vm_compute. reflexivity.
Defined.

(** With a family that is itself named 'vowel_inv_c', the row of [X_new]
    holds the centred value in both columns of that name. *)
Example new_design_name_clash :
  dummy_columns clash_rows = [str_lit "vowel_inv_c"]
  /\ new_design clash_rows [8] = [[Finite 2; Finite 2]]
  /\ Dataset.generate_predictions first_entry tt [] [8] (str_lit "Uralic")
     = Raise ValueError.
Proof. split; [|split]; vm_compute; reflexivity. Qed.

Lemma cross_validated_auc_constant_y_raises_witness :
  exists e,
    cross_validated_auc half_fit half_predict folds_in_turn (table 12 0)
    = Raise e.
Proof.
  apply (cross_validated_auc_constant_y_raises unit half_fit half_predict
           folds_in_turn (table 12 0)).
  reflexivity.
Defined.

Lemma fit_models_outcome_witness :
  Dataset.fit_models half_fit family_rows = Raise ValueError.
Proof.
  apply (fit_models_outcome unit half_fit family_rows).
  right. intros r r' Hr Hr'.
  simpl in Hr, Hr'.
  destruct Hr as [<-|[<-|[<-|[]]]], Hr' as [<-|[<-|[<-|[]]]]; reflexivity.
Defined.

Lemma bootstrap_band_shape_witness :
  exists mean_pred lower upper,
    bootstrap_prediction_intervals half_fit half_predict unit_rng
      draw_each_row (table 20 10) [1; 2] (str_lit "fam") 3
    = Ok (mean_pred, lower, upper)
    /\ length mean_pred = 2%nat /\ length lower = 2%nat
    /\ length upper = 2%nat.
Proof.
  assert (E : { t | bootstrap_prediction_intervals half_fit half_predict
                      unit_rng draw_each_row (table 20 10) [1; 2]
                      (str_lit "fam") 3 = Ok t }).
  { eexists. vm_compute. reflexivity. }
  destruct E as [[[mean_pred lower] upper] E].
  destruct (bootstrap_band_shape unit half_fit half_predict unit
              unit_rng draw_each_row (table 20 10) [1; 2] (str_lit "fam") 3
              mean_pred lower upper E) as (H1 & H2 & H3 & _).
  exists mean_pred, lower, upper. auto.
Defined.

End ModelMore.

(** ** Inventory flags *)

Module FlagsProofs.
Import Dataset.

Local Open Scope Z_scope.

Lemma key_compare_eq_iff k1 k2 : key_compare k1 k2 = Eq <-> k1 = k2.
Proof.
  destruct k1 as [g1 i1], k2 as [g2 i2]. unfold key_compare. simpl.
  destruct (str_compare g1 g2) eqn:E.
  - apply str_compare_eq_iff in E. subst. rewrite Z.compare_eq_iff.
    split; congruence.
  - split; [discriminate|]. intros [= -> _].
    assert (str_compare g2 g2 = Eq) by now apply str_compare_eq_iff.
    congruence.
  - split; [discriminate|]. intros [= -> _].
    assert (str_compare g2 g2 = Eq) by now apply str_compare_eq_iff.
    congruence.
Qed.

Lemma key_compare_lt k1 k2 : key_compare k1 k2 = Lt <-> key_lt k1 k2.
Proof.
  destruct k1 as [g1 i1], k2 as [g2 i2]. unfold key_compare, key_lt. simpl.
  destruct (str_compare g1 g2) eqn:E.
  - apply str_compare_eq_iff in E. subst. rewrite Z.compare_lt_iff.
    assert (str_compare g2 g2 = Eq) by now apply str_compare_eq_iff.
    split; [auto|]. intros [H'|[_ H']]; [congruence | exact H'].
  - split; auto.
  - split; [discriminate|]. intros [H|[H _]]; [discriminate|]. subst.
    assert (str_compare g2 g2 = Eq) by now apply str_compare_eq_iff.
    congruence.
Qed.

Lemma key_compare_gt k1 k2 : key_compare k1 k2 = Gt -> key_lt k2 k1.
Proof.
  destruct k1 as [g1 i1], k2 as [g2 i2]. unfold key_compare, key_lt. simpl.
  rewrite (str_compare_antisym g1 g2).
  destruct (str_compare g1 g2) eqn:E; simpl.
  - apply str_compare_eq_iff in E. subst. rewrite Z.compare_gt_iff. auto.
  - discriminate.
  - auto.
Qed.

Lemma key_lt_trans k1 k2 k3 : key_lt k1 k2 -> key_lt k2 k3 -> key_lt k1 k3.
Proof.
  unfold key_lt. intros [H12|[E12 H12]] [H23|[E23 H23]].
  - left. eapply str_compare_lt_trans; eauto.
  - left. congruence.
  - left. congruence.
  - right. split; [congruence | lia].
Qed.

Lemma key_lt_irrefl k : ~ key_lt k k.
Proof.
  unfold key_lt. intros [H|[_ H]]; [|lia].
  assert (str_compare (fst k) (fst k) = Eq) by now apply str_compare_eq_iff.
  congruence.
Qed.

Lemma insert_key_In x y l : In x (insert_key y l) <-> x = y \/ In x l.
Proof.
  induction l as [|z l IH]; simpl.
  - intuition.
  - destruct (key_compare y z) eqn:E; simpl.
    + apply key_compare_eq_iff in E. subst. intuition.
    + intuition.
    + rewrite IH. intuition.
Qed.

Lemma insert_key_sorted y l :
  StronglySorted key_lt l -> StronglySorted key_lt (insert_key y l).
Proof.
  induction 1 as [|z l Hs IH Hz]; simpl.
  - constructor; constructor.
  - destruct (key_compare y z) eqn:E.
    + constructor; assumption.
    + apply key_compare_lt in E.
      constructor; [constructor; assumption|].
      constructor; [exact E|].
      rewrite Forall_forall in *. intros w Hw.
      eapply key_lt_trans; [exact E | apply Hz, Hw].
    + apply key_compare_gt in E.
      constructor; [exact IH|].
      rewrite Forall_forall in *. intros w Hw.
      apply insert_key_In in Hw. destruct Hw as [->|Hw]; [exact E|].
      apply Hz, Hw.
Qed.

Lemma group_keys_In k df :
  In k (group_keys df) <-> exists r, In r df /\ row_key r = Some k.
Proof.
  induction df as [|r df IH]; simpl.
  - split; [tauto | intros (r & [] & _)].
  - destruct (row_key r) as [k'|] eqn:E.
    + rewrite insert_key_In, IH. split.
      * intros [->|(r' & Hr' & Hk)]; [exists r; auto | exists r'; auto].
      * intros (r' & [<-|Hr'] & Hk); [left; congruence | right; eauto].
    + rewrite IH. split.
      * intros (r' & Hr' & Hk). eauto.
      * intros (r' & [<-|Hr'] & Hk); [congruence | eauto].
Qed.

Lemma group_keys_sorted df : StronglySorted key_lt (group_keys df).
Proof.
  induction df as [|r df IH]; simpl; [constructor|].
  destruct (row_key r); [now apply insert_key_sorted | exact IH].
Qed.

Lemma in_group_spec k r : in_group k r = true <-> row_key r = Some k.
Proof.
  unfold in_group. destruct (row_key r) as [[g i]|]; [|split; discriminate].
  destruct k as [g' i']. simpl.
  rewrite andb_true_iff, str_eqb_eq, Z.eqb_eq. split.
  - intros [-> ->]. reflexivity.
  - intros [= -> ->]. auto.
Qed.

Section WithNFKC.

Variable NFKC : pystr -> pystr.

Lemma flags_keys df :
  map size_key (compute_inventory_flags NFKC df) = group_keys df.
Proof.
  unfold compute_inventory_flags. rewrite map_map.
  rewrite <- (map_id (group_keys df)) at 2.
  apply map_ext. intros [g i]. reflexivity.
Qed.

(** X10.  [compute_inventory_flags] returns one row per inventory: the keys
    (Glottocode, InventoryID) of its rows are strictly ascending, and they
    are exactly the keys of the input rows that have a Glottocode. *)
Theorem compute_inventory_flags_keys (df : list phoible_row) :
  StronglySorted key_lt (map size_key (compute_inventory_flags NFKC df))
  /\ forall g i,
       In (g, i) (map size_key (compute_inventory_flags NFKC df))
       <-> exists r,
             In r df /\ ph_Glottocode r = Some g /\ ph_InventoryID r = i.
Proof.
  rewrite flags_keys. split; [apply group_keys_sorted|].
  intros g i. rewrite group_keys_In. split.
  - intros (r & Hr & Hk). exists r. split; [exact Hr|].
    unfold row_key in Hk. destruct (ph_Glottocode r); [|discriminate].
    injection Hk as -> ->. auto.
  - intros (r & Hr & Hg & Hi). exists r. split; [exact Hr|].
    unfold row_key. now rewrite Hg, Hi.
Qed.

(** X11.  In every row returned by [compute_inventory_flags] the vowel count is at
    most the total count, the total count is at least one and at most the
    number of input rows of the inventory, and the two presence flags are 0
    or 1. *)
Theorem compute_inventory_flags_counts (df : list phoible_row)
  (o : Inventory.size_row) :
  In o (compute_inventory_flags NFKC df) ->
  0 <= Inventory.vowel_inventory_size o <= Inventory.total_inventory_size o
  /\ 1 <= Inventory.total_inventory_size o
          <= Z.of_nat (length (filter (in_group (size_key o)) df))
  /\ (Inventory.y_present o = 0 \/ Inventory.y_present o = 1)
  /\ (Inventory.i_present o = 0 \/ Inventory.i_present o = 1).
Proof.
  unfold compute_inventory_flags. intros Ho.
  apply in_map_iff in Ho. destruct Ho as (k & <- & Hk).
  apply group_keys_In in Hk. destruct Hk as (r & Hr & Hk).
  assert (Ek : size_key (agg NFKC k (filter (in_group k) df)) = k)
    by (destruct k; reflexivity).
  rewrite Ek. set (group := filter (in_group k) df).
  assert (Hg : In r group).
  { unfold group. apply filter_In. split; [exact Hr|].
    now apply in_group_spec. }
  unfold agg. cbn [Inventory.vowel_inventory_size
                     Inventory.total_inventory_size
                     Inventory.y_present Inventory.i_present].
  unfold nunique. split; [|split; [|split]].
  - split; [lia|]. apply inj_le.
    apply ModelMore.categories_length_incl.
    intros x Hx. apply in_map_iff in Hx. destruct Hx as (r' & <- & Hr').
    apply in_map. apply filter_In in Hr'. tauto.
  - split.
    + assert (Hin : In (Phoneme_norm NFKC r)
                      (Model.categories (map (Phoneme_norm NFKC) group))).
      { apply ModelMore.categories_In, in_map, Hg. }
      destruct (Model.categories (map (Phoneme_norm NFKC) group));
        [destruct Hin | simpl length; lia].
    + apply inj_le.
      rewrite <- (length_map (Phoneme_norm NFKC) group).
      apply ModelMore.categories_length_le.
  - destruct (existsb _ group); simpl; auto.
  - destruct (existsb _ group); simpl; auto.
Qed.

Lemma largest_languages (phoible : list phoible_row) g :
  In g (map Inventory.Glottocode
          (Inventory.select_largest_inventory
             (compute_inventory_flags NFKC phoible)))
  <-> exists r, In r phoible /\ ph_Glottocode r = Some g.
Proof.
  split.
  - intros Hg. apply in_map_iff in Hg. destruct Hg as (o & <- & Ho).
    apply InventoryMore.groupby_head1_incl in Ho.
    apply -> InventoryProofs.sort_values_In in Ho.
    assert (Hk : In (size_key o) (group_keys phoible)).
    { rewrite <- flags_keys. now apply in_map. }
    apply group_keys_In in Hk. destruct Hk as (r & Hr & Hk).
    exists r. split; [exact Hr|].
    unfold row_key in Hk. destruct (ph_Glottocode r); [|discriminate].
    unfold size_key in Hk. congruence.
  - intros (r & Hr & Hg).
    assert (Hk : In (g, ph_InventoryID r) (group_keys phoible)).
    { apply group_keys_In. exists r. split; [exact Hr|].
      unfold row_key. now rewrite Hg. }
    rewrite <- flags_keys in Hk. apply in_map_iff in Hk.
    destruct Hk as (o & Eo & Ho).
    replace g with (Inventory.Glottocode o)
      by (unfold size_key in Eo; congruence).
    unfold Inventory.select_largest_inventory.
    apply InventoryProofs.groupby_head1_complete; [|intros []].
    now apply InventoryProofs.sort_values_In.
Qed.

Lemma flags_empty (df : list phoible_row) :
  compute_inventory_flags NFKC df = []
  <-> forall r, In r df -> ph_Glottocode r = None.
Proof.
  split.
  - intros E r Hr. destruct (ph_Glottocode r) as [g|] eqn:Eg; [|reflexivity].
    assert (Hk : In (g, ph_InventoryID r) (group_keys df)).
    { apply group_keys_In. exists r. split; [exact Hr|].
      unfold row_key. now rewrite Eg. }
    rewrite <- flags_keys, E in Hk. destruct Hk.
  - intros H. unfold compute_inventory_flags.
    destruct (group_keys df) as [|k ks] eqn:E; [reflexivity|].
    assert (Hk : In k (group_keys df)) by (rewrite E; now left).
    apply group_keys_In in Hk. destruct Hk as (r & Hr & Hk).
    unfold row_key in Hk. rewrite (H r Hr) in Hk. discriminate.
Qed.

Lemma largest_of_flags_Some (df : list phoible_row) largest :
  largest_of_flags NFKC df = Some largest ->
  largest
  = Inventory.select_largest_inventory (compute_inventory_flags NFKC df)
  /\ exists r g, In r df /\ ph_Glottocode r = Some g.
Proof.
  unfold largest_of_flags.
  destruct (compute_inventory_flags NFKC df) as [|o sizes] eqn:E;
    [discriminate|].
  intros [= <-]. split; [reflexivity|].
  assert (Hk : In (size_key o) (group_keys df)).
  { rewrite <- flags_keys, E. now left. }
  apply group_keys_In in Hk. destruct Hk as (r & Hr & Hk).
  unfold row_key in Hk. destruct (ph_Glottocode r) as [g|] eqn:Eg;
    [|discriminate].
  exists r, g. split; [exact Hr | exact Eg].
Qed.

Lemma largest_of_flags_None (df : list phoible_row) :
  largest_of_flags NFKC df = None
  <-> forall r, In r df -> ph_Glottocode r = None.
Proof.
  rewrite <- flags_empty. unfold largest_of_flags.
  destruct (compute_inventory_flags NFKC df); split; congruence.
Qed.

(** X12.  Lines 89-90: selecting the largest inventory of each language from
    the flags raises KeyError exactly when no row of the phoneme table has a
    Glottocode; otherwise the result has one row for every Glottocode that
    occurs in the phoneme table and no other row. *)
Theorem largest_inventory_of_flags_languages (df : list phoible_row) :
  (largest_of_flags NFKC df = None
   <-> forall r, In r df -> ph_Glottocode r = None)
  /\ forall largest,
       largest_of_flags NFKC df = Some largest ->
       NoDup (map Inventory.Glottocode largest)
       /\ forall g,
            In g (map Inventory.Glottocode largest)
            <-> exists r, In r df /\ ph_Glottocode r = Some g.
Proof.
  split; [apply largest_of_flags_None|].
  intros largest E. apply largest_of_flags_Some in E. destruct E as [-> _].
  split.
  - apply InventoryProofs.groupby_head1_NoDup.
  - intros g. apply largest_languages.
Qed.

End WithNFKC.

Lemma compute_inventory_flags_keys_witness :
  In (str_lit "finn1318", 2)
    (map size_key
       (compute_inventory_flags NFKC_of_normal_form phoible_example))
  /\ ~ In (str_lit "finn1318", 3)
         (map size_key
            (compute_inventory_flags NFKC_of_normal_form phoible_example)).
Proof.
  destruct (compute_inventory_flags_keys NFKC_of_normal_form phoible_example)
    as [_ H].
  split.
  - apply H. exists (segment "finn1318" 2 "i" "vowel" "Finnish").
    split; [|split; reflexivity]. simpl. tauto.
  - intros Hin. apply H in Hin. destruct Hin as (r & Hr & Hg & Hi).
    simpl in Hr.
    repeat (destruct Hr as [<-|Hr];
            [vm_compute in Hg, Hi; first [discriminate Hi | discriminate Hg]|]).
    exact Hr.
Defined.

Lemma compute_inventory_flags_counts_witness :
  In finnish_sizes
    (compute_inventory_flags NFKC_of_normal_form phoible_example)
  /\ 1 <= Inventory.total_inventory_size finnish_sizes
          <= Z.of_nat (length (filter (in_group (size_key finnish_sizes))
                                 phoible_example)).
Proof.
  assert (H : In finnish_sizes
                (compute_inventory_flags NFKC_of_normal_form
                   phoible_example))
    by (left; reflexivity).
  split; [exact H|].
  apply (compute_inventory_flags_counts NFKC_of_normal_form phoible_example
           finnish_sizes H).
Defined.

Lemma largest_inventory_of_flags_languages_witness :
  largest_of_flags NFKC_of_normal_form phoible_without_Glottocode = None
  /\ exists largest,
       largest_of_flags NFKC_of_normal_form phoible_example = Some largest
       /\ In (str_lit "hawa1245") (map Inventory.Glottocode largest).
Proof.
  split.
  - apply (largest_inventory_of_flags_languages NFKC_of_normal_form
             phoible_without_Glottocode).
    intros r Hr. unfold phoible_without_Glottocode in Hr.
    apply in_map_iff in Hr. destruct Hr as (r0 & <- & _). reflexivity.
  - assert (E : { largest | largest_of_flags NFKC_of_normal_form
                              phoible_example = Some largest }).
    { eexists. reflexivity. }
    destruct E as [largest E]. exists largest. split; [exact E|].
    apply (largest_inventory_of_flags_languages NFKC_of_normal_form
             phoible_example).
    + exact E.
    + exists (segment "hawa1245" 3 "a" "vowel" "Hawaiian").
      split; [simpl; tauto | reflexivity].
Defined.

End FlagsProofs.

(** ** Family mapping and the dataset *)

Module DatasetProofs.
Import Dataset.

(** *** Left merges *)

Lemma merge_left_In {L R} (same_key : L -> R -> bool) left right l m :
  In (l, m) (merge_left same_key left right) <->
  In l left
  /\ match m with
     | Some x => In x right /\ same_key l x = true
     | None => filter (same_key l) right = []
     end.
Proof.
  unfold merge_left. rewrite in_flat_map. split.
  - intros (l0 & Hl0 & H).
    destruct (filter (same_key l0) right) as [|x xs] eqn:E.
    + destruct H as [[= <- <-]|[]]. auto.
    + apply in_map_iff in H. destruct H as (y & [= <- <-] & Hy).
      split; [exact Hl0|]. rewrite <- E in Hy. now apply filter_In in Hy.
  - intros [Hl Hm]. exists l. split; [exact Hl|].
    destruct m as [x|].
    + assert (Hx : In x (filter (same_key l) right))
        by now apply filter_In.
      destruct (filter (same_key l) right) as [|y ys] eqn:E; [destruct Hx|].
      exact (in_map (fun z => (l, Some z)) _ _ Hx).
    + rewrite Hm. now left.
Qed.

Lemma merge_left_covers {L R} (same_key : L -> R -> bool) left right l :
  In l left -> In l (map fst (merge_left same_key left right)).
Proof.
  intros Hl. apply in_map_iff.
  destruct (filter (same_key l) right) as [|x xs] eqn:E.
  - exists (l, None). split; [reflexivity|]. now apply merge_left_In.
  - exists (l, Some x). split; [reflexivity|]. apply merge_left_In.
    split; [exact Hl|].
    assert (Hx : In x (filter (same_key l) right)) by (rewrite E; now left).
    now apply filter_In in Hx.
Qed.

Lemma merge_left_length {L R} (same_key : L -> R -> bool) left right :
  (length left <= length (merge_left same_key left right))%nat.
Proof.
  unfold merge_left. induction left as [|l left IH]; [simpl; lia|].
  cbn [flat_map]. rewrite length_app.
  destruct (filter (same_key l) right) as [|x xs]; cbn [length map] in *; lia.
Qed.

Lemma merge_left_single {L R} (same_key : L -> R -> bool) left right :
  (forall l, In l left -> (length (filter (same_key l) right) <= 1)%nat) ->
  map fst (merge_left same_key left right) = left.
Proof.
  unfold merge_left. induction left as [|l left IH]; intros H;
    [reflexivity|].
  cbn [flat_map]. rewrite map_app, IH by (intros; apply H; now right).
  specialize (H l (or_introl eq_refl)).
  destruct (filter (same_key l) right) as [|x [|y ys]]; simpl in *;
    [reflexivity | reflexivity | lia].
Qed.

(** A duplicate-free list has at most one element with a given key, when
    the elements of that key are all equal. *)
Lemma filter_at_most_one {A} (p : A -> bool) (l : list A) :
  NoDup l ->
  (forall x y, In x l -> In y l -> p x = true -> p y = true -> x = y) ->
  (length (filter p l) <= 1)%nat.
Proof.
  induction 1 as [|a l Ha Hn IH]; intros Hp; simpl; [lia|].
  destruct (p a) eqn:Ea.
  - assert (E : filter p l = []).
    { destruct (filter p l) as [|b bs] eqn:Eb; [reflexivity|].
      assert (Hb : In b (filter p l)) by (rewrite Eb; now left).
      apply filter_In in Hb. destruct Hb as [Hb1 Hb2].
      exfalso. apply Ha.
      rewrite (Hp a b); [exact Hb1 | now left | now right | exact Ea
                         | exact Hb2]. }
    rewrite E. simpl. lia.
  - apply IH. intros x y Hx Hy. apply Hp; now right.
Qed.

Lemma filter_key_at_most_one {A} (key : A -> pystr) (k : pystr)
  (l : list A) :
  NoDup (map key l) ->
  (length (filter (fun x => str_eqb k (key x)) l) <= 1)%nat.
Proof.
  induction l as [|a l IH]; simpl; intros Hn; [lia|].
  inversion Hn as [|? ? Ha Hn']; subst.
  destruct (str_eqb k (key a)) eqn:Ea.
  - apply str_eqb_eq in Ea. subst k.
    assert (E : filter (fun x => str_eqb (key a) (key x)) l = []).
    { destruct (filter _ l) as [|b bs] eqn:Eb; [reflexivity|].
      assert (Hb : In b (filter (fun x => str_eqb (key a) (key x)) l))
        by (rewrite Eb; now left).
      apply filter_In in Hb. destruct Hb as [Hb1 Hb2].
      apply str_eqb_eq in Hb2. exfalso. apply Ha. rewrite Hb2.
      now apply in_map. }
    rewrite E. simpl. lia.
  - now apply IH.
Qed.

(** *** compute_family_mapping *)

Lemma families_In f languoid :
  In f (families languoid) <->
  exists fam,
    In fam languoid /\ is_family fam = true
    /\ f = (lg_id fam, lg_name fam).
Proof.
  unfold families. rewrite in_map_iff. split.
  - intros (fam & <- & H). apply filter_In in H. exists fam. tauto.
  - intros (fam & H1 & H2 & ->). exists fam. split; [reflexivity|].
    now apply filter_In.
Qed.

(** X13.  Every languoid row has at least one row in the family mapping, under its
    own id; every row of the mapping carries the id of a languoid row, and
    its family name is either '(Unknown)' or the name of a row of level
    'family' whose id is that languoid's family_id.  A languoid without
    family_id, or whose family_id is the id of no row of level 'family', is
    mapped to '(Unknown)'. *)
Theorem compute_family_mapping_rows (languoid : list languoid_row) :
  let mapping := compute_family_mapping languoid in
  (length languoid <= length mapping)%nat
  /\ (forall r, In r languoid -> In (lg_id r) (map fst mapping))
  /\ (forall e, In e mapping ->
        exists r,
          In r languoid /\ fst e = lg_id r
          /\ (snd e = Unknown
              \/ exists fam,
                   In fam languoid /\ is_family fam = true
                   /\ lg_family_id r = Some (lg_id fam)
                   /\ lg_name fam = Some (snd e)))
  /\ (forall r, In r languoid ->
        (forall fam, In fam languoid -> is_family fam = true ->
                     lg_family_id r <> Some (lg_id fam)) ->
        In (lg_id r, Unknown) mapping).
Proof.
  intros mapping. unfold mapping, compute_family_mapping.
  split; [|split; [|split]].
  - rewrite length_map. apply merge_left_length.
  - intros r Hr. rewrite map_map. simpl.
    apply (in_map lg_id) in Hr.
    pose proof (merge_left_covers same_family languoid
                  (families languoid)) as C.
    apply in_map_iff in Hr. destruct Hr as (r0 & <- & Hr0).
    specialize (C r0 Hr0). apply in_map_iff in C.
    destruct C as ([l m] & Hl & Hin). simpl in Hl. subst l.
    apply in_map_iff. exists (r0, m). auto.
  - intros e He. apply in_map_iff in He.
    destruct He as ([r m] & <- & Hin). simpl.
    apply merge_left_In in Hin. destruct Hin as [Hr Hm].
    exists r. split; [exact Hr|]. split; [reflexivity|].
    destruct m as [[fid [n|]]|]; simpl; auto.
    right. destruct Hm as [Hf Hs]. apply families_In in Hf.
    destruct Hf as (fam & Hfam & Hlv & [= -> Hn]).
    exists fam. split; [exact Hfam|]. split; [exact Hlv|].
    unfold same_family in Hs. simpl in Hs.
    destruct (lg_family_id r) as [fid|]; [|discriminate].
    apply str_eqb_eq in Hs. subst. auto.
  - intros r Hr Hno. apply in_map_iff. exists (r, None).
    split; [reflexivity|]. apply merge_left_In. split; [exact Hr|].
    destruct (filter (same_family r) (families languoid)) as [|f fs] eqn:E;
      [reflexivity|].
    assert (Hf : In f (filter (same_family r) (families languoid)))
      by (rewrite E; now left).
    apply filter_In in Hf. destruct Hf as [Hf Hs].
    apply families_In in Hf. destruct Hf as (fam & Hfam & Hlv & ->).
    unfold same_family in Hs. simpl in Hs.
    destruct (lg_family_id r) as [fid|] eqn:Ef; [|discriminate].
    apply str_eqb_eq in Hs. subst fid.
    exfalso. exact (Hno fam Hfam Hlv eq_refl).
Qed.

Lemma family_mapping_ids (languoid : list languoid_row) :
  NoDup (map lg_id (filter is_family languoid)) ->
  map fst (compute_family_mapping languoid) = map lg_id languoid.
Proof.
  intros Hn. unfold compute_family_mapping. rewrite map_map. simpl.
  rewrite <- (map_map fst lg_id). f_equal.
  apply merge_left_single. intros l _.
  unfold same_family. destruct (lg_family_id l) as [fid|].
  - apply (filter_key_at_most_one fst fid).
    unfold families. rewrite map_map. simpl. exact Hn.
  - clear. induction (families languoid); simpl; auto.
Qed.

Lemma distinct_keys_filter (X K : Type) (key : X -> K) (keep : X -> bool)
  (rows : list X) :
  NoDup (map key rows) -> NoDup (map key (filter keep rows)).
Proof.
  induction rows as [|r rows IH]; simpl; intros Hn; [constructor|].
  inversion Hn as [|? ? Hr Hn']; subst.
  destruct (keep r); [|now apply IH].
  simpl. constructor; [|now apply IH].
  intros Hin. apply Hr. apply in_map_iff in Hin.
  destruct Hin as (x & Hx & Hin). apply filter_In in Hin.
  apply in_map_iff. exists x. tauto.
Qed.

(** X14.  When no two rows of level 'family' share an id, the mapping has exactly
    one row per languoid row, in the order of the languoid table; if moreover
    no two languoid rows share an id, no id occurs twice in the mapping. *)
Theorem compute_family_mapping_one_row_each (languoid : list languoid_row) :
  NoDup (map lg_id (filter is_family languoid)) ->
  map fst (compute_family_mapping languoid) = map lg_id languoid
  /\ length (compute_family_mapping languoid) = length languoid
  /\ (NoDup (map lg_id languoid) ->
      NoDup (map fst (compute_family_mapping languoid))).
Proof.
  intros Hn. pose proof (family_mapping_ids languoid Hn) as E.
  split; [exact E|]. split.
  - rewrite <- (length_map fst), E. apply length_map.
  - intros Hid. now rewrite E.
Qed.

(** *** prepare_dataset *)

Local Open Scope Q_scope.

Lemma option_str_eqb_eq a b : option_str_eqb a b = true <-> a = b.
Proof.
  destruct a as [x|], b as [y|]; simpl; try (split; congruence).
  rewrite str_eqb_eq. split; congruence.
Qed.

Lemma meta_eqb_eq a b : meta_eqb a b = true <-> a = b.
Proof.
  destruct a as [g n], b as [g' n']. unfold meta_eqb. simpl.
  rewrite andb_true_iff, option_str_eqb_eq, str_eqb_eq.
  split; [intros [-> ->]; reflexivity | intros [= -> ->]; auto].
Qed.

Section DropDuplicates.

Variable A : Type.
Variable eqb : A -> A -> bool.
Hypothesis eqb_eq : forall x y, eqb x y = true <-> x = y.

Lemma drop_duplicates_In x l : In x (drop_duplicates eqb l) <-> In x l.
Proof.
  induction l as [|a l IH]; simpl; [tauto|].
  rewrite filter_In, IH. split.
  - intros [->|[H _]]; auto.
  - intros [->|H]; [now left|].
    destruct (eqb x a) eqn:E.
    + apply eqb_eq in E. now left.
    + right. split; [exact H | reflexivity].
Qed.

Lemma drop_duplicates_NoDup l : NoDup (drop_duplicates eqb l).
Proof.
  induction l as [|a l IH]; simpl; constructor.
  - intros H. apply filter_In in H. destruct H as [_ H].
    assert (E : eqb a a = true) by now apply eqb_eq.
    rewrite E in H. discriminate.
  - now apply NoDup_filter.
Qed.

End DropDuplicates.

Section WithNFKC.

Variable NFKC : pystr -> pystr.

Lemma prepare_rows_languages largest phoible languoid :
  map d_Glottocode (prepare_rows largest phoible languoid)
  = map (fun x => Inventory.Glottocode (fst (fst x)))
      (merge_left same_language_id
         (merge_left same_language_meta largest (language_meta phoible))
         (compute_family_mapping languoid)).
Proof. unfold prepare_rows. rewrite map_map. reflexivity. Qed.

(** The rows built from the largest inventories of a phoneme table. *)
Lemma prepare_rows_spec (phoible : list phoible_row)
  (languoid : list languoid_row) :
  let data :=
    prepare_rows
      (Inventory.select_largest_inventory
         (compute_inventory_flags NFKC phoible)) phoible languoid in
  (forall g,
     In g (map d_Glottocode data)
     <-> exists r, In r phoible /\ ph_Glottocode r = Some g)
  /\ (forall row, In row data ->
        exists r,
          In r phoible /\ ph_Glottocode r = Some (d_Glottocode row)
          /\ d_LanguageName row = Some (LanguageName r))
  /\ (forall row, In row data ->
        d_family_name row = Unknown
        \/ In (d_Glottocode row, d_family_name row)
             (compute_family_mapping languoid)).
Proof.
  set (largest := Inventory.select_largest_inventory
                    (compute_inventory_flags NFKC phoible)).
  intros data. unfold data.
  assert (Hrows : forall row, In row (prepare_rows largest phoible languoid) ->
            exists l m e,
              In l largest
              /\ In (l, m) (merge_left same_language_meta largest
                              (language_meta phoible))
              /\ In ((l, m), e)
                   (merge_left same_language_id
                      (merge_left same_language_meta largest
                         (language_meta phoible))
                      (compute_family_mapping languoid))
              /\ d_Glottocode row = Inventory.Glottocode l
              /\ d_LanguageName row = option_map snd m
              /\ d_family_name row
                 = match e with Some e => snd e | None => Unknown end).
  { intros row Hrow. unfold prepare_rows in Hrow.
    apply in_map_iff in Hrow. destruct Hrow as ([[l m] e] & <- & Hx).
    exists l, m, e.
    pose proof Hx as Hx2. apply merge_left_In in Hx2.
    destruct Hx2 as [Hlm _]. pose proof Hlm as Hl.
    apply merge_left_In in Hl. destruct Hl as [Hl _].
    repeat split; assumption. }
  split; [|split].
  - intros g. rewrite <- (FlagsProofs.largest_languages NFKC phoible g).
    fold largest. rewrite prepare_rows_languages. split.
    + intros Hg. apply in_map_iff in Hg. destruct Hg as ([[l m] e] & <- & Hx).
      apply merge_left_In in Hx. destruct Hx as [Hlm _].
      apply merge_left_In in Hlm. destruct Hlm as [Hl _].
      simpl. now apply in_map.
    + intros Hg. apply in_map_iff in Hg. destruct Hg as (l & <- & Hl).
      pose proof (merge_left_covers same_language_meta largest
                    (language_meta phoible) l Hl) as C1.
      apply in_map_iff in C1. destruct C1 as ([l' m] & El & Hlm).
      simpl in El. subst l'.
      pose proof (merge_left_covers same_language_id _
                    (compute_family_mapping languoid) (l, m) Hlm) as C2.
      apply in_map_iff in C2. destruct C2 as ([lm e] & Elm & Hx).
      simpl in Elm. subst lm.
      apply in_map_iff. exists ((l, m), e). split; [reflexivity | exact Hx].
  - intros row Hrow.
    destruct (Hrows row Hrow) as (l & m & e & Hl & Hlm & _ & Eg & En & _).
    assert (Hgl : exists r, In r phoible
                            /\ ph_Glottocode r = Some (Inventory.Glottocode l)).
    { apply (FlagsProofs.largest_languages NFKC). now apply in_map. }
    apply merge_left_In in Hlm. destruct Hlm as [_ Hm].
    destruct m as [[g n]|].
    + destruct Hm as [Hin Hs]. unfold language_meta in Hin.
      rewrite (drop_duplicates_In _ meta_eqb meta_eqb_eq) in Hin.
      apply in_map_iff in Hin. destruct Hin as (r & [= Hg Hn] & Hr).
      unfold same_language_meta in Hs. simpl in Hs.
      apply option_str_eqb_eq in Hs.
      exists r. split; [exact Hr|]. rewrite Eg, En. simpl.
      split; congruence.
    + exfalso. destruct Hgl as (r & Hr & Hg).
      assert (Hin : In (ph_Glottocode r, LanguageName r)
                      (filter (same_language_meta l) (language_meta phoible))).
      { apply filter_In. split.
        - unfold language_meta.
          rewrite (drop_duplicates_In _ meta_eqb meta_eqb_eq).
          apply (in_map (fun r => (ph_Glottocode r, LanguageName r))), Hr.
        - unfold same_language_meta. simpl. now apply option_str_eqb_eq. }
      rewrite Hm in Hin. destruct Hin.
  - intros row Hrow.
    destruct (Hrows row Hrow) as (l & m & e & _ & _ & Hx & Eg & _ & Ef).
    destruct e as [e|]; [|now left]. right.
    apply merge_left_In in Hx. destruct Hx as [_ [Hin Hs]].
    unfold same_language_id in Hs. simpl in Hs. apply str_eqb_eq in Hs.
    rewrite Eg, Ef, Hs. now destruct e.
Qed.

(** X16.  [prepare_dataset] raises FileNotFoundError exactly when a raw file
    is missing, and KeyError exactly when both exist and no row of the
    phoneme table has a Glottocode.  Otherwise it returns a table that holds
    at least one row for every Glottocode of the phoneme table and no row
    for any other; every row carries a language name that the phoneme table
    gives to its Glottocode, and a family name that is '(Unknown)' or the one
    the family mapping gives to its Glottocode. *)
Theorem prepare_dataset_languages
  (phoible_file : option (list phoible_row))
  (languoid_file : option (list languoid_row)) :
  match prepare_dataset NFKC phoible_file languoid_file with
  | FileNotFoundError => phoible_file = None \/ languoid_file = None
  | KeyError =>
      exists phoible,
        phoible_file = Some phoible /\ languoid_file <> None
        /\ forall r, In r phoible -> ph_Glottocode r = None
  | Prepared data =>
      exists phoible languoid,
        phoible_file = Some phoible /\ languoid_file = Some languoid
        /\ (exists r g, In r phoible /\ ph_Glottocode r = Some g)
        /\ (forall g,
              In g (map d_Glottocode data)
              <-> exists r, In r phoible /\ ph_Glottocode r = Some g)
        /\ (forall row, In row data ->
              exists r,
                In r phoible /\ ph_Glottocode r = Some (d_Glottocode row)
                /\ d_LanguageName row = Some (LanguageName r))
        /\ (forall row, In row data ->
              d_family_name row = Unknown
              \/ In (d_Glottocode row, d_family_name row)
                   (compute_family_mapping languoid))
  end.
Proof.
  destruct phoible_file as [phoible|]; [|now left].
  destruct languoid_file as [languoid|]; [|now right].
  unfold prepare_dataset.
  destruct (largest_of_flags NFKC phoible) as [largest|] eqn:E.
  - destruct (FlagsProofs.largest_of_flags_Some NFKC phoible largest E)
      as [-> Hex].
    exists phoible, languoid.
    split; [reflexivity|]. split; [reflexivity|]. split; [exact Hex|].
    apply prepare_rows_spec.
  - exists phoible. split; [reflexivity|]. split; [discriminate|].
    now apply (FlagsProofs.largest_of_flags_None NFKC phoible).
Qed.

(** X17.  If the phoneme table gives each Glottocode a single language name
    and no two languoid rows share an id, the table that [prepare_dataset]
    returns has exactly one row per language, in ascending order of
    Glottocode. *)
Theorem prepare_dataset_one_row_per_language (phoible : list phoible_row)
  (languoid : list languoid_row) (data : list dataset_row) :
  (forall r1 r2 g, In r1 phoible -> In r2 phoible ->
     ph_Glottocode r1 = Some g -> ph_Glottocode r2 = Some g ->
     LanguageName r1 = LanguageName r2) ->
  NoDup (map lg_id languoid) ->
  prepare_dataset NFKC (Some phoible) (Some languoid) = Prepared data ->
  map d_Glottocode data
  = map Inventory.Glottocode
      (Inventory.select_largest_inventory
         (compute_inventory_flags NFKC phoible))
  /\ NoDup (map d_Glottocode data)
  /\ StronglySorted (fun g1 g2 => str_compare g1 g2 = Lt)
       (map d_Glottocode data).
Proof.
  intros Hname Hid. unfold prepare_dataset.
  destruct (largest_of_flags NFKC phoible) as [largest0|] eqn:El;
    [|discriminate].
  destruct (FlagsProofs.largest_of_flags_Some NFKC phoible largest0 El)
    as [-> _].
  intros [= <-].
  set (largest := Inventory.select_largest_inventory
                    (compute_inventory_flags NFKC phoible)).
  assert (E : map d_Glottocode (prepare_rows largest phoible languoid)
              = map Inventory.Glottocode largest).
  { rewrite prepare_rows_languages.
    rewrite <- (map_map (fun x => fst (fst x)) Inventory.Glottocode).
    rewrite <- (map_map fst fst).
    rewrite merge_left_single.
    - rewrite merge_left_single; [reflexivity|].
      intros l _. apply filter_at_most_one.
      + unfold language_meta. apply drop_duplicates_NoDup, meta_eqb_eq.
      + intros [g1 n1] [g2 n2] H1 H2 S1 S2.
        unfold same_language_meta in S1, S2. simpl in S1, S2.
        apply option_str_eqb_eq in S1, S2. subst g1 g2.
        unfold language_meta in H1, H2.
        rewrite (drop_duplicates_In _ meta_eqb meta_eqb_eq) in H1, H2.
        apply in_map_iff in H1, H2.
        destruct H1 as (r1 & [= G1 N1] & R1).
        destruct H2 as (r2 & [= G2 N2] & R2).
        f_equal. rewrite <- N1, <- N2.
        now apply (Hname r1 r2 (Inventory.Glottocode l)).
    - intros lm _. unfold same_language_id.
      apply (filter_key_at_most_one fst (Inventory.Glottocode (fst lm))).
      rewrite family_mapping_ids; [exact Hid|].
      now apply distinct_keys_filter. }
  rewrite E. split; [reflexivity|]. split.
  - apply InventoryProofs.groupby_head1_NoDup.
  - assert (Hs : forall l,
              StronglySorted
                (fun r1 r2 => str_compare (Inventory.Glottocode r1)
                                (Inventory.Glottocode r2) = Lt) l ->
              StronglySorted (fun g1 g2 => str_compare g1 g2 = Lt)
                (map Inventory.Glottocode l)).
    { induction 1 as [|x l Hl IH Hx]; simpl; constructor; [exact IH|].
      rewrite Forall_forall in *. intros g Hg. apply in_map_iff in Hg.
      destruct Hg as (y & <- & Hy). now apply Hx. }
    apply Hs. apply InventoryMore.sorted_distinct_languages.
    + apply InventoryMore.groupby_head1_sorted,
        InventoryProofs.sort_values_sorted.
    + apply InventoryProofs.groupby_head1_NoDup.
Qed.

End WithNFKC.

Lemma compute_family_mapping_rows_witness :
  In (str_lit "hawa1245", Unknown) (compute_family_mapping languoid_example).
Proof.
  destruct (compute_family_mapping_rows languoid_example)
    as (_ & _ & _ & H).
  apply (H (languoid "hawa1245" "aust1307" "language" "Hawaiian")).
  - simpl. tauto.
  - intros fam Hfam Hlv E. simpl in Hfam.
    destruct Hfam as [<-|[<-|[<-|[]]]]; discriminate.
Defined.

Lemma compute_family_mapping_one_row_each_witness :
  NoDup (map lg_id (filter is_family languoid_example))
  /\ map fst (compute_family_mapping languoid_example)
     = map lg_id languoid_example.
Proof.
  assert (H : NoDup (map lg_id (filter is_family languoid_example))).
  { simpl. constructor; [intros [] | constructor]. }
  split; [exact H|].
  apply (compute_family_mapping_one_row_each languoid_example H).
Defined.

Example compute_family_mapping_example :
  compute_family_mapping languoid_example
  = [(str_lit "finn1318", str_lit "Uralic");
     (str_lit "ural1272", Unknown);
     (str_lit "hawa1245", Unknown)].
Proof. reflexivity. Qed.

Lemma phoible_example_names r1 r2 g :
  In r1 phoible_example -> In r2 phoible_example ->
  ph_Glottocode r1 = Some g -> ph_Glottocode r2 = Some g ->
  LanguageName r1 = LanguageName r2.
Proof.
  intros H1 H2 G1 G2. simpl in H1, H2.
  repeat destruct H1 as [<-|H1]; try destruct H1;
    repeat destruct H2 as [<-|H2]; try destruct H2;
    first [reflexivity | vm_compute in G1, G2; congruence].
Qed.

Lemma languoid_example_ids : NoDup (map lg_id languoid_example).
Proof.
  simpl. repeat constructor; simpl; intuition discriminate.
Qed.

Lemma prepare_dataset_example_returns :
  { data | prepare_dataset NFKC_of_normal_form (Some phoible_example)
             (Some languoid_example) = Prepared data }.
Proof. eexists. reflexivity. Defined.

Lemma prepare_dataset_languages_witness :
  prepare_dataset NFKC_of_normal_form (Some phoible_without_Glottocode)
    (Some languoid_example) = KeyError
  /\ prepare_dataset NFKC_of_normal_form None (Some languoid_example)
     = FileNotFoundError
  /\ exists data,
       prepare_dataset NFKC_of_normal_form (Some phoible_example)
         (Some languoid_example) = Prepared data
       /\ In (str_lit "finn1318") (map d_Glottocode data).
Proof.
  split; [reflexivity|]. split; [reflexivity|].
  destruct prepare_dataset_example_returns as [data E].
  exists data. split; [exact E|].
  pose proof (prepare_dataset_languages NFKC_of_normal_form
                (Some phoible_example) (Some languoid_example)) as H.
  rewrite E in H.
  destruct H as (phoible & languoid & [= <-] & _ & _ & Hcov & _).
  apply Hcov.
  exists (segment "finn1318" 1 "y" "vowel" "Finnish").
  split; [simpl; tauto | reflexivity].
Defined.

Lemma prepare_dataset_one_row_per_language_witness :
  exists data,
    prepare_dataset NFKC_of_normal_form (Some phoible_example)
      (Some languoid_example) = Prepared data
    /\ map d_Glottocode data = [str_lit "finn1318"; str_lit "hawa1245"]
    /\ NoDup (map d_Glottocode data)
    /\ StronglySorted (fun g1 g2 => str_compare g1 g2 = Lt)
         (map d_Glottocode data).
Proof.
  destruct prepare_dataset_example_returns as [data E].
  exists data. split; [exact E|].
  destruct (prepare_dataset_one_row_per_language NFKC_of_normal_form
              phoible_example languoid_example data
              phoible_example_names languoid_example_ids E)
    as (H1 & H2 & H3).
  split; [rewrite H1; reflexivity|]. split; assumption.
Defined.

(** With two spellings of the name of a language in the phoneme table, the
    language has two rows in the prepared table. *)
Example prepare_dataset_two_names :
  exists data,
    prepare_dataset NFKC_of_normal_form (Some phoible_two_names)
      (Some languoid_example) = Prepared data
    /\ map d_Glottocode data
       = [str_lit "finn1318"; str_lit "hawa1245"; str_lit "hawa1245"].
Proof. eexists. split; reflexivity. Qed.

Example prepare_dataset_example :
  exists data,
    prepare_dataset NFKC_of_normal_form (Some phoible_example)
      (Some languoid_example) = Prepared data
    /\ map (fun row => (d_Glottocode row, d_InventoryID row,
                        d_total_inventory_size row,
                        d_vowel_inventory_size row,
                        d_y_present row, d_family_name row))
         data
       = [(str_lit "finn1318", 1, 3, 2, 1, str_lit "Uralic");
          (str_lit "hawa1245", 3, 3, 2, 0, Unknown)]%Z.
Proof. eexists. split; reflexivity. Qed.

(** The centred column is computed in binary64 and need not sum to zero:
    for the vowel counts 2, 1 and 4 the mean is rounded, and the three
    differences sum to -2^-51. *)
Example centred_column_sum :
  (Model.Qsum (map (fun v => centred v (column_mean [2; 1; 4]%Z))
                 [2; 1; 4]%Z)
   == - (1 # 2251799813685248))%Q.
Proof. vm_compute. reflexivity. Qed.

End DatasetProofs.

(** ** The let-alone scripts: synthetic rows, attribution of scores, main *)

Module LetAloneMore.
Import LetAlone LetAloneProofs.

(** *** load_corpus_features *)

Lemma int_of_bool_values b : int_of_bool b = 0%Z \/ int_of_bool b = 1%Z.
Proof. destruct b; simpl; auto. Qed.

Lemma int_of_bool_one b : int_of_bool b = 1%Z <-> b = true.
Proof. destruct b; simpl; split; congruence. Qed.

Lemma parallel_tags_spec x y :
  (str_eqb x (str_lit "NOUN") && str_eqb y (str_lit "NOUN"))
  || (str_eqb x y
      && (str_eqb x (str_lit "VERB") || str_eqb x (str_lit "ADJ"))) = true
  <-> parallel_tags x y.
Proof.
  unfold parallel_tags.
  rewrite orb_true_iff, !andb_true_iff, orb_true_iff, !str_eqb_eq.
  cbn [In]. split.
  - intros [[-> ->]|[-> [->| ->]]]; auto.
  - intros [-> [<-|[<-|[<-|[]]]]]; auto.
Qed.

Section WithNumpyRandom.

Variable np_state : Type.
Variable np_seed : Z -> np_state.
Variable np_choice : np_state -> list pystr -> pystr * np_state.
Variable np_rand : np_state -> Q * np_state.
Variable np_randint : np_state -> Z -> Z -> Z * np_state.
Variable sentence : Type.
Variable load_conllu : filesystem -> pystr -> list sentence.
Variable extract_let_alone_features :
  sentence -> list pystr -> list feature_row.

Lemma synthetic_row_shape c i st :
  let row := fst (synthetic_row np_choice np_rand np_randint c i st) in
  sentence_id row = str_lit "syn-" ++ c ++ str_lit "-" ++ str_of_nat i
  /\ x_form row = str_lit "X" ++ str_of_nat i
  /\ y_form row = Some (str_lit "Y" ++ str_of_nat i)
  /\ corpus row = c
  /\ (parallelism row = 0 \/ parallelism row = 1)%Z
  /\ (licensing row = 0 \/ licensing row = 1)%Z
  /\ (parallelism row = 1%Z <-> parallel_tags (upos_x row) (upos_y row)).
Proof.
  unfold synthetic_row.
  destruct (np_choice st upos_choices) as [x_upos st1].
  destruct (np_choice st1 upos_choices) as [y_upos st2].
  destruct (np_rand st2) as [u st3].
  destruct (np_randint st3 1 4) as [dx st4].
  destruct (np_randint st4 1 4) as [dy st5].
  cbn [fst sentence_id x_form y_form corpus parallelism licensing
         upos_x upos_y].
  do 4 (split; [reflexivity|]).
  do 2 (split; [apply int_of_bool_values|]).
  rewrite int_of_bool_one. apply parallel_tags_spec.
Qed.

Lemma synthetic_loop_Forall (P : feature_row -> Prop) c :
  (forall i st, P (fst (synthetic_row np_choice np_rand np_randint c i st))) ->
  forall indices st rows,
    Forall P rows ->
    Forall P (fst (synthetic_loop np_choice np_rand np_randint c
                     indices st rows)).
Proof.
  intros HP. induction indices as [|i rest IH]; intros st rows Hrows; simpl.
  - exact Hrows.
  - specialize (HP i st).
    destruct (synthetic_row np_choice np_rand np_randint c i st)
      as [row st'].
    apply IH. apply Forall_app. split; [exact Hrows|].
    constructor; [exact HP | constructor].
Qed.

Lemma synthetic_loop_map {A} (f : feature_row -> A) (g : nat -> A) c :
  (forall i st,
     f (fst (synthetic_row np_choice np_rand np_randint c i st)) = g i) ->
  forall indices st rows,
    map f (fst (synthetic_loop np_choice np_rand np_randint c
                  indices st rows))
    = map f rows ++ map g indices.
Proof.
  intros Hf. induction indices as [|i rest IH]; intros st rows; simpl.
  - now rewrite app_nil_r.
  - specialize (Hf i st).
    destruct (synthetic_row np_choice np_rand np_randint c i st)
      as [row st'].
    rewrite IH, map_app, <- app_assoc. simpl in *. now rewrite Hf.
Qed.

(** X18.  The synthetic table of a corpus, whatever the generator draws: row [i]
    is named after the corpus and [i] (sentence 'syn-<corpus>-<i>', forms
    'X<i>' and 'Y<i>'), is labelled with the corpus, has parallelism and
    licensing in {0, 1}, and has parallelism 1 exactly when its two tags are
    equal and are NOUN, VERB or ADJ. *)
Theorem synthetic_rows_well_formed (c : pystr) :
  let n := if str_eqb c gum then 12%nat else 15%nat in
  let rows := synthetic_table np_seed np_choice np_rand np_randint c in
  map sentence_id rows
  = map (fun i => str_lit "syn-" ++ c ++ str_lit "-" ++ str_of_nat i)
      (seq 0 n)
  /\ map x_form rows = map (fun i => str_lit "X" ++ str_of_nat i) (seq 0 n)
  /\ map y_form rows
     = map (fun i => Some (str_lit "Y" ++ str_of_nat i)) (seq 0 n)
  /\ Forall (fun row =>
               corpus row = c
               /\ (parallelism row = 0 \/ parallelism row = 1)%Z
               /\ (licensing row = 0 \/ licensing row = 1)%Z
               /\ (parallelism row = 1%Z
                   <-> parallel_tags (upos_x row) (upos_y row)))
       rows.
Proof.
  intros n rows. unfold rows, synthetic_table. fold n.
  split; [|split; [|split]].
  - rewrite (synthetic_loop_map sentence_id
               (fun i => str_lit "syn-" ++ c ++ str_lit "-" ++ str_of_nat i));
      [reflexivity|].
    intros i st. apply (synthetic_row_shape c i st).
  - rewrite (synthetic_loop_map x_form
               (fun i => str_lit "X" ++ str_of_nat i)); [reflexivity|].
    intros i st. apply (synthetic_row_shape c i st).
  - rewrite (synthetic_loop_map y_form
               (fun i => Some (str_lit "Y" ++ str_of_nat i)));
      [reflexivity|].
    intros i st. apply (synthetic_row_shape c i st).
  - apply synthetic_loop_Forall; [|constructor].
    intros i st. pose proof (synthetic_row_shape c i st) as H.
    cbv zeta in H. tauto.
Qed.

Lemma load_fallback fs st c :
  no_conllu fs (corpus_dir c) = true ->
  fst (load_corpus_features np_seed np_choice np_rand np_randint
         load_conllu extract_let_alone_features fs st c)
  = synthetic_table np_seed np_choice np_rand np_randint c.
Proof.
  intros H. unfold load_corpus_features. fold (corpus_dir c).
  rewrite H. reflexivity.
Qed.

Lemma load_labels fs st c row :
  In row (fst (load_corpus_features np_seed np_choice np_rand np_randint
                 load_conllu extract_let_alone_features fs st c)) ->
  corpus row = c.
Proof.
  unfold load_corpus_features. fold (corpus_dir c).
  destruct (no_conllu fs (corpus_dir c)).
  - intros H.
    assert (F : Forall (fun row => corpus row = c)
                  (fst (synthetic_loop np_choice np_rand np_randint c
                          (seq 0 (if str_eqb c (str_lit "gum")
                                  then 12 else 15))
                          (np_seed (if str_eqb c (str_lit "gum")
                                    then 0 else 1)%Z) []))).
    { apply synthetic_loop_Forall; [|constructor].
      intros i st0. apply (synthetic_row_shape c i st0). }
    rewrite Forall_forall in F. now apply F.
  - cbn [fst]. intros H. apply in_flat_map in H.
    destruct H as (filename & _ & H). apply in_flat_map in H.
    destruct H as (sent & _ & H). apply in_map_iff in H.
    destruct H as (row0 & <- & _). reflexivity.
Qed.

(** X19.  Every row of the table that [load_corpus_features] returns is
    labelled with the corpus asked for, on both branches; when treebank
    files are found, every row is an instance extracted from a sentence of a
    directory entry that ends in '.conllu', with its label overwritten. *)
Theorem load_corpus_features_corpus_column (fs : filesystem) (st : np_state)
  (c : pystr) :
  let out := load_corpus_features np_seed np_choice np_rand np_randint
               load_conllu extract_let_alone_features fs st c in
  Forall (fun row => corpus row = c) (fst out)
  /\ (no_conllu fs (corpus_dir c) = false ->
      forall row, In row (fst out) ->
        exists filename sent row0,
          In filename (os_listdir fs (corpus_dir c))
          /\ str_endswith filename (str_lit ".conllu") = true
          /\ In sent (load_conllu fs (path_join (corpus_dir c) filename))
          /\ In row0 (extract_let_alone_features sent LICENSOR_WORDS)
          /\ row = set_corpus row0 c).
Proof.
  intros out. split.
  - apply Forall_forall. intros row. apply load_labels.
  - intros Hno. unfold out, load_corpus_features. fold (corpus_dir c).
    rewrite Hno. cbn [fst snd].
    intros row H. apply in_flat_map in H.
    destruct H as (filename & Hf & H). apply filter_In in Hf.
    apply in_flat_map in H. destruct H as (sent & Hs & H).
    apply in_map_iff in H. destruct H as (row0 & <- & H0).
    exists filename, sent, row0. tauto.
Qed.

End WithNumpyRandom.

Lemma synthetic_rows_well_formed_witness :
  map sentence_id
    (synthetic_table counter_seed counter_choice counter_rand
       counter_randint ewt)
  = map (fun i => str_lit "syn-ewt-" ++ str_of_nat i) (seq 0 15).
Proof.
  apply (synthetic_rows_well_formed nat counter_seed counter_choice
           counter_rand counter_randint ewt).
Defined.

Lemma load_corpus_features_corpus_column_witness :
  no_conllu fs_with_treebanks (corpus_dir gum) = false
  /\ fst (load_corpus_features counter_seed counter_choice counter_rand
            counter_randint one_sentence one_instance
            fs_with_treebanks 7%nat gum) = [instance_of gum eat]
  /\ Forall (fun row => corpus row = gum)
       (fst (load_corpus_features counter_seed counter_choice counter_rand
               counter_randint one_sentence one_instance
               fs_with_treebanks 7%nat gum))
  /\ exists filename,
       str_endswith filename (str_lit ".conllu") = true
       /\ In (instance_of (str_lit "unlabelled") eat)
            (one_instance tt LICENSOR_WORDS)
       /\ instance_of gum eat
          = set_corpus (instance_of (str_lit "unlabelled") eat) gum.
Proof.
  assert (H : no_conllu fs_with_treebanks (corpus_dir gum) = false)
    by reflexivity.
  split; [exact H|]. split; [reflexivity|].
  pose proof (load_corpus_features_corpus_column nat counter_seed
                counter_choice counter_rand counter_randint unit
                one_sentence one_instance fs_with_treebanks 7%nat gum) as T.
  cbv zeta in T. destruct T as [T1 T2].
  split; [exact T1|].
  destruct (T2 H (instance_of gum eat)) as (filename & sent & row0 & _ & Hf
                                            & _ & H0 & E).
  { left. reflexivity. }
  exists filename. split; [exact Hf|].
  destruct H0 as [<-|[]]. split; [left; reflexivity | exact E].
Defined.

(** *** Dictionaries *)

Section Dict.

Variables K V : Type.
Variable eqb : K -> K -> bool.
Hypothesis eqb_eq : forall a b, eqb a b = true <-> a = b.

Lemma dict_set_NoDup (d : list (K * V)) k v :
  NoDup (map fst d) -> NoDup (map fst (dict_set eqb d k v)).
Proof.
  induction d as [|[k0 v0] d IH]; simpl; intros Hn.
  - constructor; [intros [] | constructor].
  - inversion Hn as [|? ? Hk Hn']; subst.
    destruct (eqb k0 k) eqn:E.
    + apply eqb_eq in E. subst k0. simpl. now constructor.
    + simpl. constructor; [|now apply IH].
      intros Hin. apply in_map_iff in Hin.
      destruct Hin as ([k1 v1] & Ek & Hin). simpl in Ek. subst k1.
      apply dict_set_In in Hin. destruct Hin as [[= -> _]|Hin].
      * assert (eqb k k = true) by now apply eqb_eq. congruence.
      * apply Hk. apply in_map_iff. exists (k0, v1). auto.
Qed.

Lemma dict_set_In_other (d : list (K * V)) k v k' v' :
  NoDup (map fst d) ->
  In (k', v') (dict_set eqb d k v) ->
  (k' = k /\ v' = v) \/ (In (k', v') d /\ k' <> k).
Proof.
  induction d as [|[k0 v0] d IH]; simpl; intros Hn.
  - intros [[= <- <-]|[]]. now left.
  - inversion Hn as [|? ? Hk Hn']; subst.
    destruct (eqb k0 k) eqn:E.
    + apply eqb_eq in E. subst k0. intros [[= <- <-]|Hin]; [now left|].
      right. split; [now right|]. intros ->. apply Hk.
      apply in_map_iff. exists (k, v'). auto.
    + intros [[= <- <-]|Hin].
      * right. split; [now left|]. intros ->.
        assert (eqb k k = true) by now apply eqb_eq. congruence.
      * destruct (IH Hn' Hin) as [H|[H1 H2]]; [now left|].
        right. split; [now right | exact H2].
Qed.

End Dict.

Lemma key_eqb_eq k1 k2 : key_eqb k1 k2 = true <-> k1 = k2.
Proof.
  destruct k1 as [f1 c1], k2 as [f2 c2]. unfold key_eqb. simpl.
  rewrite andb_true_iff, !str_eqb_eq. split.
  - intros [-> ->]. reflexivity.
  - intros [= -> ->]. auto.
Qed.

(** *** Sorting by score *)

Local Open Scope R_scope.

Lemma insert_scored_sorted x l :
  StronglySorted (fun a b : pystr * R => snd b <= snd a) l ->
  StronglySorted (fun a b : pystr * R => snd b <= snd a) (insert_scored x l).
Proof.
  induction l as [|y l IH]; simpl; intros Hs.
  - repeat constructor.
  - inversion Hs as [|? ? Hs' Hy]; subst.
    destruct (Rle_dec (- snd x) (- snd y)) as [Hle|Hnle].
    + constructor; [exact Hs|]. constructor; [lra|].
      eapply Forall_impl; [|exact Hy]. simpl. intros z Hz. lra.
    + constructor; [now apply IH|].
      apply Forall_forall. intros z Hz. apply insert_scored_In in Hz.
      destruct Hz as [->|Hz]; [lra|].
      rewrite Forall_forall in Hy. now apply Hy.
Qed.

Lemma sort_scored_sorted l :
  StronglySorted (fun a b : pystr * R => snd b <= snd a) (sort_scored l).
Proof.
  induction l as [|x l IH]; simpl; [constructor|].
  now apply insert_scored_sorted.
Qed.

Lemma insert_scored_perm x l :
  Permutation.Permutation (insert_scored x l) (x :: l).
Proof.
  induction l as [|y l IH]; simpl.
  - apply Permutation.Permutation_refl.
  - destruct (Rle_dec (- snd x) (- snd y)).
    + apply Permutation.Permutation_refl.
    + eapply Permutation.perm_trans;
        [apply Permutation.perm_skip, IH | apply Permutation.perm_swap].
Qed.

Lemma sort_scored_perm l : Permutation.Permutation (sort_scored l) l.
Proof.
  induction l as [|x l IH]; simpl; [constructor|].
  eapply Permutation.perm_trans; [apply insert_scored_perm|].
  now apply Permutation.perm_skip.
Qed.

Lemma skipn_incl {A} n (l : list A) x : In x (skipn n l) -> In x l.
Proof.
  revert l; induction n as [|n IH]; intros [|y l]; simpl; auto.
Qed.

Lemma firstn_sorted {A} (R : A -> A -> Prop) n l :
  StronglySorted R l -> StronglySorted R (firstn n l).
Proof.
  revert l; induction n as [|n IH]; intros [|x l] Hs; simpl;
    try constructor.
  - apply IH. now inversion Hs.
  - inversion Hs as [|? ? _ Hx]; subst. apply Forall_forall.
    intros y Hy. apply firstn_incl in Hy.
    rewrite Forall_forall in Hx. now apply Hx.
Qed.

Lemma firstn_before_skipn {A} (R : A -> A -> Prop) n l x y :
  StronglySorted R l -> In x (firstn n l) -> In y (skipn n l) -> R x y.
Proof.
  revert l; induction n as [|n IH]; intros [|a l] Hs; simpl;
    try (intros []; fail).
  inversion Hs as [|? ? Hs' Ha]; subst.
  intros [->|Hx] Hy.
  - rewrite Forall_forall in Ha. apply Ha. now apply skipn_incl in Hy.
  - now apply (IH l).
Qed.

Lemma firstn_NoDup {A} n (l : list A) : NoDup l -> NoDup (firstn n l).
Proof.
  revert l; induction n as [|n IH]; intros [|x l] Hn; simpl;
    try constructor.
  - inversion Hn as [|? ? Hx _]; subst. intros H. apply Hx.
    now apply firstn_incl in H.
  - apply IH. now inversion Hn.
Qed.

Lemma scored_forms_NoDup (llr : list ((pystr * pystr) * R)) c :
  NoDup (map fst llr) ->
  NoDup (map (fun e => fst (fst e))
           (filter (fun e => str_eqb (snd (fst e)) c) llr)).
Proof.
  induction llr as [|e llr IH]; simpl; intros Hn; [constructor|].
  inversion Hn as [|? ? He Hn']; subst.
  destruct (str_eqb (snd (fst e)) c) eqn:E; [|now apply IH].
  simpl. constructor; [|now apply IH].
  intros Hin. apply in_map_iff in Hin. destruct Hin as (e' & Ef & He').
  apply filter_In in He'. destruct He' as [He' E'].
  apply str_eqb_eq in E, E'. apply He.
  apply in_map_iff. exists e'. split; [|exact He'].
  destruct e as [[f1 c1] s1], e' as [[f2 c2] s2]. simpl in *. congruence.
Qed.

Lemma top5_shape (llr : list ((pystr * pystr) * R)) c :
  NoDup (map fst llr) ->
  (length (top5 llr c) <= 5)%nat
  /\ StronglySorted (fun a b : pystr * R => snd b <= snd a) (top5 llr c)
  /\ NoDup (map fst (top5 llr c))
  /\ (forall e, In e llr -> snd (fst e) = c ->
        In (fst (fst e), snd e) (top5 llr c)
        \/ forall x, In x (top5 llr c) -> snd e <= snd x).
Proof.
  intros Hn. unfold top5.
  set (scored := map (fun e : pystr * pystr * R => (fst (fst e), snd e))
                   (filter (fun e => str_eqb (snd (fst e)) c) llr)).
  split; [apply firstn_le_length|].
  split; [apply firstn_sorted, sort_scored_sorted|].
  split.
  - rewrite <- firstn_map. apply firstn_NoDup.
    apply (Permutation.Permutation_NoDup
             (Permutation.Permutation_map fst
                (Permutation.Permutation_sym (sort_scored_perm scored)))).
    unfold scored. rewrite map_map. simpl. now apply scored_forms_NoDup.
  - intros e He Ec.
    assert (Hin : In (fst (fst e), snd e) (sort_scored scored)).
    { apply sort_scored_In. unfold scored.
      apply (in_map (fun e : pystr * pystr * R => (fst (fst e), snd e))).
      apply filter_In. split; [exact He|]. now apply str_eqb_eq. }
    rewrite <- (firstn_skipn 5 (sort_scored scored)) in Hin.
    apply in_app_or in Hin. destruct Hin as [Hin|Hin]; [now left|].
    right. intros x Hx.
    apply (firstn_before_skipn
             (fun a b : pystr * R => snd b <= snd a) 5
             (sort_scored scored) x (fst (fst e), snd e)
             (sort_scored_sorted scored) Hx Hin).
Qed.

(** *** Attribution of the scores *)

Lemma Reqb_neq x y : Reqb x y = false -> x <> y.
Proof. unfold Reqb. destruct (Req_dec_T x y); [discriminate | auto]. Qed.

Lemma counts_get_pos_In forms form :
  (0 < counts_get forms form)%nat -> In form forms.
Proof.
  unfold counts_get. intros H.
  destruct (filter (str_eqb form) forms) as [|x l] eqn:E;
    [simpl in H; lia|].
  assert (Hx : In x (filter (str_eqb form) forms)) by (rewrite E; now left).
  apply filter_In in Hx. destruct Hx as [Hx Ex].
  apply str_eqb_eq in Ex. now subst.
Qed.

Lemma occurs_of_nonzero forms_a forms_b form :
  INR (counts_get forms_a form) + INR (counts_get forms_b form) <> 0 ->
  In form forms_a \/ In form forms_b.
Proof.
  intros H.
  destruct (counts_get forms_a form) as [|n] eqn:Ea.
  - destruct (counts_get forms_b form) as [|m] eqn:Eb.
    + simpl in H. lra.
    + right. apply counts_get_pos_In. lia.
  - left. apply counts_get_pos_In. lia.
Qed.

Section WithLog.

Variable np_log : R -> R.
Variable str_lower : pystr -> pystr.
Variable set_order : list pystr -> list pystr.

Lemma score_form_attributed corpus_a corpus_b forms_a forms_b llr form e :
  In e (score_form np_log corpus_a corpus_b forms_a forms_b llr form) ->
  In e llr \/ attributed np_log corpus_a corpus_b forms_a forms_b e.
Proof.
  unfold score_form.
  fold (relative_frequency forms_a form) (relative_frequency forms_b form).
  destruct (Reqb _ 0) eqn:Ez; [now left|].
  apply Reqb_neq, occurs_of_nonzero in Ez.
  destruct (Rgtb (relative_frequency forms_a form)
              (relative_frequency forms_b form)) eqn:Ea.
  - intros H. apply dict_set_In in H. destruct H as [->|H]; [|now left].
    right. apply Rgtb_spec in Ea. unfold attributed. simpl.
    split; [reflexivity|]. split; [exact Ez|]. left. now split.
  - destruct (Rgtb (relative_frequency forms_b form)
                (relative_frequency forms_a form)) eqn:Eb; [|now left].
    intros H. apply dict_set_In in H. destruct H as [->|H]; [|now left].
    right. apply Rgtb_spec in Eb. unfold attributed. simpl.
    split; [reflexivity|]. split; [exact Ez|]. right. now split.
Qed.

Lemma score_form_NoDup corpus_a corpus_b forms_a forms_b llr form :
  NoDup (map fst llr) ->
  NoDup (map fst (score_form np_log corpus_a corpus_b forms_a forms_b
                    llr form)).
Proof.
  intros Hn. unfold score_form.
  destruct (Reqb _ 0); [exact Hn|].
  destruct (Rgtb _ _); [now apply dict_set_NoDup; [apply key_eqb_eq|]|].
  destruct (Rgtb _ _); [now apply dict_set_NoDup; [apply key_eqb_eq|]|].
  exact Hn.
Qed.

Lemma llr_scores_invariant corpus_a corpus_b df :
  let llr := llr_scores_of np_log str_lower set_order corpus_a corpus_b df in
  NoDup (map fst llr)
  /\ forall e, In e llr ->
       attributed np_log corpus_a corpus_b (forms_of str_lower df corpus_a)
         (forms_of str_lower df corpus_b) e.
Proof.
  unfold llr_scores_of.
  set (forms_a := forms_of str_lower df corpus_a).
  set (forms_b := forms_of str_lower df corpus_b).
  generalize (set_order (unique (unique forms_a ++ unique forms_b))).
  intros all_forms.
  assert (G : forall acc,
            NoDup (map fst acc) ->
            (forall e, In e acc ->
                       attributed np_log corpus_a corpus_b forms_a forms_b e) ->
            NoDup (map fst (fold_left (score_form np_log corpus_a corpus_b
                                         forms_a forms_b) all_forms acc))
            /\ forall e,
                 In e (fold_left (score_form np_log corpus_a corpus_b
                                    forms_a forms_b) all_forms acc) ->
                 attributed np_log corpus_a corpus_b forms_a forms_b e).
  { induction all_forms as [|form rest IH]; intros acc Hn Hacc; simpl.
    - split; assumption.
    - apply IH; [now apply score_form_NoDup|].
      intros e He. apply score_form_attributed in He.
      destruct He as [He|He]; [now apply Hacc | exact He]. }
  apply G; [constructor | intros e []].
Qed.

Lemma compute_collostruction_entries df corpus_a corpus_b c top :
  unique (map corpus df) = [corpus_a; corpus_b] ->
  In (c, top) (compute_collostruction np_log str_lower set_order df) ->
  top = top5 (llr_scores_of np_log str_lower set_order corpus_a corpus_b df)
          c.
Proof.
  intros Hu Hin. unfold compute_collostruction in Hin. rewrite Hu in Hin.
  cbn [fold_left] in Hin.
  set (llr := llr_scores_of np_log str_lower set_order corpus_a corpus_b df)
    in *.
  assert (N0 : NoDup (map (@fst pystr (list (pystr * R)))
                        [(str_lit "gum", []); (str_lit "ewt", [])])).
  { simpl. constructor; [|constructor; [intros []|constructor]].
    intros [H|[]]. discriminate H. }
  apply (dict_set_In_other _ _ str_eqb str_eqb_eq) in Hin;
    [|now apply dict_set_NoDup; [apply str_eqb_eq|]].
  destruct Hin as [[-> ->]|[Hin Hb]]; [reflexivity|].
  apply (dict_set_In_other _ _ str_eqb str_eqb_eq) in Hin; [|exact N0].
  destruct Hin as [[-> ->]|[Hin Ha]]; [reflexivity|].
  assert (Et : top = []).
  { simpl in Hin. destruct Hin as [[= _ <-]|[[= _ <-]|[]]]; reflexivity. }
  subst top. unfold top5.
  assert (Ef : filter (fun e : pystr * pystr * R => str_eqb (snd (fst e)) c)
                 llr = []).
  { destruct (filter (fun e : pystr * pystr * R => str_eqb (snd (fst e)) c)
                llr) as [|e l] eqn:E; [reflexivity|].
    assert (He : In e (filter (fun e : pystr * pystr * R =>
                                 str_eqb (snd (fst e)) c) llr))
      by (rewrite E; now left).
    apply filter_In in He. destruct He as [He Ec].
    apply str_eqb_eq in Ec.
    destruct (llr_scores_invariant corpus_a corpus_b df) as [_ Hall].
    destruct (Hall e He) as (_ & _ & [[L _]|[L _]]); congruence. }
  rewrite Ef. reflexivity.
Qed.

(** X20.  In a table with exactly two corpus labels, every form that
    [compute_collostruction] lists for a corpus occurs in the table, has a
    strictly higher relative frequency in that corpus than in the other one,
    and is listed with the statistic computed from its four cell counts. *)
Theorem collostruction_listed_forms (df : list feature_row)
  (corpus_a corpus_b c : pystr) (top : list (pystr * R)) (form : pystr)
  (s : R) :
  unique (map corpus df) = [corpus_a; corpus_b] ->
  In (c, top) (compute_collostruction np_log str_lower set_order df) ->
  In (form, s) top ->
  let forms_a := forms_of str_lower df corpus_a in
  let forms_b := forms_of str_lower df corpus_b in
  s = form_score np_log forms_a forms_b form
  /\ (In form forms_a \/ In form forms_b)
  /\ ((c = corpus_a
       /\ relative_frequency forms_a form > relative_frequency forms_b form)
      \/ (c = corpus_b
          /\ relative_frequency forms_b form
             > relative_frequency forms_a form)).
Proof.
  intros Hu Hin Hform forms_a forms_b.
  rewrite (compute_collostruction_entries df corpus_a corpus_b c top Hu Hin)
    in Hform.
  unfold top5 in Hform. apply firstn_incl in Hform.
  rewrite sort_scored_In in Hform. apply in_map_iff in Hform.
  destruct Hform as (e & [= Ef Es] & He). apply filter_In in He.
  destruct He as [He Ec]. apply str_eqb_eq in Ec.
  destruct (llr_scores_invariant corpus_a corpus_b df) as [_ Hall].
  specialize (Hall e He). unfold attributed in Hall.
  rewrite Ef, Es, Ec in Hall. exact Hall.
Qed.

(** X21.  Each list that [compute_collostruction] returns has at most five forms,
    in order of non-increasing score, and no form twice; a form attributed to
    the corpus that is not listed has a score no higher than any listed
    one. *)
Theorem collostruction_top5_best (df : list feature_row)
  (corpus_a corpus_b c : pystr) (top : list (pystr * R)) :
  unique (map corpus df) = [corpus_a; corpus_b] ->
  In (c, top) (compute_collostruction np_log str_lower set_order df) ->
  (length top <= 5)%nat
  /\ StronglySorted (fun a b : pystr * R => snd b <= snd a) top
  /\ NoDup (map fst top)
  /\ (forall e,
        In e (llr_scores_of np_log str_lower set_order corpus_a corpus_b df) ->
        snd (fst e) = c ->
        In (fst (fst e), snd e) top
        \/ forall x, In x top -> snd e <= snd x).
Proof.
  intros Hu Hin.
  rewrite (compute_collostruction_entries df corpus_a corpus_b c top Hu Hin).
  apply top5_shape.
  apply (llr_scores_invariant corpus_a corpus_b df).
Qed.

End WithLog.

Lemma compute_collostruction_gum_first :
  compute_collostruction ln keep_case in_list_order df_gum_first
  = [(gum, top5 (llr_scores_of ln keep_case in_list_order gum ewt
                   df_gum_first) gum);
     (ewt, top5 (llr_scores_of ln keep_case in_list_order gum ewt
                   df_gum_first) ewt)].
Proof. reflexivity. Qed.

Lemma collostruction_listed_forms_witness :
  G_squared ln 1 1 0 1
  = form_score ln (forms_of keep_case df_gum_first gum)
      (forms_of keep_case df_gum_first ewt) eat.
Proof.
  apply (collostruction_listed_forms ln keep_case in_list_order
           df_gum_first gum ewt gum
           (top5 (llr_scores_of ln keep_case in_list_order gum ewt
                    df_gum_first) gum)
           eat (G_squared ln 1 1 0 1)).
  - reflexivity.
  - rewrite compute_collostruction_gum_first. left. reflexivity.
  - rewrite llr_scores_gum_first. unfold top5.
    change (map (fun e : pystr * pystr * R => (fst (fst e), snd e))
              (filter (fun e : pystr * pystr * R =>
                         str_eqb (snd (fst e)) gum) _))
      with [(eat, G_squared ln 1 1 0 1); (run, G_squared ln 1 1 0 1)].
    rewrite firstn_all2.
    + apply sort_scored_In. left. reflexivity.
    + rewrite (Permutation.Permutation_length (sort_scored_perm _)).
      simpl. lia.
Defined.

Lemma llr_scores_six_forms :
  llr_scores_of ln keep_case in_list_order gum ewt df_six_forms
  = [((eat, gum), G_squared ln 2 5 0 1); ((run, gum), G_squared ln 1 6 0 1);
     ((walk, gum), G_squared ln 1 6 0 1); ((sit, gum), G_squared ln 1 6 0 1);
     ((nap, gum), G_squared ln 1 6 0 1); ((hop, gum), G_squared ln 1 6 0 1);
     ((fly, ewt), G_squared ln 0 7 1 0)].
Proof.
  unfold llr_scores_of.
  change (forms_of keep_case df_six_forms gum)
    with [eat; eat; run; walk; sit; nap; hop].
  change (forms_of keep_case df_six_forms ewt) with [fly].
  change (in_list_order
            (unique (unique [eat; eat; run; walk; sit; nap; hop]
                     ++ unique [fly])))
    with [eat; run; walk; sit; nap; hop; fly].
  cbn [fold_left].
  rewrite (score_form_a ln gum ewt _ [fly] [] eat 2 5 0 1) by cells.
  rewrite (score_form_a ln gum ewt _ [fly] _ run 1 6 0 1) by cells.
  rewrite (score_form_a ln gum ewt _ [fly] _ walk 1 6 0 1) by cells.
  rewrite (score_form_a ln gum ewt _ [fly] _ sit 1 6 0 1) by cells.
  rewrite (score_form_a ln gum ewt _ [fly] _ nap 1 6 0 1) by cells.
  rewrite (score_form_a ln gum ewt _ [fly] _ hop 1 6 0 1) by cells.
  rewrite (score_form_b ln gum ewt _ [fly] _ fly 0 7 1 0) by cells.
  reflexivity.
Qed.

Lemma compute_collostruction_six_forms :
  compute_collostruction ln keep_case in_list_order df_six_forms
  = [(gum, top5 (llr_scores_of ln keep_case in_list_order gum ewt
                   df_six_forms) gum);
     (ewt, top5 (llr_scores_of ln keep_case in_list_order gum ewt
                   df_six_forms) ewt)].
Proof. reflexivity. Qed.

Lemma collostruction_top5_best_witness :
  let llr := llr_scores_of ln keep_case in_list_order gum ewt df_six_forms in
  let top := top5 llr gum in
  length (filter (fun e => str_eqb (snd (fst e)) gum) llr) = 6%nat
  /\ length top = 5%nat
  /\ StronglySorted (fun a b : pystr * R => snd b <= snd a) top
  /\ NoDup (map fst top)
  /\ (forall e, In e llr -> snd (fst e) = gum ->
        In (fst (fst e), snd e) top
        \/ forall x, In x top -> snd e <= snd x).
Proof.
  intros llr top.
  destruct (collostruction_top5_best ln keep_case in_list_order
              df_six_forms gum ewt gum top) as (_ & H2 & H3 & H4).
  - reflexivity.
  - rewrite compute_collostruction_six_forms. left. reflexivity.
  - assert (L : length (filter (fun e : pystr * pystr * R =>
                                  str_eqb (snd (fst e)) gum) llr) = 6%nat).
    { unfold llr. rewrite llr_scores_six_forms. reflexivity. }
    split; [exact L|]. split.
    + unfold top, top5. rewrite length_firstn.
      rewrite (Permutation.Permutation_length (sort_scored_perm _)).
      rewrite length_map. fold llr. rewrite L. reflexivity.
    + split; [exact H2|]. split; [exact H3 | exact H4].
Defined.

(** *** main *)

Lemma unique_In x l : In x (unique l) <-> In x l.
Proof.
  induction l as [|a l IH]; simpl; [tauto|].
  rewrite filter_In, IH. split.
  - intros [->|[H _]]; auto.
  - intros [->|H]; [now left|].
    destruct (str_eqb x a) eqn:E.
    + apply str_eqb_eq in E. now left.
    + right. split; [exact H | reflexivity].
Qed.

Lemma filter_none {A} (p : A -> bool) l :
  (forall x, In x l -> p x = false) -> filter p l = [].
Proof.
  induction l as [|a l IH]; simpl; intros H; [reflexivity|].
  rewrite (H a) by now left. apply IH. intros x Hx. apply H. now right.
Qed.

Lemma filter_all {A} (p : A -> bool) l :
  (forall x, In x l -> p x = true) -> filter p l = l.
Proof.
  induction l as [|a l IH]; simpl; intros H; [reflexivity|].
  rewrite (H a) by now left. f_equal. apply IH. intros x Hx. apply H.
  now right.
Qed.

Lemma str_eqb_distinct s t : s <> t -> str_eqb s t = false.
Proof. apply str_eqb_neq. Qed.

Lemma unique_constant l b :
  l <> [] -> (forall x, In x l -> x = b) -> unique l = [b].
Proof.
  destruct l as [|a l]; [congruence|]. intros _ H. simpl.
  rewrite (H a) by now left. f_equal. apply filter_none.
  intros x Hx. rewrite unique_In in Hx.
  rewrite (H x) by now right. now rewrite str_eqb_refl.
Qed.

Lemma unique_two_labels (A B : list feature_row) a b :
  a <> b -> A <> [] -> B <> [] ->
  (forall row, In row A -> corpus row = a) ->
  (forall row, In row B -> corpus row = b) ->
  unique (map corpus (A ++ B)) = [a; b].
Proof.
  intros Hab HA HB La Lb.
  assert (U : forall A', (forall row, In row A' -> corpus row = a) ->
            filter (fun y => negb (str_eqb y a))
              (unique (map corpus (A' ++ B))) = [b]).
  { induction A' as [|r A' IH]; intros L.
    - simpl. rewrite (unique_constant (map corpus B) b).
      + simpl. rewrite str_eqb_distinct by congruence. reflexivity.
      + destruct B; [congruence | discriminate].
      + intros x Hx. apply in_map_iff in Hx.
        destruct Hx as (row & <- & Hrow). now apply Lb.
    - simpl. rewrite (L r) by now left.
      rewrite str_eqb_refl. simpl.
      assert (I : forall l,
                filter (fun y => negb (str_eqb y a))
                  (filter (fun y => negb (str_eqb y a)) l)
                = filter (fun y => negb (str_eqb y a)) l).
      { intros l. apply filter_all. intros x Hx.
        apply filter_In in Hx. tauto. }
      rewrite I. apply IH. intros row Hrow. apply L. now right. }
  destruct A as [|r A]; [congruence|]. simpl.
  rewrite (La r) by now left. f_equal.
  apply U. intros row Hrow. apply La. now right.
Qed.

Local Open Scope Q_scope.

Lemma sum_of_flags (l : list Z) :
  Forall (fun z => z = 0 \/ z = 1)%Z l ->
  (0 <= fold_right Z.add 0 l <= Z.of_nat (length l))%Z.
Proof.
  induction 1 as [|z l Hz _ IH]; simpl length; simpl fold_right; [lia|].
  rewrite Nat2Z.inj_succ. lia.
Qed.

Lemma series_mean_of_flags (l : list Z) :
  l <> [] -> Forall (fun z => z = 0 \/ z = 1)%Z l ->
  0 <= series_mean l <= 1.
Proof.
  intros Hne Hl. pose proof (sum_of_flags l Hl) as [H0 H1].
  unfold series_mean.
  assert (Hn : 0 < inject_Z (Z.of_nat (length l))).
  { change 0 with (inject_Z 0). rewrite <- Zlt_Qlt.
    destruct l; [congruence | simpl length; lia]. }
  split.
  - apply Qle_shift_div_l; [exact Hn|]. rewrite Qmult_0_l.
    change 0 with (inject_Z 0). now rewrite <- Zle_Qle.
  - apply Qle_shift_div_r; [exact Hn|]. rewrite Qmult_1_l.
    now rewrite <- Zle_Qle.
Qed.

Section WithEnvironment.

Variable np_state : Type.
Variable np_seed : Z -> np_state.
Variable np_choice : np_state -> list pystr -> pystr * np_state.
Variable np_rand : np_state -> Q * np_state.
Variable np_randint : np_state -> Z -> Z -> Z * np_state.
Variable sentence : Type.
Variable load_conllu : filesystem -> pystr -> list sentence.
Variable extract_let_alone_features :
  sentence -> list pystr -> list feature_row.
Variable np_log : R -> R.
Variable str_lower : pystr -> pystr.
Variable set_order : list pystr -> list pystr.

Lemma collostruction_gum_ewt (df_gum df_ewt : list feature_row) :
  df_gum <> [] -> df_ewt <> [] ->
  (forall row, In row df_gum -> corpus row = gum) ->
  (forall row, In row df_ewt -> corpus row = ewt) ->
  compute_collostruction np_log str_lower set_order (df_gum ++ df_ewt)
  = [(gum, top5 (llr_scores_of np_log str_lower set_order gum ewt
                   (df_gum ++ df_ewt)) gum);
     (ewt, top5 (llr_scores_of np_log str_lower set_order gum ewt
                   (df_gum ++ df_ewt)) ewt)].
Proof.
  intros Hg He Lg Le. unfold compute_collostruction.
  rewrite (unique_two_labels df_gum df_ewt gum ewt);
    try assumption; [reflexivity | discriminate].
Qed.

Lemma collostruction_one_label (df : list feature_row) c :
  df <> [] -> (forall row, In row df -> corpus row = c) ->
  compute_collostruction np_log str_lower set_order df
  = [(str_lit "gum", []); (str_lit "ewt", [])].
Proof.
  intros Hne L. unfold compute_collostruction.
  rewrite (unique_constant (map corpus df) c); [reflexivity| |].
  - destruct df; [congruence | discriminate].
  - intros x Hx. apply in_map_iff in Hx.
    destruct Hx as (row & <- & Hrow). now apply L.
Qed.

Lemma count_label (A B : list feature_row) a b c :
  (forall row, In row A -> corpus row = a) ->
  (forall row, In row B -> corpus row = b) ->
  length (filter (fun row => str_eqb (corpus row) c) (A ++ B))
  = ((if str_eqb a c then length A else 0)
     + (if str_eqb b c then length B else 0))%nat.
Proof.
  intros La Lb. rewrite filter_app, length_app. f_equal.
  - destruct (str_eqb a c) eqn:E.
    + rewrite filter_all; [reflexivity|].
      intros x Hx. now rewrite (La x Hx).
    + rewrite filter_none; [reflexivity|].
      intros x Hx. now rewrite (La x Hx).
  - destruct (str_eqb b c) eqn:E.
    + rewrite filter_all; [reflexivity|].
      intros x Hx. now rewrite (Lb x Hx).
    + rewrite filter_none; [reflexivity|].
      intros x Hx. now rewrite (Lb x Hx).
Qed.

Lemma synthetic_table_length c :
  length (synthetic_table np_seed np_choice np_rand np_randint c)
  = if str_eqb c gum then 12%nat else 15%nat.
Proof.
  unfold synthetic_table.
  rewrite (synthetic_loop_length np_state np_choice np_rand np_randint).
  now rewrite length_seq.
Qed.

Lemma synthetic_table_flags c :
  Forall (fun row =>
            corpus row = c
            /\ (parallelism row = 0 \/ parallelism row = 1)%Z
            /\ (licensing row = 0 \/ licensing row = 1)%Z)
    (synthetic_table np_seed np_choice np_rand np_randint c).
Proof.
  unfold synthetic_table. apply synthetic_loop_Forall; [|constructor].
  intros i st.
  pose proof (synthetic_row_shape _ np_choice np_rand np_randint c i st)
    as H.
  cbv zeta in H. tauto.
Qed.

Lemma synthetic_rates c :
  let df := synthetic_table np_seed np_choice np_rand np_randint c in
  df <> []
  /\ 0 <= series_mean (map parallelism df) <= 1
  /\ 0 <= series_mean (map licensing df) <= 1.
Proof.
  intros df. pose proof (synthetic_table_length c) as L. fold df in L.
  pose proof (synthetic_table_flags c) as F. fold df in F.
  assert (Hne : df <> []).
  { intros E. rewrite E in L. simpl in L.
    destruct (str_eqb c gum); discriminate. }
  rewrite Forall_forall in F.
  split; [exact Hne|]. split; apply series_mean_of_flags;
    try (destruct df; [congruence | discriminate]);
    apply Forall_forall; intros z Hz; apply in_map_iff in Hz;
    destruct Hz as (row & <- & Hrow); apply (F row Hrow).
Qed.

(** X22.  [main] raises only when both corpus directories hold treebank files and
    no instance is extracted from either; it has then saved an empty feature
    table.  Otherwise it saves the instances of GUM followed by those of EWT
    (the saved table is its rows labelled 'gum' followed by its rows
    labelled 'ewt') and a statistics table of two rows, 'gum' then 'ewt',
    whose [n_tokens] is the number of saved instances labelled with the
    corpus; when one of
    the two corpora has no instance, both lists of top Y heads are empty. *)
Theorem main_outcome_cases (fs : filesystem) (st : np_state) :
  match main np_seed np_choice np_rand np_randint load_conllu
          extract_let_alone_features np_log str_lower set_order fs st with
  | KeyError features =>
      features = []
      /\ no_conllu fs (corpus_dir gum) = false
      /\ no_conllu fs (corpus_dir ewt) = false
  | Saved features stats =>
      features <> []
      /\ (forall row, In row features ->
            corpus row = gum \/ corpus row = ewt)
      /\ features
         = filter (fun row => str_eqb (corpus row) gum) features
           ++ filter (fun row => str_eqb (corpus row) ewt) features
      /\ map st_corpus stats = [gum; ewt]
      /\ (forall s, In s stats ->
            n_tokens s
            = Z.of_nat
                (length (filter (fun row => str_eqb (corpus row) (st_corpus s))
                           features)))
      /\ ((exists s, In s stats /\ n_tokens s = 0%Z) ->
          forall s, In s stats -> top_y_heads s = [])
  end.
Proof.
  unfold main.
  pose proof (load_labels _ np_seed np_choice np_rand np_randint
                _ load_conllu extract_let_alone_features fs st gum) as Lg.
  pose proof (synthetic_loop_length np_state np_choice np_rand np_randint)
    as Len.
  assert (Fg : no_conllu fs (corpus_dir gum) = true ->
               fst (load_corpus_features np_seed np_choice np_rand
                      np_randint load_conllu extract_let_alone_features
                      fs st gum) <> []).
  { intros H. rewrite (load_fallback _ _ _ _ _ _ _ _ _ _ _ H).
    unfold synthetic_table. intros E.
    apply (f_equal (@length feature_row)) in E.
    rewrite Len in E. simpl in E. discriminate. }
  destruct (load_corpus_features np_seed np_choice np_rand np_randint
              load_conllu extract_let_alone_features fs st gum)
    as [df_gum st1].
  pose proof (load_labels _ np_seed np_choice np_rand np_randint
                _ load_conllu extract_let_alone_features fs st1 ewt) as Le.
  assert (Fe : no_conllu fs (corpus_dir ewt) = true ->
               fst (load_corpus_features np_seed np_choice np_rand
                      np_randint load_conllu extract_let_alone_features
                      fs st1 ewt) <> []).
  { intros H. rewrite (load_fallback _ _ _ _ _ _ _ _ _ _ _ H).
    unfold synthetic_table. intros E.
    apply (f_equal (@length feature_row)) in E.
    rewrite Len in E. simpl in E. discriminate. }
  destruct (load_corpus_features np_seed np_choice np_rand np_randint
              load_conllu extract_let_alone_features fs st1 ewt)
    as [df_ewt st2].
  cbn [fst] in Lg, Le, Fg, Fe.
  destruct (df_gum ++ df_ewt) as [|row0 rest] eqn:Eall.
  - apply app_eq_nil in Eall. destruct Eall as [-> ->].
    split; [reflexivity|]. split.
    + destruct (no_conllu fs (corpus_dir gum)); [|reflexivity].
      now destruct Fg.
    + destruct (no_conllu fs (corpus_dir ewt)); [|reflexivity].
      now destruct Fe.
  - rewrite <- Eall.
    assert (Hne : df_gum ++ df_ewt <> []) by (rewrite Eall; discriminate).
    split; [exact Hne|]. split.
    { intros row Hrow. apply in_app_or in Hrow. destruct Hrow; auto. }
    split.
    { rewrite !filter_app.
      rewrite (filter_all (fun row => str_eqb (corpus row) gum) df_gum)
        by (intros x Hx; now rewrite (Lg x Hx)).
      rewrite (filter_none (fun row => str_eqb (corpus row) gum) df_ewt)
        by (intros x Hx; now rewrite (Le x Hx)).
      rewrite (filter_none (fun row => str_eqb (corpus row) ewt) df_gum)
        by (intros x Hx; now rewrite (Lg x Hx)).
      rewrite (filter_all (fun row => str_eqb (corpus row) ewt) df_ewt)
        by (intros x Hx; now rewrite (Le x Hx)).
      now rewrite app_nil_r. }
    split; [reflexivity|]. split.
    { intros s [<-|[<-|[]]]; unfold stats_of; cbn [n_tokens st_corpus];
        f_equal;
        rewrite (count_label df_gum df_ewt gum ewt) by assumption.
      - change (str_eqb gum gum) with true.
        change (str_eqb ewt gum) with false. cbv iota. lia.
      - change (str_eqb gum ewt) with false.
        change (str_eqb ewt ewt) with true. cbv iota. lia. }
    intros (s0 & Hs0 & Hz) s Hs.
    assert (E : compute_collostruction np_log str_lower set_order
                  (df_gum ++ df_ewt)
                = [(str_lit "gum", []); (str_lit "ewt", [])]).
    { destruct Hs0 as [<-|[<-|[]]]; cbn [n_tokens] in Hz.
      - destruct df_gum; [|discriminate Hz]. simpl app in *.
        now apply (collostruction_one_label df_ewt ewt).
      - destruct df_ewt; [|discriminate Hz]. rewrite app_nil_r in *.
        now apply (collostruction_one_label df_gum gum). }
    destruct Hs as [<-|[<-|[]]]; unfold stats_of; cbn [top_y_heads];
      rewrite E; reflexivity.
Qed.

(** X23.  When neither corpus directory holds a treebank file, [main] saves the two
    synthetic tables and the statistics rows ('gum', 12) and ('ewt', 15),
    with rates between 0 and 1 and with the top Y heads of a comparison in
    which GUM is the first corpus; it does so whatever state the random
    generator is in. *)
Theorem main_on_synthetic_data (fs : filesystem) (st : np_state) :
  corpus_files_missing fs gum -> corpus_files_missing fs ewt ->
  let df_gum := synthetic_table np_seed np_choice np_rand np_randint gum in
  let df_ewt := synthetic_table np_seed np_choice np_rand np_randint ewt in
  let llr :=
    llr_scores_of np_log str_lower set_order gum ewt (df_gum ++ df_ewt) in
  exists p_gum l_gum p_ewt l_ewt,
    main np_seed np_choice np_rand np_randint load_conllu
      extract_let_alone_features np_log str_lower set_order fs st
    = Saved (df_gum ++ df_ewt)
        [ {| st_corpus := gum; n_tokens := 12;
             parallelism_rate := p_gum; licensing_rate := l_gum;
             top_y_heads := top5 llr gum |};
          {| st_corpus := ewt; n_tokens := 15;
             parallelism_rate := p_ewt; licensing_rate := l_ewt;
             top_y_heads := top5 llr ewt |} ]
    /\ 0 <= p_gum <= 1 /\ 0 <= l_gum <= 1
    /\ 0 <= p_ewt <= 1 /\ 0 <= l_ewt <= 1.
Proof.
  intros Mg Me df_gum df_ewt llr. unfold main.
  pose proof (load_fallback _ np_seed np_choice np_rand np_randint
                _ load_conllu extract_let_alone_features fs st gum
                (corpus_files_missing_no_conllu fs gum Mg)) as Eg.
  destruct (load_corpus_features np_seed np_choice np_rand np_randint
              load_conllu extract_let_alone_features fs st gum)
    as [df_gum' st1].
  pose proof (load_fallback _ np_seed np_choice np_rand np_randint
                _ load_conllu extract_let_alone_features fs st1 ewt
                (corpus_files_missing_no_conllu fs ewt Me)) as Ee.
  destruct (load_corpus_features np_seed np_choice np_rand np_randint
              load_conllu extract_let_alone_features fs st1 ewt)
    as [df_ewt' st2].
  cbn [fst] in Eg, Ee. subst df_gum' df_ewt'.
  fold df_gum df_ewt.
  destruct (synthetic_rates gum) as (Ng & Pg & Lg).
  destruct (synthetic_rates ewt) as (Ne & Pe & Le).
  fold df_gum in Ng, Pg, Lg. fold df_ewt in Ne, Pe, Le.
  exists (series_mean (map parallelism df_gum)),
    (series_mean (map licensing df_gum)),
    (series_mean (map parallelism df_ewt)),
    (series_mean (map licensing df_ewt)).
  split; [|tauto].
  pose proof (synthetic_table_length gum) as Sg.
  pose proof (synthetic_table_length ewt) as Se.
  change (length df_gum = 12%nat) in Sg.
  change (length df_ewt = 15%nat) in Se.
  subst llr.
  destruct (df_gum ++ df_ewt) as [|row0 rest] eqn:Eall.
  - apply app_eq_nil in Eall. tauto.
  - rewrite <- Eall. unfold stats_of.
    rewrite (collostruction_gum_ewt df_gum df_ewt Ng Ne).
    + rewrite Sg, Se. reflexivity.
    + intros row Hrow.
      pose proof (synthetic_table_flags gum) as F.
      rewrite Forall_forall in F. now apply F.
    + intros row Hrow.
      pose proof (synthetic_table_flags ewt) as F.
      rewrite Forall_forall in F. now apply F.
Qed.

End WithEnvironment.

Lemma main_outcome_cases_witness :
  main counter_seed counter_choice counter_rand counter_randint
    no_sentences no_features ln keep_case in_list_order
    fs_with_treebanks 0%nat = KeyError []
  /\ no_conllu fs_with_treebanks (corpus_dir gum) = false
  /\ no_conllu fs_with_treebanks (corpus_dir ewt) = false.
Proof.
  pose proof (main_outcome_cases nat counter_seed counter_choice
                counter_rand counter_randint unit no_sentences no_features
                ln keep_case in_list_order fs_with_treebanks 0%nat) as H.
  assert (E : main counter_seed counter_choice counter_rand counter_randint
                no_sentences no_features ln keep_case in_list_order
                fs_with_treebanks 0%nat = KeyError [])
    by reflexivity.
  rewrite E in H. split; [exact E|]. apply H.
Defined.

Lemma main_on_synthetic_data_witness :
  exists features stats,
    main counter_seed counter_choice counter_rand counter_randint
      no_sentences no_features ln keep_case in_list_order
      fs_without_data 5%nat = Saved features stats
    /\ map st_corpus stats = [gum; ewt]
    /\ map n_tokens stats = [12; 15]%Z.
Proof.
  destruct (main_on_synthetic_data nat counter_seed counter_choice
              counter_rand counter_randint unit no_sentences no_features
              ln keep_case in_list_order fs_without_data 5%nat)
    as (p_gum & l_gum & p_ewt & l_ewt & E & _).
  - left. reflexivity.
  - left. reflexivity.
  - rewrite E. eexists. eexists. split; [reflexivity|].
    split; reflexivity.
Defined.

End LetAloneMore.

(** ** compute_collostruction under an exchange of the two corpus labels *)

Module RelabelProofs.
Import LetAlone LetAloneProofs.

Local Open Scope R_scope.









Section WithLog.

Variable np_log : R -> R.
Variable str_lower : pystr -> pystr.
Variable set_order : list pystr -> list pystr.





End WithLog.


End RelabelProofs.
